(** * A shallow embedding of the bootstrap container

    The development follows the two Go packages of the repository:

    - package [dag] (graph.go, node.go): the [Node] record and [Resolve],
      made of the producer mapping, the dependency mapping, [checkCycles]
      and [topologicalSort];
    - package [bootstrap] (bootstrap.go): the [Bootstrap] record with [Add],
      [Run], [Cleanup] and [execute].

    How the Go code is read:

    - a Go map is a finite map of stdpp, a slice is a list, and a map to
      [bool] that only ever holds [true] is a finite set;
    - a [*Node] is an address, and the nodes are in a heap, a finite map
      from addresses to [Node]; [heap !!! n] is [*n], and [NewNode]
      allocates at an address that is not in use;
    - what the code asks from the packages [reflect] and [runtime] is a
      field of a type descriptor, a field of a [Value], or a member of the
      class [Runtime];
    - a closure that calls itself ([visit], twice) is a fixpoint on a fuel
      that bounds the depth of the calls; theorem [Resolve_returns] shows
      that the fuel that [Resolve] is given is enough, and theorem
      [Resolve_any_fuel] that no other fuel gives another result;
    - a panic of the code of the repository is the result [Panicked]; the
      constructors and the cleanups that the container calls are members
      of the class [Program], act on a world of their own, and return;
    - the mutex of the container is left out: the calls are one after the
      other;
    - the calls that the container makes are recorded in a trace, that the
      code does not have: it is what "is called once" and "is not called"
      are stated on. *)

From stdpp Require Import gmap strings list pretty.

(** ** Errors *)

(** A Go [error]: the values built by [errors.New] and [fmt.Errorf], and
    any other implementation of the interface, with what [Error()] prints. *)
Inductive error : Type :=
| errorString (msg : string)
| customError (tag : N) (msg : string).

Definition Error (e : error) : string :=
  match e with
  | errorString msg => msg
  | customError _ msg => msg
  end.

#[global] Instance error_eq_dec : EqDecision error.
Proof. solve_decision. Defined.

(** [strings.Contains]. *)
Fixpoint Contains (s substr : string) : bool :=
  String.prefix substr s ||
  match s with
  | EmptyString => false
  | String _ s' => Contains s' substr
  end.

(** [strings.Join]. *)
Definition Join (parts : list string) (sep : string) : string :=
  String.concat sep parts.

(** ** Package reflect *)

Inductive Kind : Set :=
| Invalid | Bool | Int | Int8 | Int16 | Int32 | Int64
| Uint | Uint8 | Uint16 | Uint32 | Uint64 | Uintptr
| Float32 | Float64 | Complex64 | Complex128
| Array | Chan | Func | Interface | Map | Ptr | Slice
| String_ | Struct | UnsafePointer.

#[global] Instance Kind_eq_dec : EqDecision Kind.
Proof. solve_decision. Defined.

(** A [reflect.Type] is the address of a type descriptor of the runtime;
    two types are the same type when the addresses are equal. *)
Abbreviation Type_ := positive (only parsing).

Record StructField : Type := {
  FieldName : string;
  PkgPath : string;          (* empty for an exported field *)
  FieldType : Type_;
  Anonymous : bool
}.

(** What the code reads from a type descriptor.  [tElem] is read on
    pointers only, [tFields] on structs only, [tIn] and [tOut] on functions
    only; [tString] is what [%v] prints. *)
Record rtype : Type := {
  tKind : Kind;
  tString : string;
  tElem : Type_;
  tFields : list StructField;
  tIn : list Type_;
  tOut : list Type_;
  tImplementsError : bool
}.

(** [runtime.Func], read at the entry of the function. *)
Record RuntimeFunc : Type := {
  FuncName : string;
  FuncFile : string;
  FuncLine : nat
}.

(** The cleanup method value of a [Cleanable], by identity. *)
Abbreviation CleanupFn := N (only parsing).

(** A [reflect.Value].  [vType = None] is the zero Value.  [vData] is the
    data word (the address that a pointer holds, the closure of a
    function).  [vPointer] is what [Pointer()] returns: for a function, its
    code pointer; the code calls it on the functions of the nodes only,
    where it does not panic.  [vIsNil] is the answer of [IsNil()] on a kind
    that has one.  [vError] and [vCleanable] say whether [Interface()]
    holds an [error] or a [Cleanable], and which. *)
Record Value : Type := {
  vType : option Type_;
  vData : N;
  vPointer : N;
  vIsNil : bool;
  vError : option error;
  vCleanable : option CleanupFn
}.

#[global] Instance Value_eq_dec : EqDecision Value.
Proof. solve_decision. Defined.

Definition zeroValue : Value :=
  {| vType := None; vData := 0; vPointer := 0; vIsNil := false;
     vError := None; vCleanable := None |}.

Class Runtime : Type := {
  (** the type descriptors *)
  rtypes : Type_ → rtype;
  (** [runtime.FuncForPC] *)
  FuncForPC : N → option RuntimeFunc;
  (** [reflect.TypeOf(Inject{})] *)
  InjectType : Type_;
  (** [reflect.FuncOf(ins, nil, false)] *)
  FuncOf : list Type_ → Type_;
  (** the code pointer shared by the functions of [reflect.MakeFunc] *)
  makeFuncStub : N;
  (** the function literal of [New] that returns the context, reflected *)
  contextProvider : Value
}.

(** ** Results of Go code

    [Done a] is a normal return, [Panicked] a run-time panic raised by the
    code of the repository (an index out of range, [IsNil] on a kind that
    has none, [Type()] on the zero Value), [Diverged] a recursion that the
    fuel of the model cut (theorem [Resolve_returns]: there is none). *)
Inductive result (A : Type) : Type :=
| Done (a : A)
| Panicked
| Diverged.
Arguments Done {A} a.
Arguments Panicked {A}.
Arguments Diverged {A}.

#[global] Instance result_ret : MRet result := @Done.

#[global] Instance result_bind : MBind result := fun A B k r =>
  match r with
  | Done a => k a
  | Panicked => Panicked
  | Diverged => Diverged
  end.

Section reflect.
Context `{Runtime}.

Definition IsValid (v : Value) : bool := bool_decide (vType v ≠ None).

Definition ValueKind (v : Value) : Kind :=
  match vType v with
  | None => Invalid
  | Some t => tKind (rtypes t)
  end.

Definition nillable (k : Kind) : bool :=
  match k with
  | Chan | Func | Interface | Map | Ptr | Slice | UnsafePointer => true
  | _ => false
  end.

(** [IsNil] panics unless the kind is chan, func, interface, map, pointer,
    slice or unsafe pointer. *)
Definition IsNil (v : Value) : result bool :=
  if nillable (ValueKind v) then Done (vIsNil v) else Panicked.

(** [v.Type()] panics on the zero Value. *)
Definition TypeOfValue (v : Value) : result Type_ :=
  match vType v with
  | Some t => Done t
  | None => Panicked
  end.

End reflect.

(** ** Package dag *)

(** [*Node]: the address of a node. *)
Abbreviation NodePtr := positive (only parsing).

Record Node : Type := {
  Fn : Value;
  Inputs : list Type_;
  Outputs : list Type_;
  ErrorIndices : list nat
}.

#[global] Instance Node_eq_dec : EqDecision Node.
Proof. solve_decision. Defined.

#[global] Instance Node_inhabited : Inhabited Node :=
  populate {| Fn := zeroValue; Inputs := []; Outputs := []; ErrorIndices := [] |}.

(** A [for ... range] loop whose body may return an error: the loop stops
    at the first one. *)
Fixpoint for_range {S X : Type} (body : X → S → error + S)
    (xs : list X) (s : S) : error + S :=
  match xs with
  | [] => inr s
  | x :: xs' =>
      match body x s with
      | inl e => inl e
      | inr s' => for_range body xs' s'
      end
  end.

(** The same loop around a body that recurses on fuel: [None] is a
    recursion that was cut. *)
Fixpoint for_range_fuel {S X : Type} (body : X → S → option (error + S))
    (xs : list X) (s : S) : option (error + S) :=
  match xs with
  | [] => Some (inr s)
  | x :: xs' =>
      match body x s with
      | None => None
      | Some (inl e) => Some (inl e)
      | Some (inr s') => for_range_fuel body xs' s'
      end
  end.

(** A loop whose body returns nothing. *)
Fixpoint range_fuel {S X : Type} (body : X → S → option S)
    (xs : list X) (s : S) : option S :=
  match xs with
  | [] => Some s
  | x :: xs' =>
      match body x s with
      | None => None
      | Some s' => range_fuel body xs' s'
      end
  end.

Section dag.
Context `{Runtime}.
(** The heap of nodes: [heap !!! n] is [*n]. *)
Variable heap : gmap NodePtr Node.

Definition typeString (t : Type_) : string := tString (rtypes t).

Definition nodeLabel (n : NodePtr) : string :=
  let pc := vPointer (Fn (heap !!! n)) in
  match FuncForPC pc with
  | None => "unknown"
  | Some f =>
      let name := FuncName f in
      if Contains name ".func"
      then FuncFile f +:+ ":" +:+ pretty (FuncLine f)
      else name
  end.

Definition duplicateProvider (out : Type_) (existing n : NodePtr) : error :=
  errorString ("duplicate provider for type " +:+ typeString out +:+ ": "
               +:+ nodeLabel existing +:+ " and " +:+ nodeLabel n).

Definition missingDependency (in_ : Type_) (n : NodePtr) : error :=
  errorString ("missing dependency for type " +:+ typeString in_ +:+ " in "
               +:+ nodeLabel n).

Definition cyclicDependence (cycleNodes : list NodePtr) : error :=
  errorString ("cyclic dependence: " +:+ Join (nodeLabel <$> cycleNodes) " -> ").

(** Step 1 of [Resolve]: map outputs to producers. *)
Definition addProducer (n : NodePtr) (out : Type_)
    (producers : gmap Type_ NodePtr) : error + gmap Type_ NodePtr :=
  match producers !! out with
  | Some existing => inl (duplicateProvider out existing n)
  | None => inr (<[out := n]> producers)
  end.

Definition mapProducers (nodes : list NodePtr) : error + gmap Type_ NodePtr :=
  for_range (fun n => for_range (addProducer n) (Outputs (heap !!! n))) nodes ∅.

(** [deps[n]], the nil slice when the key is absent. *)
Definition depsOf (deps : gmap NodePtr (list NodePtr)) (n : NodePtr) : list NodePtr :=
  default [] (deps !! n).

(** Step 2 of [Resolve]: build the dependency graph. *)
Definition addDependency (producers : gmap Type_ NodePtr) (n : NodePtr)
    (in_ : Type_) (deps : gmap NodePtr (list NodePtr))
    : error + gmap NodePtr (list NodePtr) :=
  match producers !! in_ with
  | Some prod => inr (<[n := (depsOf deps n ++ [prod])%list]> deps)
  | None => inl (missingDependency in_ n)
  end.

Definition buildDeps (producers : gmap Type_ NodePtr) (nodes : list NodePtr)
    : error + gmap NodePtr (list NodePtr) :=
  for_range (fun n => for_range (addDependency producers n) (Inputs (heap !!! n)))
    nodes ∅.

(** The variables captured by the closure [visit] of [checkCycles]. *)
Record cycleState : Type := {
  cVisited : gset NodePtr;
  cInStack : gmap NodePtr nat;
  cStack : list NodePtr
}.

(** The variables as [checkCycles] makes them. *)
Definition emptyCycleState : cycleState :=
  {| cVisited := ∅; cInStack := ∅; cStack := [] |}.

(** The closure [visit] of [checkCycles]; [fuel] bounds the depth of the
    recursion. *)
Fixpoint checkVisit (deps : gmap NodePtr (list NodePtr)) (fuel : nat)
    (n : NodePtr) (s : cycleState) : option (error + cycleState) :=
  match fuel with
  | O => None
  | S fuel' =>
      match cInStack s !! n with
      | Some idx => Some (inl (cyclicDependence (drop idx (cStack s) ++ [n])%list))
      | None =>
          if decide (n ∈ cVisited s) then Some (inr s)
          else
            let s1 := {| cVisited := cVisited s;
                         cInStack := <[n := length (cStack s)]> (cInStack s);
                         cStack := (cStack s ++ [n])%list |} in
            match for_range_fuel (checkVisit deps fuel') (depsOf deps n) s1 with
            | None => None
            | Some (inl e) => Some (inl e)
            | Some (inr s2) =>
                Some (inr {| cVisited := {[n]} ∪ cVisited s2;
                             cInStack := delete n (cInStack s2);
                             cStack := take (length (cStack s2) - 1) (cStack s2) |})
            end
      end
  end.

(** The outer loop of [checkCycles] and of [topologicalSort] skips the
    nodes that are visited already. *)
Definition checkRoot (deps : gmap NodePtr (list NodePtr)) (fuel : nat)
    (n : NodePtr) (s : cycleState) : option (error + cycleState) :=
  if decide (n ∈ cVisited s) then Some (inr s) else checkVisit deps fuel n s.

Definition checkCycles (fuel : nat) (nodes : list NodePtr)
    (deps : gmap NodePtr (list NodePtr)) : option (error + cycleState) :=
  for_range_fuel (checkRoot deps fuel) nodes emptyCycleState.

(** The variables captured by the closure [visit] of [topologicalSort]. *)
Record sortState : Type := {
  tVisited : gset NodePtr;
  tSorted : list NodePtr
}.

(** The variables as [topologicalSort] makes them. *)
Definition emptySortState : sortState :=
  {| tVisited := ∅; tSorted := [] |}.

(** The closure [visit] of [topologicalSort]: it returns nothing. *)
Fixpoint sortVisit (deps : gmap NodePtr (list NodePtr)) (fuel : nat)
    (n : NodePtr) (s : sortState) : option sortState :=
  match fuel with
  | O => None
  | S fuel' =>
      if decide (n ∈ tVisited s) then Some s
      else
        match range_fuel (sortVisit deps fuel') (depsOf deps n) s with
        | None => None
        | Some s1 =>
            Some {| tVisited := {[n]} ∪ tVisited s1;
                    tSorted := (tSorted s1 ++ [n])%list |}
        end
  end.

Definition sortRoot (deps : gmap NodePtr (list NodePtr)) (fuel : nat)
    (n : NodePtr) (s : sortState) : option sortState :=
  if decide (n ∈ tVisited s) then Some s else sortVisit deps fuel n s.

Definition topologicalSort (fuel : nat) (nodes : list NodePtr)
    (deps : gmap NodePtr (list NodePtr)) : option (error + list NodePtr) :=
  match checkCycles fuel nodes deps with
  | None => None
  | Some (inl err) => Some (inl err)
  | Some (inr _) =>
      match range_fuel (sortRoot deps fuel) nodes emptySortState with
      | None => None
      | Some s => Some (inr (tSorted s))
      end
  end.

Definition ResolveFuel (fuel : nat) (nodes : list NodePtr)
    : option (error + list NodePtr) :=
  match mapProducers nodes with
  | inl err => Some (inl err)
  | inr producers =>
      match buildDeps producers nodes with
      | inl err => Some (inl err)
      | inr deps => topologicalSort fuel nodes deps
      end
  end.

(** [Resolve]: the recursion is never deeper than the number of nodes
    (theorem [Resolve_returns]). *)
Definition Resolve (nodes : list NodePtr) : option (error + list NodePtr) :=
  ResolveFuel (S (length nodes)) nodes.

End dag.

(** ** Package bootstrap *)

(** A [context.Context]: the background, a caller's context, or a child
    with its own cancel function. *)
Inductive Ctx : Type :=
| Background
| Given (id : N)
| WithCancel (parent : Ctx).

#[global] Instance Ctx_eq_dec : EqDecision Ctx.
Proof. solve_decision. Defined.

(** The calls the container makes into code that is not its own, in the
    order in which it makes them. *)
Inductive event : Type :=
| CallFn (p : NodePtr) (args : list Value)   (* [p.Fn.Call(args)] *)
| CallCleanup (c : CleanupFn)                (* [b.cleanups[i]()] *)
| CallCancel (c : Ctx).                      (* [b.cancel()] *)

#[global] Instance event_eq_dec : EqDecision event.
Proof. solve_decision. Defined.

(** The code the container calls: constructors through [reflect.Value.Call]
    and cleanup methods, acting on a world of their own. *)
Class Program : Type := {
  World : Type;
  callFn : Value → list Value → World → list Value * World;
  callCleanup : CleanupFn → World → option error * World
}.

Record Bootstrap : Type := {
  providers : list NodePtr;
  values : gmap Type_ Value;
  cleanups : list CleanupFn;
  functions : gmap N bool;
  ctx : Ctx;
  cancel : Ctx;                (* the context that [b.cancel] cancels *)
  err : option error
}.

Section bootstrap.
Context `{Runtime} `{Program}.

(** The container [*b], the heap of the nodes, the world of the
    constructors, and the calls made so far. *)
Record State : Type := {
  boot : Bootstrap;
  heap : gmap NodePtr Node;
  world : World;
  trace : list event
}.

Definition setBoot (b : Bootstrap) (s : State) : State :=
  {| boot := b; heap := heap s; world := world s; trace := trace s |}.

Definition setErr (e : option error) (b : Bootstrap) : Bootstrap :=
  {| providers := providers b; values := values b; cleanups := cleanups b;
     functions := functions b; ctx := ctx b; cancel := cancel b; err := e |}.

Definition appendProvider (p : NodePtr) (b : Bootstrap) : Bootstrap :=
  {| providers := providers b ++ [p]; values := values b;
     cleanups := cleanups b; functions := functions b; ctx := ctx b;
     cancel := cancel b; err := err b |}.

Definition markFunction (ptr : N) (b : Bootstrap) : Bootstrap :=
  {| providers := providers b; values := values b; cleanups := cleanups b;
     functions := <[ptr := true]> (functions b); ctx := ctx b;
     cancel := cancel b; err := err b |}.

(** The loop over [typ.Out(i)] of [NewNode]. *)
Fixpoint analyzeOutputs (i : nat) (outs : list Type_) (n : Node) : Node :=
  match outs with
  | [] => n
  | outTyp :: outs' =>
      analyzeOutputs (S i) outs'
        (if tImplementsError (rtypes outTyp)
         then {| Fn := Fn n; Inputs := Inputs n; Outputs := Outputs n;
                 ErrorIndices := ErrorIndices n ++ [i] |}
         else {| Fn := Fn n; Inputs := Inputs n;
                 Outputs := Outputs n ++ [outTyp];
                 ErrorIndices := ErrorIndices n |})
  end.

(** [dag.NewNode]: the node is allocated at an address that is not in
    use. *)
Definition NewNode (fn : Value) (hp : gmap NodePtr Node)
    : result ((error + NodePtr) * gmap NodePtr Node) :=
  typ ← TypeOfValue fn;
  if decide (tKind (rtypes typ) ≠ Func)
  then Done (inl (errorString ("runner: argument must be a function, got "
                               +:+ tString (rtypes typ))), hp)
  else
    let n := {| Fn := fn; Inputs := tIn (rtypes typ); Outputs := [];
                ErrorIndices := [] |} in
    let n := analyzeOutputs 0 (tOut (rtypes typ)) n in
    let p := fresh (dom hp) in
    Done (inr p, <[p := n]> hp).

Definition hasInject (typ : Type_) : bool :=
  existsb (fun field => Anonymous field && bool_decide (FieldType field = InjectType))
    (tFields (rtypes typ)).

Fixpoint checkInjectInTypes (types : list Type_) (kindStr : string) : option error :=
  match types with
  | [] => None
  | t :: types' =>
      let checkType := if decide (tKind (rtypes t) = Ptr) then tElem (rtypes t) else t in
      if bool_decide (tKind (rtypes checkType) = Struct) && hasInject checkType
      then Some (errorString ("provider " +:+ kindStr +:+ " type "
                   +:+ tString (rtypes t)
                   +:+ " embeds bootstrap.Inject, which is prohibited"))
      else checkInjectInTypes types' kindStr
  end.

(** The tail shared by the three register functions: [dag.NewNode], then
    the append to [b.providers]. *)
Definition newProvider (fn : Value) (s : State) : result (option error * State) :=
  r ← NewNode fn (heap s);
  match r with
  | (inl e, hp) =>
      Done (Some e, {| boot := boot s; heap := hp; world := world s; trace := trace s |})
  | (inr p, hp) =>
      Done (None, {| boot := appendProvider p (boot s); heap := hp;
                     world := world s; trace := trace s |})
  end.

Definition registerProvider (fn : Value) (s : State) : result (option error * State) :=
  typ ← TypeOfValue fn;
  match checkInjectInTypes (tIn (rtypes typ)) "input" with
  | Some e => Done (Some e, s)
  | None =>
      match checkInjectInTypes (tOut (rtypes typ)) "output" with
      | Some e => Done (Some e, s)
      | None =>
          let ptr := vPointer fn in
          if default false (functions (boot s) !! ptr)
          then Done (None, s)
          else newProvider fn (setBoot (markFunction ptr (boot s)) s)
      end
  end.

(** [reflect.MakeFunc(fnType, ...)] around a closure that captures
    [target]. *)
Definition MakeFunc (fnType : Type_) (target : Value) : Value :=
  {| vType := Some fnType; vData := vData target; vPointer := makeFuncStub;
     vIsNil := false; vError := None; vCleanable := None |}.

Definition registerTargetPopulator (ptrVal : Value) (s : State)
    : result (option error * State) :=
  typ ← TypeOfValue ptrVal;
  let targetType := tElem (rtypes typ) in
  let fnType := FuncOf [targetType] in
  newProvider (MakeFunc fnType ptrVal) s.

(** The loop over the fields of [registerStructInjector]. *)
Fixpoint injectedFieldTypes (fields : list StructField) : list Type_ :=
  match fields with
  | [] => []
  | field :: fields' =>
      if bool_decide (PkgPath field ≠ "") then injectedFieldTypes fields'
      else if bool_decide (FieldType field = InjectType) then injectedFieldTypes fields'
      else FieldType field :: injectedFieldTypes fields'
  end.

Definition registerStructInjector (structPtrVal : Value) (s : State)
    : result (option error * State) :=
  typ ← TypeOfValue structPtrVal;
  let structType := tElem (rtypes typ) in
  let fieldTypes := injectedFieldTypes (tFields (rtypes structType)) in
  let fnType := FuncOf fieldTypes in
  newProvider (MakeFunc fnType structPtrVal) s.

Definition add (fn : Value) (s : State) : result (option error * State) :=
  typ ← TypeOfValue fn;
  if decide (tKind (rtypes typ) = Func) then registerProvider fn s
  else if decide (tKind (rtypes typ) = Ptr) then
    isNil ← IsNil fn;
    if (isNil : bool) then Done (Some (errorString "argument must not be nil"), s)
    else
      let elemType := tElem (rtypes typ) in
      if bool_decide (tKind (rtypes elemType) = Struct) && hasInject elemType
      then registerStructInjector fn s
      else registerTargetPopulator fn s
  else Done (Some (errorString "argument must be a function or pointer"), s).

(** The loop of [Add]. *)
Fixpoint addAll (constructors : list Value) (s : State) : result State :=
  match constructors with
  | [] => Done s
  | c :: constructors' =>
      r ← add c s;
      match r with
      | (Some e, s') => Done (setBoot (setErr (Some e) (boot s')) s')
      | (None, s') => addAll constructors' s'
      end
  end.

Definition Add (constructors : list Value) (s : State) : result State :=
  match err (boot s) with
  | Some _ => Done s
  | None => addAll constructors s
  end.

Definition New (hp : gmap NodePtr Node) (w : World) (tr : list event) : result State :=
  let c := WithCancel Background in
  let r := {| providers := []; values := ∅; cleanups := []; functions := ∅;
              ctx := c; cancel := c; err := None |} in
  Add [contextProvider] {| boot := r; heap := hp; world := w; trace := tr |}.

Definition WithContext (c : Ctx) (s : State) : State :=
  let b := boot s in
  setBoot {| providers := providers b; values := values b;
             cleanups := cleanups b; functions := functions b;
             ctx := WithCancel c; cancel := WithCancel c; err := err b |} s.

(** The first loop of [execute]: the arguments, from the cache. *)
Fixpoint gatherArgs (vals : gmap Type_ Value) (ins : list Type_) : error + list Value :=
  match ins with
  | [] => inr []
  | in_ :: ins' =>
      match vals !! in_ with
      | Some val =>
          match gatherArgs vals ins' with
          | inl e => inl e
          | inr args => inr (val :: args)
          end
      | None => inl (errorString ("internal error: missing value for type "
                                  +:+ tString (rtypes in_)))
      end
  end.

(** The second loop of [execute]: the error returns. *)
Fixpoint checkErrorReturns (errorIndices : list nat) (results : list Value)
    : result (option error) :=
  match errorIndices with
  | [] => Done None
  | idx :: errorIndices' =>
      match results !! idx with
      | None => Panicked
      | Some errVal =>
          isNil ← IsNil errVal;
          if (isNil : bool) then checkErrorReturns errorIndices' results
          else
            match vError errVal with
            | Some e => Done (Some e)
            | None => Panicked
            end
      end
  end.

(** The registration of a cleanup for a stored result. *)
Definition registerCleanup (res : Value) (cl : list CleanupFn) : result (list CleanupFn) :=
  if IsValid res then
    isNil ←
      match ValueKind res with
      | Chan | Func | Interface | Map | Ptr | Slice => IsNil res
      | _ => Done false
      end;
    if (isNil : bool) then Done cl
    else
      match vCleanable res with
      | Some cleanup => Done (cl ++ [cleanup])
      | None => Done cl
      end
  else Done cl.

(** The third loop of [execute]: the results, but the errors, go to the
    cache and to the cleanup list. *)
Fixpoint storeResults (p : Node) (i outputIdx : nat) (results : list Value)
    (b : Bootstrap) : result Bootstrap :=
  match results with
  | [] => Done b
  | res :: results' =>
      if bool_decide (i ∈ ErrorIndices p) then storeResults p (S i) outputIdx results' b
      else
        match Outputs p !! outputIdx with
        | Some outType =>
            cl ← registerCleanup res (cleanups b);
            storeResults p (S i) (S outputIdx) results'
              {| providers := providers b; values := <[outType := res]> (values b);
                 cleanups := cl; functions := functions b; ctx := ctx b;
                 cancel := cancel b; err := err b |}
        | None => storeResults p (S i) outputIdx results' b
        end
  end.

Definition execute (p : NodePtr) (s : State) : result (option error * State) :=
  let node := heap s !!! p in
  match gatherArgs (values (boot s)) (Inputs node) with
  | inl e => Done (Some e, s)
  | inr args =>
      let '(results, w) := callFn (Fn node) args (world s) in
      let s1 := {| boot := boot s; heap := heap s; world := w;
                   trace := trace s ++ [CallFn p args] |} in
      failed ← checkErrorReturns (ErrorIndices node) results;
      match failed with
      | Some e => Done (Some e, s1)
      | None =>
          b ← storeResults node 0 0 results (boot s1);
          Done (None, setBoot b s1)
      end
  end.

(** The loop of [Run]. *)
Fixpoint executeAll (sorted : list NodePtr) (s : State) : result (option error * State) :=
  match sorted with
  | [] => Done (None, s)
  | p :: sorted' =>
      r ← execute p s;
      match r with
      | (Some e, s') => Done (Some e, s')
      | (None, s') => executeAll sorted' s'
      end
  end.

Definition Run (s : State) : result (option error * State) :=
  match err (boot s) with
  | Some e => Done (Some e, s)
  | None =>
      match Resolve (heap s) (providers (boot s)) with
      | None => Diverged
      | Some (inl e) => Done (Some e, s)
      | Some (inr sorted) => executeAll sorted s
      end
  end.

(** The loop of [Cleanup], over the cleanups from the last to the first. *)
Fixpoint runCleanups (reversed : list CleanupFn) (errs : list error)
    (w : World) (tr : list event) : list error * World * list event :=
  match reversed with
  | [] => (errs, w, tr)
  | cleanup :: reversed' =>
      let '(e, w') := callCleanup cleanup w in
      runCleanups reversed'
        (match e with Some e => errs ++ [e] | None => errs end)
        w' (tr ++ [CallCleanup cleanup])
  end.

(** What [%v] prints for a slice of errors. *)
Definition formatErrors (errs : list error) : string :=
  "[" +:+ Join (Error <$> errs) " " +:+ "]".

Definition Cleanup (s : State) : option error * State :=
  let tr := trace s ++ [CallCancel (cancel (boot s))] in
  let '(errs, w, tr') := runCleanups (reverse (cleanups (boot s))) [] (world s) tr in
  let s' := {| boot := boot s; heap := heap s; world := w; trace := tr' |} in
  if decide (0 < length errs)
  then (Some (errorString ("cleanup errors: " +:+ formatErrors errs)), s')
  else (None, s').

End bootstrap.

(** ** The vocabulary of the statements *)

Section vocabulary.
Context `{Runtime}.
Variable heap : gmap NodePtr Node.

(** The output keys, each with the node that declares it, in the order in
    which step 1 of [Resolve] reads them. *)
Definition declaredOutputs (nodes : list NodePtr) : list (Type_ * NodePtr) :=
  nodes ≫= (fun n => (fun out => (out, n)) <$> Outputs (heap !!! n)).

(** The input keys, each with the node that declares it, in the order in
    which step 2 of [Resolve] reads them. *)
Definition declaredInputs (nodes : list NodePtr) : list (NodePtr * Type_) :=
  nodes ≫= (fun n => (fun in_ => (n, in_)) <$> Inputs (heap !!! n)).

(** Node [a] depends on node [b]: some input key of [a] is an output key of
    [b]. *)
Definition dependsOn (nodes : list NodePtr) (a b : NodePtr) : Prop :=
  a ∈ nodes ∧ b ∈ nodes ∧
  ∃ k, k ∈ Inputs (heap !!! a) ∧ k ∈ Outputs (heap !!! b).

(** Some node of the list declares [k] as an output. *)
Definition produced (nodes : list NodePtr) (k : Type_) : Prop :=
  k ∈ (declaredOutputs nodes).*1.

(** No output key is declared twice, by two nodes or by one. *)
Definition uniqueProducers (nodes : list NodePtr) : Prop :=
  NoDup (declaredOutputs nodes).*1.

(** Every input key that is declared has a producer. *)
Definition allResolved (nodes : list NodePtr) : Prop :=
  Forall (fun p => produced nodes p.2) (declaredInputs nodes).

#[global] Instance produced_dec nodes k : Decision (produced nodes k).
Proof. unfold produced. apply _. Defined.

#[global] Instance uniqueProducers_dec nodes : Decision (uniqueProducers nodes).
Proof. unfold uniqueProducers. apply _. Defined.

#[global] Instance allResolved_dec nodes : Decision (allResolved nodes).
Proof. unfold allResolved. apply _. Defined.

(** The edges of a dependency mapping. *)
Definition edge (deps : gmap NodePtr (list NodePtr)) (a b : NodePtr) : Prop :=
  b ∈ depsOf deps a.

(** Each element of the list is related to the next one. *)
Definition chain (R : relation NodePtr) (l : list NodePtr) : Prop :=
  ∀ i a b, l !! i = Some a → l !! (S i) = Some b → R a b.

(** In [sorted], every node comes strictly after the nodes [R] relates it
    to. *)
Definition ordered (R : relation NodePtr) (sorted : list NodePtr) : Prop :=
  ∀ i a b, sorted !! i = Some a → R a b → ∃ j, j < i ∧ sorted !! j = Some b.

(** What a call of the closure of [checkCycles] that returns no error does
    to the captured variables: the path is as it was, the visited nodes
    are kept, and a node it marks was not on the path. *)
Definition keepsPath (s s' : cycleState) : Prop :=
  cInStack s' = cInStack s ∧ cStack s' = cStack s ∧
  cVisited s ⊆ cVisited s' ∧
  (∀ x, x ∈ cVisited s' → x ∉ cVisited s → cInStack s !! x = None).

#[global] Instance keepsPath_preorder : PreOrder keepsPath.
Proof.
  split.
  - intros s. by repeat split.
  - intros s1 s2 s3 (HI1 & HS1 & HV1 & HN1) (HI2 & HS2 & HV2 & HN2).
    split_and!; [congruence|congruence|set_solver|].
    intros x Hx3 Hx1. destruct (decide (x ∈ cVisited s2)) as [Hx2|Hx2]; [by apply HN1|].
    rewrite <-HI1. by apply HN2.
Qed.

(** [inStack] gives the index of a node in [stack]. *)
Definition indexed (s : cycleState) : Prop :=
  ∀ x i, cInStack s !! x = Some i → cStack s !! i = Some x.

(** The captured variables of the second pass when the first pass has
    [u]: the same nodes are visited, those are the nodes of [sorted], none
    twice, and each after the nodes it has an edge to. *)
Definition inStep (deps : gmap NodePtr (list NodePtr)) (u : cycleState)
    (t : sortState) : Prop :=
  tVisited t = cVisited u ∧
  (∀ x, x ∈ tVisited t ↔ x ∈ tSorted t) ∧
  NoDup (tSorted t) ∧
  ordered (edge deps) (tSorted t).

(** The same nodes at other addresses: what becomes of the heap, of the
    mappings and of the captured variables when every address [n] is
    [σ n]. *)
Definition relabelHeap (σ : NodePtr → NodePtr) (hp : gmap NodePtr Node)
    : gmap NodePtr Node :=
  kmap (M2 := gmap NodePtr) σ hp.

Definition relabelDeps (σ : NodePtr → NodePtr) (deps : gmap NodePtr (list NodePtr))
    : gmap NodePtr (list NodePtr) :=
  kmap (M2 := gmap NodePtr) σ (fmap σ <$> deps).

Definition relabelCycleState (σ : NodePtr → NodePtr) (s : cycleState) : cycleState :=
  {| cVisited := set_map σ (cVisited s);
     cInStack := kmap (M2 := gmap NodePtr) σ (cInStack s);
     cStack := σ <$> cStack s |}.

Definition relabelSortState (σ : NodePtr → NodePtr) (t : sortState) : sortState :=
  {| tVisited := set_map σ (tVisited t); tSorted := σ <$> tSorted t |}.

Definition relabelResult (σ : NodePtr → NodePtr) (r : option (error + list NodePtr))
    : option (error + list NodePtr) :=
  sum_map id (fmap (M := list) σ) <$> r.

End vocabulary.

Section vocabulary_bootstrap.
Context `{Runtime} `{Program}.

(** The nodes whose constructor was called, in the order of the calls. *)
Definition calledNodes (tr : list event) : list NodePtr :=
  omap (fun ev => match ev with CallFn p _ => Some p | _ => None end) tr.

(** The cleanups that were called, in the order of the calls. *)
Definition calledCleanups (tr : list event) : list CleanupFn :=
  omap (fun ev => match ev with CallCleanup c => Some c | _ => None end) tr.

(** What the cleanups of a list return when they are called one after the
    other, from the first, and the world they leave. *)
Fixpoint cleanupReturns (cs : list CleanupFn) (w : World) : list (option error) * World :=
  match cs with
  | [] => ([], w)
  | c :: cs' =>
      let '(r, w') := callCleanup c w in
      let '(rs, w'') := cleanupReturns cs' w' in
      (r :: rs, w'')
  end.

(** The failures among the returns. *)
Definition failures (returns : list (option error)) : list error :=
  omap id returns.

(** [sub] occurs in [s]. *)
Definition mentions (s sub : string) : Prop :=
  ∃ pre post, s = pre +:+ sub +:+ post.

(** The nodes that are registered are allocated, and none is registered
    twice. *)
Definition wellFormed (s : State) : Prop :=
  NoDup (providers (boot s)) ∧
  ∀ p, p ∈ providers (boot s) → is_Some (heap s !! p).

(** The number of occurrences of a node in a list. *)
Definition occurrences (p : NodePtr) (l : list NodePtr) : nat :=
  length (filter (fun q => q = p) l).

End vocabulary_bootstrap.

(** ** Sample programs *)

Module sample.

Definition descriptor (k : Kind) (name : string) (ins outs : list Type_)
    (implementsError : bool) : rtype :=
  {| tKind := k; tString := name; tElem := 6%positive; tFields := [];
     tIn := ins; tOut := outs; tImplementsError := implementsError |}.

Definition function (typ : Type_) (pc : N) : Value :=
  {| vType := Some typ; vData := pc; vPointer := pc; vIsNil := false;
     vError := None; vCleanable := None |}.

(** The types of the sample programs:
    1 [*Config], 2 [error], 3 [MyErr] (a struct with a method [Error] on
    the value), 4 [*Service], 5 [context.Context], 6 [string],
    20 [**Config], 21 [*NeedInject], 22 [NeedInject] (a struct that embeds
    [Inject], with an exported field [Cfg *Config] and a field that is not
    exported), 99 [Inject], and the types of the constructors. *)
Definition runtime : Runtime := {|
  rtypes := fun t =>
    match t with
    | 1 => descriptor Ptr "*Config" [] [] false
    | 2 => descriptor Interface "error" [] [] true
    | 3 => descriptor Struct "MyErr" [] [] true
    | 4 => descriptor Ptr "*Service" [] [] false
    | 5 => descriptor Interface "context.Context" [] [] false
    | 10 => descriptor Func "func() *Config" [] [1] false
    | 11 => descriptor Func "func(*Config) (*Service, error)" [1] [4; 2] false
    | 12 => descriptor Func "func() MyErr" [] [3] false
    | 13 => descriptor Func "func() context.Context" [] [5] false
    | 14 => descriptor Func "func() (*Config, *Config)" [] [1; 1] false
    | 15 => descriptor Func "func(*Config) *Service" [1] [4] false
    | 16 => descriptor Func "func() *NeedInject" [] [21] false
    | 20 => {| tKind := Ptr; tString := "**Config"; tElem := 1; tFields := [];
               tIn := []; tOut := []; tImplementsError := false |}
    | 21 => {| tKind := Ptr; tString := "*NeedInject"; tElem := 22; tFields := [];
               tIn := []; tOut := []; tImplementsError := false |}
    | 22 => {| tKind := Struct; tString := "NeedInject"; tElem := 6;
               tFields :=
                 [{| FieldName := "Inject"; PkgPath := ""; FieldType := 99;
                     Anonymous := true |};
                  {| FieldName := "Cfg"; PkgPath := ""; FieldType := 1;
                     Anonymous := false |};
                  {| FieldName := "hidden"; PkgPath := "main"; FieldType := 6;
                     Anonymous := false |}];
               tIn := []; tOut := []; tImplementsError := false |}
    | 30 => descriptor Func "func(*Config)" [1] [] false
    | 98 => descriptor Func "func()" [] [] false
    | 99 => descriptor Struct "Inject" [] [] false
    | _ => descriptor String_ "string" [] [] false
    end%positive;
  FuncForPC := fun pc =>
    if decide (pc = 100%N)
    then Some {| FuncName := "bootstrap.New.func1"; FuncFile := "bootstrap.go";
                 FuncLine := 37 |}
    else if decide (pc = 7%N)
    then Some {| FuncName := "reflect.makeFuncStub"; FuncFile := "asm.s";
                 FuncLine := 1 |}
    else Some {| FuncName := "main.provider" +:+ pretty pc;
                 FuncFile := "main.go"; FuncLine := N.to_nat pc |};
  InjectType := 99%positive;
  FuncOf := fun ins => if decide (ins = [1%positive]) then 30%positive else 98%positive;
  makeFuncStub := 7%N;
  contextProvider := function 13 100
|}.

(** The constructors of the sample programs, each at its code pointer:
    1 returns a [*Config] that has a cleanup, 2 returns a nil [*Service]
    and the error "boom", 3 returns a [MyErr], 4 returns a [*Service] that
    has a cleanup, 100 returns the context; the others return nothing.
    The cleanup of the [*Config] fails. *)
Definition program : Program := {|
  World := nat;
  callFn := fun fn args w =>
    (match vPointer fn with
     | 100 => [{| vType := Some 5%positive; vData := 1; vPointer := 1;
                  vIsNil := false; vError := None; vCleanable := None |}]
     | 1 => [{| vType := Some 1%positive; vData := 500; vPointer := 500;
                vIsNil := false; vError := None; vCleanable := Some 77%N |}]
     | 2 => [{| vType := Some 4%positive; vData := 0; vPointer := 0;
                vIsNil := true; vError := None; vCleanable := None |};
             {| vType := Some 2%positive; vData := 600; vPointer := 600;
                vIsNil := false; vError := Some (errorString "boom");
                vCleanable := None |}]
     | 3 => [{| vType := Some 3%positive; vData := 0; vPointer := 0;
                vIsNil := false; vError := Some (errorString "struct error");
                vCleanable := None |}]
     | 4 => [{| vType := Some 4%positive; vData := 700; vPointer := 700;
                vIsNil := false; vError := None; vCleanable := Some 78%N |}]
     | _ => []
     end%N, S w);
  callCleanup := fun c w =>
    (if decide (c = 77%N) then Some (errorString "close failed") else None, S w)
|}.

(** A pointer to a variable or to a struct, as it is given to [Add]. *)
Definition pointer (typ : Type_) (address : N) : Value :=
  {| vType := Some typ; vData := address; vPointer := address;
     vIsNil := bool_decide (address = 0%N); vError := None; vCleanable := None |}.

Definition node (pc : N) (ins outs : list Type_) : Node :=
  {| Fn := function 6 pc; Inputs := ins; Outputs := outs; ErrorIndices := [] |}.

(** Node 1 needs key 2 and gives key 1; node 2 gives key 2; node 3 needs
    keys 1 and 2 and gives key 3. *)
Definition chainHeap : gmap NodePtr Node :=
  list_to_map [(1, node 1 [2] [1]); (2, node 2 [] [2]); (3, node 3 [1; 2] [3])]%positive.

(** Node 1 gives key 7 twice. *)
Definition twiceHeap : gmap NodePtr Node :=
  list_to_map [(1, node 1 [] [7; 7])]%positive.

(** Node 1 needs and gives key 7; node 2 needs key 8, that no node
    gives. *)
Definition loopHeap : gmap NodePtr Node :=
  list_to_map [(1, node 1 [7] [7]); (2, node 2 [8] [])]%positive.

(** Nodes 1 and 2 both give key 7; node 3 needs key 8, that no node
    gives. *)
Definition clashHeap : gmap NodePtr Node :=
  list_to_map [(1, node 1 [] [7]); (2, node 2 [] [7]); (3, node 3 [8] [])]%positive.

(** Node 1 needs key 2 and gives key 1; node 2 needs key 1 and gives
    key 2. *)
Definition cycleHeap : gmap NodePtr Node :=
  list_to_map [(1, node 1 [2] [1]); (2, node 2 [1] [2])]%positive.

(** A container that holds the nodes of [nodes], and has run nothing. *)
Definition state (hp : gmap NodePtr Node) (nodes : list NodePtr) : @State program :=
  {| boot := {| providers := nodes; values := ∅; cleanups := []; functions := ∅;
                ctx := WithCancel Background; cancel := WithCancel Background;
                err := None |};
     heap := hp; world := (0%nat : @World program); trace := [] |}.

(** Node 1 is the constructor at code pointer 1, node 2 the one at code
    pointer 2, which needs the [*Config] and whose second return is an
    [error]. *)
Definition failingHeap : gmap NodePtr Node :=
  list_to_map
    [(1, {| Fn := function 10 1; Inputs := []; Outputs := [1]; ErrorIndices := [] |});
     (2, {| Fn := function 11 2; Inputs := [1]; Outputs := [4]; ErrorIndices := [1%nat] |})]%positive.

(** The [*Config] that the constructor at code pointer 1 returns. *)
Definition configValue : Value :=
  {| vType := Some 1%positive; vData := 500; vPointer := 500; vIsNil := false;
     vError := None; vCleanable := Some 77%N |}.

(** The container of the nodes of [failingHeap], when node 1 is
    executed. *)
Definition configured : @State program :=
  {| boot := {| providers := [1; 2]%positive;
                values := {[1%positive := configValue]};
                cleanups := [77%N]; functions := ∅;
                ctx := WithCancel Background; cancel := WithCancel Background;
                err := None |};
     heap := failingHeap; world := (1%nat : @World program);
     trace := [CallFn 1 []] |}.

(** A container made by [New] in an empty heap, to which [constructors]
    are added. *)
Definition container (constructors : list Value) : result (@State program) :=
  s ← @New runtime program ∅ 0 [];
  @Add runtime program constructors s.

(** The outcome of [Run] on a container of [constructors], then of
    [Cleanup]: the error of [Run], the nodes called, the error of
    [Cleanup], the cleanups called. *)
Definition outcome (constructors : list Value)
    : result (option error * list NodePtr * option error * list CleanupFn) :=
  s ← container constructors;
  r ← @Run runtime program s;
  let c := Cleanup r.2 in
  mret (r.1, calledNodes (trace r.2), c.1,
        calledCleanups (drop (length (trace r.2)) (trace c.2))).

End sample.

(** ** The vocabulary of the further properties *)

Section vocabulary_execution.
Context `{Runtime} `{Program}.

(** The indices of the types of [outs] that implement [error], counted
    from [i]. *)
Fixpoint errorSlots (i : nat) (outs : list Type_) : list nat :=
  match outs with
  | [] => []
  | outTyp :: outs' =>
      if tImplementsError (rtypes outTyp)
      then i :: errorSlots (S i) outs'
      else errorSlots (S i) outs'
  end.

(** The types of [outs] that do not implement [error]. *)
Definition valueSlots (outs : list Type_) : list Type_ :=
  filter (fun outTyp => tImplementsError (rtypes outTyp) = false) outs.

(** The results whose index, counted from [i], is not an error index. *)
Fixpoint nonErrorResults (errorIndices : list nat) (i : nat) (results : list Value)
    : list Value :=
  match results with
  | [] => []
  | res :: results' =>
      if bool_decide (i ∈ errorIndices)
      then nonErrorResults errorIndices (S i) results'
      else res :: nonErrorResults errorIndices (S i) results'
  end.

(** The output keys of a node, each with the result that is stored for
    it. *)
Definition storedPairs (node : Node) (results : list Value) : list (Type_ * Value) :=
  zip (Outputs node) (nonErrorResults (ErrorIndices node) 0 results).

(** The cache when the pairs are written to it, from the first. *)
Definition storeAll (pairs : list (Type_ * Value)) (vals : gmap Type_ Value)
    : gmap Type_ Value :=
  foldl (fun m p => <[p.1 := p.2]> m) vals pairs.

(** The cleanup that a stored result brings: that of a valid result that
    is not nil and is a [Cleanable]. *)
Definition cleanupOf (res : Value) : option CleanupFn :=
  if IsValid res then
    if match ValueKind res with
       | Chan | Func | Interface | Map | Ptr | Slice => vIsNil res
       | _ => false
       end
    then None
    else vCleanable res
  else None.

(** The container when the pairs are stored: the cache holds them, and
    the cleanups of their values are registered, in their order. *)
Definition stored (pairs : list (Type_ * Value)) (b : Bootstrap) : Bootstrap :=
  {| providers := providers b; values := storeAll pairs (values b);
     cleanups := cleanups b ++ omap cleanupOf pairs.*2;
     functions := functions b; ctx := ctx b; cancel := cancel b; err := err b |}.



(** [s'] is [s] after some execution: the registrations and the heap are
    the same, the cleanups and the trace are longer, the cache holds the
    keys it held. *)
Definition extends (s s' : State) : Prop :=
  heap s' = heap s ∧
  providers (boot s') = providers (boot s) ∧
  functions (boot s') = functions (boot s) ∧
  ctx (boot s') = ctx (boot s) ∧
  cancel (boot s') = cancel (boot s) ∧
  err (boot s') = err (boot s) ∧
  cleanups (boot s) `prefix_of` cleanups (boot s') ∧
  dom (values (boot s)) ⊆ dom (values (boot s')) ∧
  trace s `prefix_of` trace s'.

(** Every constructor of the container returns at least as many results
    that are not errors as its node has output keys. *)
Definition returnsEnough (s : State) : Prop :=
  ∀ p args w, p ∈ providers (boot s) →
    length (Outputs (heap s !!! p)) ≤
    length (nonErrorResults (ErrorIndices (heap s !!! p)) 0
              (callFn (Fn (heap s !!! p)) args w).1).

(** The type, or the type it points to, is a struct that embeds
    [Inject]. *)
Definition embedsInject (t : Type_) : bool :=
  let checkType := if decide (tKind (rtypes t) = Ptr) then tElem (rtypes t) else t in
  bool_decide (tKind (rtypes checkType) = Struct) && hasInject checkType.

(** The node of a function of type [typ]: the parameter types, the result
    types that do not implement [error], and the indices of those that
    do. *)
Definition nodeOf (fn : Value) (typ : Type_) : Node :=
  {| Fn := fn; Inputs := tIn (rtypes typ);
     Outputs := valueSlots (tOut (rtypes typ));
     ErrorIndices := errorSlots 0 (tOut (rtypes typ)) |}.

(** The error of [checkInjectInTypes] for the type [t]. *)
Definition prohibitedType (kindStr : string) (t : Type_) : error :=
  errorString ("provider " +:+ kindStr +:+ " type " +:+ tString (rtypes t)
               +:+ " embeds bootstrap.Inject, which is prohibited").

(** The types of the fields that are exported and are not [Inject]. *)
Definition exportedFieldTypes (fields : list StructField) : list Type_ :=
  FieldType <$>
    filter (fun field => PkgPath field = "" ∧ FieldType field ≠ InjectType) fields.

(** The inputs of the function that [Add] makes for a pointer: the types
    of the fields to fill when it points to a struct that embeds [Inject],
    and else the type it points to. *)
Definition targetInputs (typ : Type_) : list Type_ :=
  let elemType := tElem (rtypes typ) in
  if bool_decide (tKind (rtypes elemType) = Struct) && hasInject elemType
  then exportedFieldTypes (tFields (rtypes elemType))
  else [elemType].

(** The container when a node is allocated, for a function, at a fresh
    address and appended to the providers. *)
Definition registered (fn : Value) (typ : Type_) (s : State) : State :=
  {| boot := appendProvider (fresh (dom (heap s))) (boot s);
     heap := <[fresh (dom (heap s)) := nodeOf fn typ]> (heap s);
     world := world s; trace := trace s |}.

(** The code pointer of the function of a node. *)
Definition codePointer (hp : gmap NodePtr Node) (p : NodePtr) : N :=
  vPointer (Fn (hp !!! p)).

(** The registry of the functions: the nodes are allocated and distinct,
    the code pointer of a node that is not made by [reflect.MakeFunc] is
    marked in [functions], and no two such nodes have the same code
    pointer. *)
Definition registry (s : State) : Prop :=
  wellFormed s ∧
  (∀ p, p ∈ providers (boot s) → codePointer (heap s) p ≠ makeFuncStub →
     functions (boot s) !! codePointer (heap s) p = Some true) ∧
  (∀ i j p q, providers (boot s) !! i = Some p → providers (boot s) !! j = Some q →
     codePointer (heap s) p = codePointer (heap s) q →
     codePointer (heap s) p ≠ makeFuncStub → i = j).

(** What a registration keeps: the nodes that were registered are the
    first of the list, and they are as they were. *)
Definition grows (s s' : State) : Prop :=
  providers (boot s) `prefix_of` providers (boot s') ∧
  ∀ p, p ∈ providers (boot s) → heap s' !!! p = heap s !!! p.

(** What a registration leaves as it was. *)
Definition sameRun (s s' : State) : Prop :=
  world s' = world s ∧ trace s' = trace s ∧
  values (boot s') = values (boot s) ∧ cleanups (boot s') = cleanups (boot s) ∧
  ctx (boot s') = ctx (boot s) ∧ cancel (boot s') = cancel (boot s).



End vocabulary_execution.

(** * Theorems *)

(** ** Loops *)

Section loops.
Context {S X : Type}.

Lemma for_range_app (body : X → S → error + S) xs ys s :
  for_range body (xs ++ ys) s =
  match for_range body xs s with
  | inl e => inl e
  | inr s' => for_range body ys s'
  end.
Proof.
  revert s. induction xs as [|x xs IH]; intros s; simpl; [done|].
  destruct (body x s); [done|]. apply IH.
Qed.

(** A relation that every successful turn of the body respects is respected
    by the whole loop. *)
Lemma for_range_fuel_rel (R : relation S) `{!PreOrder R}
    (body : X → S → option (error + S)) xs :
  (∀ x s s', x ∈ xs → body x s = Some (inr s') → R s s') →
  ∀ s s', for_range_fuel body xs s = Some (inr s') → R s s'.
Proof.
  induction xs as [|x xs IH]; intros Hbody s s' Hloop; simpl in Hloop.
  - by simplify_eq.
  - destruct (body x s) as [[e|s1]|] eqn:Hx; try done.
    trans s1.
    + eapply Hbody; [left|done].
    + eapply IH; [|done]. intros y t t' Hy. apply Hbody. by right.
Qed.

(** What a turn establishes for its element, and later turns keep, holds
    for every element when the loop ends. *)
Lemma for_range_fuel_all (R : relation S) (P : X → S → Prop)
    (body : X → S → option (error + S)) xs :
  (∀ x s s', x ∈ xs → body x s = Some (inr s') → R s s' ∧ P x s') →
  (∀ x s s', R s s' → P x s → P x s') →
  ∀ s s', for_range_fuel body xs s = Some (inr s') → ∀ x, x ∈ xs → P x s'.
Proof.
  intros Hbody Hmono.
  assert (Hrel : ∀ ys, ys ⊆ xs → ∀ s s',
             for_range_fuel body ys s = Some (inr s') → rtc R s s').
  { induction ys as [|y ys IH]; intros Hsub s s' Hloop; simpl in Hloop.
    - simplify_eq. done.
    - destruct (body y s) as [[e|s1]|] eqn:Hy; try done.
      eapply rtc_l.
      + eapply Hbody; [|done]. apply Hsub. left.
      + apply IH; [|done]. intros z Hz. apply Hsub. by right. }
  assert (Hmono' : ∀ x s s', rtc R s s' → P x s → P x s').
  { intros x s s' Hrtc. induction Hrtc; eauto. }
  assert (Hall : ∀ ys, ys ⊆ xs → ∀ s s',
             for_range_fuel body ys s = Some (inr s') → ∀ x, x ∈ ys → P x s').
  { induction ys as [|y ys IH]; intros Hsub s s' Hloop x Hin; simpl in Hloop.
    - by apply elem_of_nil in Hin.
    - destruct (body y s) as [[e|s1]|] eqn:Hy; try done.
      apply elem_of_cons in Hin as [->|Hin].
      + eapply Hmono'.
        * eapply Hrel; [|done]. intros z Hz. apply Hsub. by right.
        * eapply Hbody; [|done]. apply Hsub. left.
      + eapply IH; [|done|done]. intros z Hz. apply Hsub. by right. }
  intros s s' Hloop. by eapply Hall.
Qed.

(** More fuel does not change a result. *)
Lemma for_range_fuel_mono (body body' : X → S → option (error + S)) xs :
  (∀ x s r, body x s = Some r → body' x s = Some r) →
  ∀ s r, for_range_fuel body xs s = Some r → for_range_fuel body' xs s = Some r.
Proof.
  intros Hbody. induction xs as [|x xs IH]; intros s r Hloop; simpl in *; [done|].
  destruct (body x s) as [[e|s1]|] eqn:Hx; try done.
  - by rewrite (Hbody _ _ _ Hx).
  - rewrite (Hbody _ _ _ Hx). by apply IH.
Qed.

Lemma range_fuel_mono (body body' : X → S → option S) xs :
  (∀ x s r, body x s = Some r → body' x s = Some r) →
  ∀ s r, range_fuel body xs s = Some r → range_fuel body' xs s = Some r.
Proof.
  intros Hbody. induction xs as [|x xs IH]; intros s r Hloop; simpl in *; [done|].
  destruct (body x s) as [s1|] eqn:Hx; try done.
  rewrite (Hbody _ _ _ Hx). by apply IH.
Qed.

End loops.

(** ** Step 1 of Resolve: the producers *)

Section producers.
Context `{Runtime}.
Variable heap : gmap NodePtr Node.

Lemma for_range_fmap {S X Y : Type} (f : X → Y) (body : Y → S → error + S) xs s :
  for_range body (f <$> xs) s = for_range (fun x => body (f x)) xs s.
Proof.
  revert s. induction xs as [|x xs IH]; intros s; simpl; [done|].
  destruct (body (f x) s); [done|]. apply IH.
Qed.

Lemma mapProducers_flat nodes :
  mapProducers heap nodes =
  for_range (fun p => addProducer heap p.2 p.1) (declaredOutputs heap nodes) ∅.
Proof.
  unfold mapProducers, declaredOutputs.
  generalize (∅ : gmap positive positive).
  induction nodes as [|n nodes IH]; intros P; [done|].
  rewrite bind_cons, for_range_app, for_range_fmap. simpl.
  change (fun x : positive => addProducer heap n x) with (addProducer heap n).
  destruct (for_range (addProducer heap n) (Outputs (heap !!! n)) P); [done|]. apply IH.
Qed.

Lemma insertProducers_ok pairs : ∀ P P',
  for_range (fun p => addProducer heap p.2 p.1) pairs P = inr P' →
  NoDup pairs.*1 ∧ (∀ k, k ∈ pairs.*1 → P !! k = None) ∧
  (∀ k n, P' !! k = Some n ↔ P !! k = Some n ∨ (k, n) ∈ pairs).
Proof.
  induction pairs as [|[out n] pairs IH]; intros P P' Hloop; simpl in Hloop.
  - simplify_eq. split_and!; [constructor|set_solver|set_solver].
  - unfold addProducer in Hloop at 1. simpl in Hloop.
    destruct (P !! out) as [existing|] eqn:Hout; [done|].
    apply IH in Hloop as (Hnd & Hfresh & Hlook).
    split_and!.
    + rewrite fmap_cons. constructor; [|done]. simpl.
      intros Hin. apply Hfresh in Hin. by rewrite lookup_insert_eq in Hin.
    + intros k Hk. rewrite fmap_cons in Hk. apply elem_of_cons in Hk as [->|Hk]; [done|].
      apply Hfresh in Hk. rewrite lookup_insert in Hk. by case_decide.
    + intros k m. rewrite Hlook, lookup_insert, elem_of_cons.
      case_decide; subst.
      * split; [intros [?|?]; simplify_eq; eauto|].
        intros [?|[?|Hin]]; simplify_eq; eauto.
      * split; [intros [?|?]; eauto|]. intros [?|[?|?]]; simplify_eq; eauto.
Qed.

Lemma insertProducers_fail pairs : ∀ P e,
  for_range (fun p => addProducer heap p.2 p.1) pairs P = inl e →
  ∃ pre out n post existing P1,
    pairs = pre ++ (out, n) :: post ∧
    for_range (fun p => addProducer heap p.2 p.1) pre P = inr P1 ∧
    P1 !! out = Some existing ∧
    e = duplicateProvider heap out existing n.
Proof.
  induction pairs as [|[out n] pairs IH]; intros P e Hloop; simpl in Hloop; [done|].
  unfold addProducer in Hloop at 1. simpl in Hloop.
  destruct (P !! out) as [existing|] eqn:Hout.
  - simplify_eq. by exists [], out, n, pairs, existing, P.
  - apply IH in Hloop as (pre & out' & n' & post & existing & P1 & -> & Hpre & Hex & ->).
    exists ((out, n) :: pre), out', n', post, existing, P1.
    split_and!; try done. simpl. unfold addProducer at 1. simpl. by rewrite Hout.
Qed.

Lemma insertProducers_total pairs : ∀ P,
  NoDup pairs.*1 → (∀ k, k ∈ pairs.*1 → P !! k = None) →
  ∃ P', for_range (fun p => addProducer heap p.2 p.1) pairs P = inr P'.
Proof.
  induction pairs as [|[out n] pairs IH]; intros P Hnd Hfresh; simpl; [eauto|].
  rewrite fmap_cons in Hnd. apply NoDup_cons in Hnd as [Hout Hnd]. simpl in Hout.
  unfold addProducer at 1. simpl. rewrite Hfresh by (rewrite fmap_cons; left).
  apply IH; [done|]. intros k Hk. rewrite lookup_insert. case_decide; [by subst|].
  apply Hfresh. rewrite fmap_cons. by right.
Qed.

(** Step 1 succeeds exactly when no output key is declared twice. *)
Lemma mapProducers_succeeds nodes :
  (∃ P, mapProducers heap nodes = inr P) ↔ NoDup (declaredOutputs heap nodes).*1.
Proof.
  rewrite mapProducers_flat. split.
  - intros [P HP]. by apply insertProducers_ok in HP as (? & _).
  - intros Hnd. by apply insertProducers_total.
Qed.

(** The producers, once mapped: a key has the node that declares it. *)
Lemma mapProducers_lookup nodes P k n :
  mapProducers heap nodes = inr P →
  P !! k = Some n ↔ (k, n) ∈ declaredOutputs heap nodes.
Proof.
  rewrite mapProducers_flat. intros HP.
  apply insertProducers_ok in HP as (_ & _ & Hlook).
  rewrite Hlook, lookup_empty. naive_solver.
Qed.

Lemma elem_of_declaredOutputs nodes k n :
  (k, n) ∈ declaredOutputs heap nodes ↔ n ∈ nodes ∧ k ∈ Outputs (heap !!! n).
Proof.
  unfold declaredOutputs. rewrite list_elem_of_bind. split.
  - intros (m & Hin & Hm). apply list_elem_of_fmap in Hin as (out & ? & Hout).
    by simplify_eq.
  - intros [Hn Hk]. exists n. split; [|done]. apply list_elem_of_fmap. eauto.
Qed.

Lemma elem_of_declaredInputs nodes k n :
  (n, k) ∈ declaredInputs heap nodes ↔ n ∈ nodes ∧ k ∈ Inputs (heap !!! n).
Proof.
  unfold declaredInputs. rewrite list_elem_of_bind. split.
  - intros (m & Hin & Hm). apply list_elem_of_fmap in Hin as (out & ? & Hout).
    by simplify_eq.
  - intros [Hn Hk]. exists n. split; [|done]. apply list_elem_of_fmap. eauto.
Qed.

(** With no key declared twice, a key has at most one producer. *)
Lemma declaredOutputs_functional nodes k a b :
  NoDup (declaredOutputs heap nodes).*1 →
  (k, a) ∈ declaredOutputs heap nodes → (k, b) ∈ declaredOutputs heap nodes → a = b.
Proof.
  intros Hnd Ha Hb.
  apply list_elem_of_lookup in Ha as [i Hi]. apply list_elem_of_lookup in Hb as [j Hj].
  assert (i = j) as ->; [|by simplify_eq].
  eapply NoDup_lookup; [done| |]; rewrite list_lookup_fmap.
  - by rewrite Hi.
  - by rewrite Hj.
Qed.

End producers.

(** ** Step 2 of Resolve: the dependency mapping *)

Section dependencies.
Context `{Runtime}.
Variable heap : gmap NodePtr Node.
Variable producers : gmap Type_ NodePtr.

Lemma buildDeps_flat nodes :
  buildDeps heap producers nodes =
  for_range (fun p => addDependency heap producers p.1 p.2) (declaredInputs heap nodes) ∅.
Proof.
  unfold buildDeps, declaredInputs.
  generalize (∅ : gmap positive (list positive)).
  induction nodes as [|n nodes IH]; intros D; [done|].
  rewrite bind_cons, for_range_app, for_range_fmap. simpl.
  change (fun x : positive => addDependency heap producers n x)
    with (addDependency heap producers n).
  destruct (for_range (addDependency heap producers n) (Inputs (heap !!! n)) D); [done|].
  apply IH.
Qed.

Lemma depsOf_insert (deps : gmap NodePtr (list NodePtr)) n l m :
  depsOf (<[n := l]> deps) m = if decide (n = m) then l else depsOf deps m.
Proof. unfold depsOf. rewrite lookup_insert. by case_decide. Qed.

Lemma addDependencies_ok pairs : ∀ D D',
  for_range (fun p => addDependency heap producers p.1 p.2) pairs D = inr D' →
  (∀ n k, (n, k) ∈ pairs → is_Some (producers !! k)) ∧
  (∀ n m, m ∈ depsOf D' n ↔
          m ∈ depsOf D n ∨ ∃ k, (n, k) ∈ pairs ∧ producers !! k = Some m).
Proof.
  induction pairs as [|[n k] pairs IH]; intros D D' Hloop; simpl in Hloop.
  - simplify_eq. split; [intros ?? Hin; by apply elem_of_nil in Hin|].
    intros n m. split; [eauto|]. intros [?|(k & Hin & _)]; [done|].
    by apply elem_of_nil in Hin.
  - unfold addDependency in Hloop at 1. simpl in Hloop.
    destruct (producers !! k) as [prod|] eqn:Hk; [|done].
    apply IH in Hloop as [Hall Hdeps]. split.
    + intros n' k' Hin. apply elem_of_cons in Hin as [?|Hin]; simplify_eq; eauto.
    + intros n' m. rewrite Hdeps, depsOf_insert. case_decide as Hn; subst.
      * rewrite elem_of_app, list_elem_of_singleton. split.
        -- intros [[?| ->]|(k' & Hin & Hk')]; eauto.
           ++ right. exists k. split; [left|done].
           ++ right. exists k'. split; [by right|done].
        -- intros [?|(k' & Hin & Hk')]; eauto.
           apply elem_of_cons in Hin as [?|Hin]; simplify_eq; eauto.
      * split.
        -- intros [?|(k' & Hin & Hk')]; eauto.
           right. exists k'. split; [by right|done].
        -- intros [?|(k' & Hin & Hk')]; eauto.
           apply elem_of_cons in Hin as [?|Hin]; simplify_eq; eauto.
Qed.

Lemma addDependencies_fail pairs : ∀ D e,
  for_range (fun p => addDependency heap producers p.1 p.2) pairs D = inl e →
  ∃ pre n k post,
    pairs = pre ++ (n, k) :: post ∧
    (∀ p, p ∈ pre → is_Some (producers !! p.2)) ∧
    producers !! k = None ∧
    e = missingDependency heap k n.
Proof.
  induction pairs as [|[n k] pairs IH]; intros D e Hloop; simpl in Hloop; [done|].
  unfold addDependency in Hloop at 1. simpl in Hloop.
  destruct (producers !! k) as [prod|] eqn:Hk.
  - apply IH in Hloop as (pre & n' & k' & post & -> & Hpre & Hk' & ->).
    exists ((n, k) :: pre), n', k', post. split_and!; try done.
    intros p Hp. apply elem_of_cons in Hp as [->|Hp]; eauto.
  - simplify_eq. exists [], n, k, pairs. split_and!; try done.
    intros p Hp. by apply elem_of_nil in Hp.
Qed.

Lemma addDependencies_total pairs : ∀ D,
  (∀ p, p ∈ pairs → is_Some (producers !! p.2)) →
  ∃ D', for_range (fun p => addDependency heap producers p.1 p.2) pairs D = inr D'.
Proof.
  induction pairs as [|[n k] pairs IH]; intros D Hall; simpl; [eauto|].
  unfold addDependency at 1. simpl.
  destruct (Hall (n, k)) as [prod Hprod]; [left|]. simpl in Hprod. rewrite Hprod.
  apply IH. intros p Hp. apply Hall. by right.
Qed.

(** The edges of the mapping that step 2 builds. *)
Lemma buildDeps_edges nodes deps n m :
  buildDeps heap producers nodes = inr deps →
  m ∈ depsOf deps n ↔
  n ∈ nodes ∧ ∃ k, k ∈ Inputs (heap !!! n) ∧ producers !! k = Some m.
Proof.
  rewrite buildDeps_flat. intros Hdeps.
  apply addDependencies_ok in Hdeps as [_ Hdeps]. rewrite Hdeps.
  unfold depsOf at 1. rewrite lookup_empty. simpl. split.
  - intros [Hnil|(k & Hin & Hk)]; [by apply elem_of_nil in Hnil|].
    apply elem_of_declaredInputs in Hin as [??]. eauto.
  - intros (Hn & k & Hk & Hprod). right. exists k. split; [|done].
    by apply elem_of_declaredInputs.
Qed.

Lemma buildDeps_resolved nodes deps n k :
  buildDeps heap producers nodes = inr deps →
  n ∈ nodes → k ∈ Inputs (heap !!! n) → is_Some (producers !! k).
Proof.
  rewrite buildDeps_flat. intros Hdeps Hn Hk.
  apply addDependencies_ok in Hdeps as [Hall _].
  apply (Hall n). by apply elem_of_declaredInputs.
Qed.

End dependencies.

(** ** Step 3 of Resolve: the cycle check *)

Section cycles.
Context `{Runtime}.
Variable heap : gmap NodePtr Node.
Variable deps : gmap NodePtr (list NodePtr).

Lemma checkVisit_keepsPath fuel : ∀ n s s',
  checkVisit heap deps fuel n s = Some (inr s') →
  keepsPath s s' ∧ n ∈ cVisited s' ∧ cInStack s !! n = None.
Proof.
  induction fuel as [|fuel IH]; intros n s s' Hvisit; simpl in Hvisit; [done|].
  destruct (cInStack s !! n) as [idx|] eqn:Hin; [done|].
  case_decide as Hvis. { simplify_eq. by split. }
  match type of Hvisit with
  | context [for_range_fuel ?b ?ms ?s1] =>
      destruct (for_range_fuel b ms s1) as [[e|s2]|] eqn:Hloop; try done
  end.
  simplify_eq.
  apply (for_range_fuel_rel keepsPath) in Hloop as (HI & HS & HV & HN);
    [|intros m t t' _ Hm; by apply IH in Hm as [? _]].
  simpl in *. split_and!; [split_and!|set_solver|done]; simpl.
  - rewrite HI, delete_insert_eq. by apply delete_id.
  - rewrite HS. apply take_app_length'. rewrite length_app. simpl. lia.
  - set_solver.
  - intros x Hx Hnx. apply elem_of_union in Hx as [Hx|Hx].
    + apply elem_of_singleton in Hx. by subst.
    + specialize (HN x Hx Hnx). rewrite lookup_insert in HN. by case_decide.
Qed.

(** The recursion of the cycle check is never deeper than the number of
    nodes not yet on the path. *)
Lemma checkVisit_total (D : gset NodePtr) :
  (∀ n m, m ∈ depsOf deps n → m ∈ D) →
  ∀ fuel n s,
    n ∈ D → dom (cInStack s) ⊆ D → size D < fuel + size (dom (cInStack s)) →
    is_Some (checkVisit heap deps fuel n s).
Proof.
  intros Hclosed. induction fuel as [|fuel IH]; intros n s Hn Hdom Hsize.
  { apply subseteq_size in Hdom. simpl in Hsize. lia. }
  simpl. destruct (cInStack s !! n) as [idx|] eqn:Hin; [eauto|].
  case_decide as Hvis; [eauto|].
  match goal with
  | |- context [for_range_fuel ?b ?ms ?s1] =>
      assert (Hloop : ∀ l t, (∀ m, m ∈ l → m ∈ D) → cInStack t = cInStack s1 →
                is_Some (for_range_fuel b l t))
  end.
  { induction l as [|m l IHl]; intros t Hl Ht; simpl; [eauto|].
    destruct (IH m t) as [[e|t'] Hm].
    - apply Hl. left.
    - rewrite Ht. simpl. rewrite dom_insert_L. apply union_least; [|done].
      by apply singleton_subseteq_l.
    - rewrite Ht. simpl. rewrite dom_insert_L, size_union, size_singleton; [lia|].
      apply disjoint_singleton_l. by apply not_elem_of_dom.
    - rewrite Hm. eauto.
    - rewrite Hm. apply IHl.
      + intros m' Hm'. apply Hl. by right.
      + apply checkVisit_keepsPath in Hm as [(-> & _) _]. done. }
  destruct (Hloop (depsOf deps n) _ (Hclosed n) eq_refl) as [[e|s2] ->]; eauto.
Qed.

Lemma chain_snoc (R : relation NodePtr) l a b :
  chain R (l ++ [a]) → R a b → chain R ((l ++ [a]) ++ [b]).
Proof.
  intros Hchain Hab i x y Hx Hy.
  destruct (decide (S i < length (l ++ [a]))) as [Hlt|Hge].
  - rewrite lookup_app_l in Hx by lia. rewrite lookup_app_l in Hy by lia.
    by eapply Hchain.
  - apply lookup_lt_Some in Hy as Hlen. rewrite length_app in Hlen. simpl in Hlen.
    assert (S i = length (l ++ [a])) as Hi by lia.
    rewrite Hi, list_lookup_middle in Hy by done. simplify_eq.
    rewrite <-app_assoc in Hx. simpl in Hx.
    rewrite length_app in Hi. simpl in Hi.
    rewrite (list_lookup_middle l [y] a i) in Hx by lia. by simplify_eq.
Qed.

Lemma chain_drop (R : relation NodePtr) l i : chain R l → chain R (drop i l).
Proof.
  intros Hchain j x y Hx Hy. rewrite lookup_drop in Hx, Hy.
  apply (Hchain (i + j)); [done|]. by replace (S (i + j)) with (i + S j) by lia.
Qed.

Lemma chain_singleton (R : relation NodePtr) a : chain R [a].
Proof. intros [|i] x y Hx Hy; simpl in *; [done|]. by destruct i. Qed.

(** An error of the cycle check is a cycle of the mapping, written from the
    node that was met again to that node. *)
Lemma checkVisit_cycle fuel : ∀ n s e,
  checkVisit heap deps fuel n s = Some (inl e) →
  indexed s → chain (edge deps) (cStack s ++ [n]) →
  ∃ x mid, e = cyclicDependence heap (x :: mid ++ [x]) ∧
           chain (edge deps) (x :: mid ++ [x]).
Proof.
  induction fuel as [|fuel IH]; intros n s e Hvisit Hidx Hchain; simpl in Hvisit; [done|].
  destruct (cInStack s !! n) as [idx|] eqn:Hin.
  { simplify_eq. apply Hidx in Hin as Hlook.
    exists n, (drop (S idx) (cStack s)).
    rewrite (drop_S _ _ _ Hlook). split; [done|].
    replace (n :: drop (S idx) (cStack s) ++ [n])
      with (drop idx (cStack s ++ [n])); [by apply chain_drop|].
    rewrite drop_app_le by (apply lookup_lt_Some in Hlook; lia).
    by rewrite (drop_S _ _ _ Hlook). }
  case_decide as Hvis; [done|].
  match type of Hvisit with
  | context [for_range_fuel ?b ?ms ?s1] =>
      assert (Hloop : ∀ l t, (∀ m, m ∈ l → edge deps n m) → keepsPath s1 t →
                for_range_fuel b l t = Some (inl e) →
                ∃ x mid, e = cyclicDependence heap (x :: mid ++ [x]) ∧
                         chain (edge deps) (x :: mid ++ [x]));
      [|destruct (for_range_fuel b ms s1) as [[e'|s2]|] eqn:Hl; try done]
  end.
  { induction l as [|m l IHl]; intros t Hl Hkp Hfail; simpl in Hfail; [done|].
    pose proof Hkp as (HI & HS & _).
    match type of Hfail with
    | context [checkVisit ?h ?d ?f ?m ?t] =>
        destruct (checkVisit h d f m t) as [[e'|t']|] eqn:Hm; try done
    end.
    - simplify_eq. eapply IH; [done| |].
      + intros x i. rewrite HI, HS. simpl. rewrite lookup_insert.
        case_decide.
        * intros ?; simplify_eq. by apply list_lookup_middle.
        * intros Hx. by apply lookup_app_l_Some, Hidx.
      + rewrite HS. simpl. apply chain_snoc; [done|]. apply Hl. left.
    - eapply IHl; [| |done].
      + intros m' Hm'. apply Hl. by right.
      + apply checkVisit_keepsPath in Hm as [Hk _].
        by etrans. }
  simplify_eq. eapply Hloop; [|reflexivity|done]. by intros m Hm.
Qed.

End cycles.

(** ** Step 4 of Resolve: the order *)

Section sorting.
Context `{Runtime}.
Variable heap : gmap NodePtr Node.
Variable deps : gmap NodePtr (list NodePtr).

(** The two passes make the same calls: where the body of the first loop
    returns no error, the body of the second returns, in step. *)
Lemma loop_inStep {X : Type} (cbody : X → cycleState → option (error + cycleState))
    (sbody : X → sortState → option sortState) xs :
  (∀ x u u' t, x ∈ xs → cbody x u = Some (inr u') → inStep deps u t →
     ∃ t', sbody x t = Some t' ∧ inStep deps u' t') →
  ∀ u u' t, for_range_fuel cbody xs u = Some (inr u') → inStep deps u t →
    ∃ t', range_fuel sbody xs t = Some t' ∧ inStep deps u' t'.
Proof.
  induction xs as [|x xs IH]; intros Hbody u u' t Hloop Hrel; simpl in *.
  - simplify_eq. eauto.
  - destruct (cbody x u) as [[e|u1]|] eqn:Hx; try done.
    destruct (Hbody x u u1 t) as (t1 & -> & Hrel1); [left|done|done|].
    eapply IH; [|done|done]. intros y v v' w Hy. apply Hbody. by right.
Qed.

Lemma sortVisit_inStep fuel : ∀ n u u' t,
  checkVisit heap deps fuel n u = Some (inr u') → inStep deps u t →
  ∃ t', sortVisit deps fuel n t = Some t' ∧ inStep deps u' t'.
Proof.
  induction fuel as [|fuel IH]; intros n u u' t Hcheck Hrel; simpl in Hcheck; [done|].
  destruct (cInStack u !! n) as [idx|] eqn:Hin; [done|].
  pose proof Hrel as (HV & _). simpl. rewrite HV.
  case_decide as Hvis. { simplify_eq. eauto. }
  match type of Hcheck with
  | context [for_range_fuel ?b ?ms ?s1] =>
      destruct (for_range_fuel b ms s1) as [[e|u2]|] eqn:Hloop; try done
  end.
  simplify_eq.
  eapply (loop_inStep _ (sortVisit deps fuel)) in Hloop as Hsort;
    [|intros m v v' w _; apply IH|exact Hrel].
  destruct Hsort as (t2 & -> & HV2 & Hiff & Hnd & Hord).
  assert (Hdeps : ∀ m, m ∈ depsOf deps n → m ∈ cVisited u2).
  { eapply (for_range_fuel_all keepsPath (fun m s => m ∈ cVisited s)); [| |exact Hloop].
    - intros m v v' _ Hm. by apply checkVisit_keepsPath in Hm as (? & ? & _).
    - intros m v v' (_ & _ & Hsub & _). set_solver. }
  assert (Hfresh : n ∉ cVisited u2).
  { apply (for_range_fuel_rel keepsPath) in Hloop as (_ & _ & _ & HN);
      [|intros m v v' _ Hm; by apply checkVisit_keepsPath in Hm as [? _]].
    intros Hn. specialize (HN n Hn Hvis). simpl in HN.
    by rewrite lookup_insert_eq in HN. }
  eexists. split; [done|]. split_and!; simpl.
  - by rewrite HV2.
  - intros x. rewrite elem_of_union, elem_of_singleton, elem_of_app,
      list_elem_of_singleton, Hiff. tauto.
  - apply NoDup_app. split_and!; [done| |apply NoDup_singleton].
    intros x Hx ->%list_elem_of_singleton. apply Hfresh. rewrite <-HV2. by apply Hiff.
  - intros i a b Ha Hab. apply lookup_snoc_Some in Ha as [[Hi Ha]|[Hi <-]].
    + destruct (Hord i a b Ha Hab) as (j & Hj & Hb).
      exists j. split; [done|]. by apply lookup_app_l_Some.
    + assert (b ∈ tSorted t2) as Hb by (apply Hiff; rewrite HV2; by apply Hdeps).
      apply list_elem_of_lookup in Hb as [j Hj]. exists j.
      split; [rewrite Hi; by eapply lookup_lt_Some|by apply lookup_app_l_Some].
Qed.

Lemma sortRoot_inStep fuel n u u' t :
  checkRoot heap deps fuel n u = Some (inr u') → inStep deps u t →
  ∃ t', sortRoot deps fuel n t = Some t' ∧ inStep deps u' t'.
Proof.
  unfold checkRoot, sortRoot. intros Hcheck Hrel.
  pose proof Hrel as (HV & _). rewrite HV.
  case_decide; [simplify_eq; eauto|]. by eapply sortVisit_inStep.
Qed.

Lemma checkRoot_keepsPath fuel n u u' :
  checkRoot heap deps fuel n u = Some (inr u') → keepsPath u u' ∧ n ∈ cVisited u'.
Proof.
  unfold checkRoot. case_decide.
  - intros ?; simplify_eq. by split.
  - intros Hn. by apply checkVisit_keepsPath in Hn as (? & ? & _).
Qed.

(** A node that the second pass visits is a root or the target of an
    edge. *)
Lemma sortVisit_within (D : gset NodePtr) :
  (∀ n m, m ∈ depsOf deps n → m ∈ D) →
  ∀ fuel n t t', sortVisit deps fuel n t = Some t' → n ∈ D →
    tVisited t ⊆ D → tVisited t' ⊆ D.
Proof.
  intros Hclosed. induction fuel as [|fuel IH]; intros n t t' Hsort Hn Hsub;
    simpl in Hsort; [done|].
  case_decide; [by simplify_eq|].
  match type of Hsort with
  | context [range_fuel ?b ?ms ?s1] =>
      assert (Hloop : ∀ l v v', (∀ m, m ∈ l → m ∈ D) → tVisited v ⊆ D →
                range_fuel b l v = Some v' → tVisited v' ⊆ D);
      [|destruct (range_fuel b ms s1) as [t1|] eqn:Hl; try done]
  end.
  { induction l as [|m l IHl]; intros v v' Hl Hv Hrange; simpl in Hrange; [by simplify_eq|].
    destruct (sortVisit deps fuel m v) as [v1|] eqn:Hm; [|done].
    eapply IHl; [| |done].
    - intros m' Hm'. apply Hl. by right.
    - eapply IH; [done| |done]. apply Hl. left. }
  simplify_eq. simpl. apply union_least; [by apply singleton_subseteq_l|].
  eapply Hloop; [|done|done]. apply Hclosed.
Qed.

End sorting.

(** ** Resolve *)

Section resolve.
Context `{Runtime}.
Variable heap : gmap NodePtr Node.

Lemma size_list_to_set_le (l : list NodePtr) :
  size (list_to_set l : gset NodePtr) ≤ length l.
Proof.
  induction l as [|x l IH]; simpl; [done|].
  rewrite size_union_alt, size_singleton.
  assert (size (list_to_set l ∖ {[x]} : gset NodePtr) ≤ size (list_to_set l : gset NodePtr));
    [apply subseteq_size; set_solver|lia].
Qed.

Lemma checkCycles_roots deps fuel l : ∀ u u',
  for_range_fuel (checkRoot heap deps fuel) l u = Some (inr u') →
  keepsPath u u' ∧ ∀ n, n ∈ l → n ∈ cVisited u'.
Proof.
  intros u u' Hloop. split.
  - eapply for_range_fuel_rel; [apply _| |done].
    intros n v v' _ Hn. by apply checkRoot_keepsPath in Hn as [? _].
  - eapply (for_range_fuel_all keepsPath (fun n s => n ∈ cVisited s)); [| |done].
    + intros n v v' _. apply checkRoot_keepsPath.
    + intros n v v' (_ & _ & Hsub & _). set_solver.
Qed.

Lemma checkCycles_returns deps fuel nodes :
  (∀ n m, m ∈ depsOf deps n → m ∈ nodes) → length nodes < fuel →
  is_Some (checkCycles heap fuel nodes deps).
Proof.
  intros Hclosed Hfuel. unfold checkCycles.
  assert (Hloop : ∀ l u, (∀ n, n ∈ l → n ∈ nodes) → cInStack u = ∅ →
            is_Some (for_range_fuel (checkRoot heap deps fuel) l u)).
  { induction l as [|n l IHl]; intros u Hl Hu; simpl; [eauto|].
    assert (is_Some (checkRoot heap deps fuel n u)) as [[e|u'] Hn].
    { unfold checkRoot. case_decide; [eauto|].
      apply (checkVisit_total heap deps (list_to_set nodes)).
      - intros a b Hab. apply elem_of_list_to_set. by eapply Hclosed.
      - apply elem_of_list_to_set, Hl. left.
      - rewrite Hu, dom_empty_L. apply empty_subseteq.
      - rewrite Hu, dom_empty_L, size_empty. pose proof (size_list_to_set_le nodes). lia. }
    - rewrite Hn. eauto.
    - rewrite Hn. apply IHl; [intros m Hm; apply Hl; by right|].
      apply checkRoot_keepsPath in Hn as [(-> & _) _]. done. }
  by apply Hloop.
Qed.

Lemma emptyStates_inStep deps : inStep deps emptyCycleState emptySortState.
Proof.
  split_and!; simpl; [done|set_solver|constructor|].
  intros i a b Ha. by rewrite lookup_nil in Ha.
Qed.

Lemma topologicalSort_returns deps fuel nodes :
  (∀ n m, m ∈ depsOf deps n → m ∈ nodes) → length nodes < fuel →
  is_Some (topologicalSort heap fuel nodes deps).
Proof.
  intros Hclosed Hfuel. unfold topologicalSort.
  destruct (checkCycles_returns deps fuel nodes Hclosed Hfuel) as [[e|u] Hcheck];
    rewrite Hcheck; [eauto|].
  eapply (loop_inStep deps _ (sortRoot deps fuel)) in Hcheck as (t & Hsort & _);
    [|intros n v v' w _; apply sortRoot_inStep|apply emptyStates_inStep].
  rewrite Hsort. eauto.
Qed.

Lemma sortRoots_within deps fuel nodes l : ∀ t t',
  (∀ n m, m ∈ depsOf deps n → m ∈ nodes) → (∀ n, n ∈ l → n ∈ nodes) →
  range_fuel (sortRoot deps fuel) l t = Some t' →
  tVisited t ⊆ list_to_set nodes → tVisited t' ⊆ list_to_set nodes.
Proof.
  induction l as [|n l IHl]; intros t t' Hclosed Hl Hloop Ht; simpl in Hloop;
    [by simplify_eq|].
  destruct (sortRoot deps fuel n t) as [t1|] eqn:Hn; [|done].
  eapply IHl; [done| |done|].
  - intros m Hm. apply Hl. by right.
  - unfold sortRoot in Hn. case_decide; [by simplify_eq|].
    eapply (sortVisit_within deps (list_to_set nodes)); [|done| |done].
    + intros a b Hab. apply elem_of_list_to_set. by eapply Hclosed.
    + apply elem_of_list_to_set, Hl. left.
Qed.

(** The order that step 4 returns: the nodes of the list, each once, each
    after the nodes it has an edge to. *)
Lemma topologicalSort_sorted deps fuel nodes sorted :
  (∀ n m, m ∈ depsOf deps n → m ∈ nodes) →
  topologicalSort heap fuel nodes deps = Some (inr sorted) →
  NoDup sorted ∧ (∀ n, n ∈ sorted ↔ n ∈ nodes) ∧ ordered (edge deps) sorted.
Proof.
  intros Hclosed. unfold topologicalSort.
  destruct (checkCycles heap fuel nodes deps) as [[e|u]|] eqn:Hcheck; try done.
  unfold checkCycles in Hcheck.
  pose proof Hcheck as [_ Hroots]%checkCycles_roots.
  eapply (loop_inStep deps _ (sortRoot deps fuel)) in Hcheck as (t & Hsort & HV & Hiff & Hnd & Hord);
    [|intros n v v' w _; apply sortRoot_inStep|apply emptyStates_inStep].
  rewrite Hsort. intros ?; simplify_eq.
  split_and!; [done| |done].
  intros n. rewrite <-Hiff. split.
  - intros Hn. eapply sortRoots_within in Hsort; [|done|done|simpl; apply empty_subseteq].
    apply Hsort in Hn. by apply elem_of_list_to_set in Hn.
  - intros Hn. rewrite HV. by apply Hroots.
Qed.

(** The error of step 3: a cycle of the mapping. *)
Lemma topologicalSort_cycle deps fuel nodes e :
  topologicalSort heap fuel nodes deps = Some (inl e) →
  ∃ x mid, e = cyclicDependence heap (x :: mid ++ [x]) ∧
           chain (edge deps) (x :: mid ++ [x]).
Proof.
  unfold topologicalSort.
  destruct (checkCycles heap fuel nodes deps) as [[e'|u]|] eqn:Hcheck; try done.
  - intros ?; simplify_eq. unfold checkCycles in Hcheck.
    assert (Hloop : ∀ l u, cInStack u = ∅ → cStack u = [] →
              for_range_fuel (checkRoot heap deps fuel) l u = Some (inl e) →
              ∃ x mid, e = cyclicDependence heap (x :: mid ++ [x]) ∧
                       chain (edge deps) (x :: mid ++ [x])).
    { induction l as [|n l IHl]; intros u HI HS Hfail; simpl in Hfail; [done|].
      destruct (checkRoot heap deps fuel n u) as [[e'|u']|] eqn:Hn; try done.
      - simplify_eq. unfold checkRoot in Hn. case_decide; [done|].
        eapply checkVisit_cycle; [done| |].
        + intros x i. by rewrite HI, lookup_empty.
        + rewrite HS. apply chain_singleton.
      - apply checkRoot_keepsPath in Hn as [(HI' & HS' & _) _].
        eapply IHl; [| |done]; congruence. }
    by apply (Hloop nodes emptyCycleState).
  - by destruct (range_fuel _ _ _).
Qed.

(** An order after the edges leaves no cycle through its nodes. *)
Lemma ordered_tc (R : relation NodePtr) sorted a b :
  ordered R sorted → tc R a b →
  ∀ i, sorted !! i = Some a → ∃ j, j < i ∧ sorted !! j = Some b.
Proof.
  intros Hord Htc. induction Htc as [a b Hab|a c b Hac _ IH]; intros i Hi.
  - by eapply Hord.
  - destruct (Hord i a c Hi Hac) as (j & Hj & Hc).
    destruct (IH j Hc) as (k & Hk & Hb). exists k. split; [lia|done].
Qed.

Lemma ordered_acyclic (R : relation NodePtr) sorted a :
  ordered R sorted → a ∈ sorted → ¬ tc R a a.
Proof.
  intros Hord Ha Htc. apply list_elem_of_lookup in Ha as [i Hi].
  induction (lt_wf i) as [i _ IH].
  destruct (ordered_tc R sorted a a Hord Htc i Hi) as (j & Hj & Ha). eauto.
Qed.

Lemma chain_tc (R : relation NodePtr) mid : ∀ a b,
  chain R (a :: mid ++ [b]) → tc R a b.
Proof.
  induction mid as [|c mid IH]; intros a b Hchain.
  - apply tc_once. by apply (Hchain 0).
  - eapply tc_l; [by apply (Hchain 0)|]. apply IH.
    intros i x y Hx Hy. by apply (Hchain (S i)).
Qed.

End resolve.

Section resolve_steps.
Context `{Runtime}.
Variable heap : gmap NodePtr Node.

(** The edges of the mapping that steps 1 and 2 build are the dependencies
    between the nodes of the list. *)
Lemma resolved_edges nodes producers deps a b :
  mapProducers heap nodes = inr producers →
  buildDeps heap producers nodes = inr deps →
  edge deps a b ↔ dependsOn heap nodes a b.
Proof.
  intros HP HD. unfold edge, dependsOn. rewrite (buildDeps_edges heap producers nodes deps) by done.
  split.
  - intros (Ha & k & Hk & Hprod).
    apply (mapProducers_lookup heap nodes) in Hprod; [|done].
    apply elem_of_declaredOutputs in Hprod as [Hb Hout]. eauto.
  - intros (Ha & Hb & k & Hk & Hout). split; [done|]. exists k. split; [done|].
    apply (mapProducers_lookup heap nodes); [done|]. by apply elem_of_declaredOutputs.
Qed.

Lemma resolved_closed nodes producers deps n m :
  mapProducers heap nodes = inr producers →
  buildDeps heap producers nodes = inr deps →
  m ∈ depsOf deps n → m ∈ nodes.
Proof.
  intros HP HD Hm.
  by apply (resolved_edges nodes producers deps n m HP HD) in Hm as (_ & ? & _).
Qed.

(** More fuel does not change what the two passes return. *)
Lemma checkVisit_mono deps fuel : ∀ fuel' n s r,
  fuel ≤ fuel' → checkVisit heap deps fuel n s = Some r →
  checkVisit heap deps fuel' n s = Some r.
Proof.
  induction fuel as [|fuel IH]; intros fuel' n s r Hle Hvisit; simpl in Hvisit; [done|].
  destruct fuel' as [|fuel']; [lia|]. simpl.
  destruct (cInStack s !! n); [done|]. case_decide; [done|].
  match type of Hvisit with
  | context [for_range_fuel ?b ?ms ?s1] =>
      destruct (for_range_fuel b ms s1) as [r1|] eqn:Hloop; [|done]
  end.
  eapply for_range_fuel_mono in Hloop; [by rewrite Hloop|].
  intros m t r' Hm. apply IH; [lia|done].
Qed.

Lemma sortVisit_mono deps fuel : ∀ fuel' n s r,
  fuel ≤ fuel' → sortVisit deps fuel n s = Some r →
  sortVisit deps fuel' n s = Some r.
Proof.
  induction fuel as [|fuel IH]; intros fuel' n s r Hle Hvisit; simpl in Hvisit; [done|].
  destruct fuel' as [|fuel']; [lia|]. simpl.
  case_decide; [done|].
  match type of Hvisit with
  | context [range_fuel ?b ?ms ?s1] =>
      destruct (range_fuel b ms s1) as [r1|] eqn:Hloop; [|done]
  end.
  eapply range_fuel_mono in Hloop; [by rewrite Hloop|].
  intros m t r' Hm. apply IH; [lia|done].
Qed.

Lemma topologicalSort_mono deps fuel fuel' nodes r :
  fuel ≤ fuel' → topologicalSort heap fuel nodes deps = Some r →
  topologicalSort heap fuel' nodes deps = Some r.
Proof.
  intros Hle. unfold topologicalSort, checkCycles.
  destruct (for_range_fuel (checkRoot heap deps fuel) nodes emptyCycleState)
    as [r1|] eqn:Hcheck; [|done].
  eapply for_range_fuel_mono in Hcheck as ->.
  2:{ intros n s r'. unfold checkRoot. case_decide; [done|]. by apply checkVisit_mono. }
  destruct r1 as [e|u]; [done|].
  destruct (range_fuel (sortRoot deps fuel) nodes emptySortState) as [t|] eqn:Hsort; [|done].
  eapply range_fuel_mono in Hsort as ->; [done|].
  intros n s r'. unfold sortRoot. case_decide; [done|]. by apply sortVisit_mono.
Qed.

Lemma ResolveFuel_mono fuel fuel' nodes r :
  fuel ≤ fuel' → ResolveFuel heap fuel nodes = Some r →
  ResolveFuel heap fuel' nodes = Some r.
Proof.
  intros Hle. unfold ResolveFuel.
  destruct (mapProducers heap nodes) as [e|producers]; [done|].
  destruct (buildDeps heap producers nodes) as [e|deps]; [done|].
  by apply topologicalSort_mono.
Qed.

(** [Resolve] returns: the fuel it is given is enough. *)
Theorem Resolve_returns nodes : is_Some (Resolve heap nodes).
Proof.
  unfold Resolve, ResolveFuel.
  destruct (mapProducers heap nodes) as [e|producers] eqn:HP; [eauto|].
  destruct (buildDeps heap producers nodes) as [e|deps] eqn:HD; [eauto|].
  apply topologicalSort_returns; [|lia].
  intros n m. by apply (resolved_closed nodes producers deps).
Qed.

(** What the recursion returns with any fuel that is enough for it to
    return is what [Resolve] returns. *)
Theorem Resolve_any_fuel fuel nodes r :
  ResolveFuel heap fuel nodes = Some r → Resolve heap nodes = Some r.
Proof.
  intros Hfuel. destruct (Resolve_returns nodes) as [r' Hr']. rewrite Hr'.
  unfold Resolve in Hr'. destruct (decide (fuel ≤ S (length nodes))) as [Hle|Hgt].
  - apply (ResolveFuel_mono _ _ _ _ Hle) in Hfuel. congruence.
  - apply (ResolveFuel_mono _ fuel) in Hr'; [congruence|lia].
Qed.

(** The three ways in which [Resolve] returns. *)
Lemma Resolve_cases nodes :
  (∃ e, mapProducers heap nodes = inl e ∧ Resolve heap nodes = Some (inl e)) ∨
  (∃ producers e, mapProducers heap nodes = inr producers ∧
     buildDeps heap producers nodes = inl e ∧ Resolve heap nodes = Some (inl e)) ∨
  (∃ producers deps, mapProducers heap nodes = inr producers ∧
     buildDeps heap producers nodes = inr deps ∧
     Resolve heap nodes = topologicalSort heap (S (length nodes)) nodes deps).
Proof.
  unfold Resolve, ResolveFuel.
  destruct (mapProducers heap nodes) as [e|producers] eqn:HP; [eauto|].
  destruct (buildDeps heap producers nodes) as [e|deps] eqn:HD; [eauto 10|eauto 10].
Qed.

(** The order of a successful [Resolve]. *)
Lemma Resolve_sorted nodes sorted :
  Resolve heap nodes = Some (inr sorted) →
  NoDup sorted ∧ (∀ n, n ∈ sorted ↔ n ∈ nodes) ∧
  ordered (dependsOn heap nodes) sorted ∧
  NoDup (declaredOutputs heap nodes).*1 ∧
  (∀ n k, n ∈ nodes → k ∈ Inputs (heap !!! n) →
     ∃ m, m ∈ nodes ∧ k ∈ Outputs (heap !!! m)).
Proof.
  intros Hres.
  destruct (Resolve_cases nodes) as [(e & _ & He)|[(P & e & _ & _ & He)|(P & deps & HP & HD & Hsort)]];
    [congruence|congruence|].
  rewrite Hsort in Hres.
  apply topologicalSort_sorted in Hres as (Hnd & Hiff & Hord);
    [|intros n m; by apply (resolved_closed nodes P deps)].
  split_and!; [done|done| | |].
  - intros i a b Ha Hab. apply (Hord i a b Ha).
    by apply (resolved_edges nodes P deps).
  - apply mapProducers_succeeds. eauto.
  - intros n k Hn Hk.
    destruct (buildDeps_resolved heap P nodes deps n k HD Hn Hk) as [m Hm].
    apply (mapProducers_lookup heap nodes) in Hm; [|done].
    apply elem_of_declaredOutputs in Hm as [??]. eauto.
Qed.

End resolve_steps.

(** ** The execution of the nodes *)

Section execution.
Context `{Runtime} `{Program}.

Lemma bind_Done {A B : Type} (r : result A) (k : A → result B) b :
  r ≫= k = Done b ↔ ∃ a, r = Done a ∧ k a = Done b.
Proof.
  destruct r as [a| |]; simpl; split; try done; eauto.
  - by intros (a' & ? & ?); simplify_eq.
  - by intros (? & ? & _).
  - by intros (? & ? & _).
Qed.

(** The error check returns an error exactly when a fallible slot holds
    one and the slots checked before it hold none. *)
Lemma checkErrorReturns_Some errorIndices results e :
  checkErrorReturns errorIndices results = Done (Some e) ↔
  ∃ pre idx post errVal,
    errorIndices = pre ++ idx :: post ∧
    (∀ i, i ∈ pre → ∃ v, results !! i = Some v ∧ IsNil v = Done true) ∧
    results !! idx = Some errVal ∧ IsNil errVal = Done false ∧
    vError errVal = Some e.
Proof.
  induction errorIndices as [|idx0 idxs IH]; simpl.
  { split; [done|]. intros (pre & ? & ? & ? & Hnil & _). by destruct pre. }
  split.
  - destruct (results !! idx0) as [errVal0|] eqn:Hlook; [|done].
    destruct (IsNil errVal0) as [[|]| |] eqn:Hnil; simpl; try done.
    + intros (pre & idx & post & errVal & -> & Hpre & ?)%IH.
      exists (idx0 :: pre), idx, post, errVal. split_and!; try tauto.
      intros i [->|Hi]%elem_of_cons; eauto.
    + destruct (vError errVal0) as [e0|] eqn:He0; [|done].
      intros ?; simplify_eq. exists [], idx0, idxs, errVal0. split_and!; try done.
      intros i Hi. by apply elem_of_nil in Hi.
  - intros (pre & idx & post & errVal & Heq & Hpre & Hidx & Hn & He).
    destruct pre as [|i pre]; simpl in Heq; simplify_eq.
    + rewrite Hidx. simpl. rewrite Hn. simpl. by rewrite He.
    + destruct (Hpre i) as (v & Hv & Hvnil); [left|].
      rewrite Hv. simpl. rewrite Hvnil. simpl. apply IH.
      exists pre, idx, post, errVal. split_and!; try done.
      intros i' Hi'. apply Hpre. by right.
Qed.

(** The ways in which [execute] returns an error. *)
Lemma execute_error p s e s' :
  execute p s = Done (Some e, s') →
  (∃ e', gatherArgs (values (boot s)) (Inputs (heap s !!! p)) = inl e' ∧
         e = e' ∧ s' = s) ∨
  (∃ args results w,
     gatherArgs (values (boot s)) (Inputs (heap s !!! p)) = inr args ∧
     callFn (Fn (heap s !!! p)) args (world s) = (results, w) ∧
     checkErrorReturns (ErrorIndices (heap s !!! p)) results = Done (Some e) ∧
     s' = {| boot := boot s; heap := heap s; world := w;
             trace := trace s ++ [CallFn p args] |}).
Proof.
  unfold execute. intros Hexec.
  destruct (gatherArgs _ _) as [e'|args] eqn:Hargs.
  { simplify_eq. left. eauto. }
  destruct (callFn _ _ _) as [results w] eqn:Hcall.
  apply bind_Done in Hexec as ([e0|] & Hcheck & Hrest).
  - simplify_eq. right. eauto 10.
  - apply bind_Done in Hrest as (b & _ & ?). simplify_eq.
Qed.

(** The ways in which [execute] returns no error. *)
Lemma execute_ok p s s' :
  execute p s = Done (None, s') →
  ∃ args, heap s' = heap s ∧ trace s' = trace s ++ [CallFn p args].
Proof.
  unfold execute. intros Hexec.
  destruct (gatherArgs _ _) as [e'|args] eqn:Hargs; [done|].
  destruct (callFn _ _ _) as [results w] eqn:Hcall.
  apply bind_Done in Hexec as ([e0|] & Hcheck & Hrest); [done|].
  apply bind_Done in Hrest as (b & _ & ?). simplify_eq. eauto.
Qed.

Lemma executeAll_app pre post s :
  executeAll (pre ++ post) s =
  r ← executeAll pre s;
  match r with
  | (Some e, s') => Done (Some e, s')
  | (None, s') => executeAll post s'
  end.
Proof.
  revert s. induction pre as [|p pre IH]; intros s; simpl; [done|].
  destruct (execute p s) as [[[e|] s']| |]; simpl; done.
Qed.

Lemma calledNodes_app tr1 tr2 :
  calledNodes (tr1 ++ tr2) = calledNodes tr1 ++ calledNodes tr2.
Proof. apply omap_app. Qed.

(** A run of the loop that returns no error has called every node of the
    order, in the order. *)
Lemma executeAll_ok sorted : ∀ s s',
  executeAll sorted s = Done (None, s') →
  heap s' = heap s ∧
  ∃ tr, trace s' = trace s ++ tr ∧ calledNodes tr = sorted ∧
        calledCleanups tr = [].
Proof.
  induction sorted as [|p sorted IH]; intros s s' Hrun; simpl in Hrun.
  - simplify_eq. split; [done|]. exists []. by rewrite app_nil_r.
  - apply bind_Done in Hrun as ([[e|] s1] & Hexec & Hrest); [done|].
    apply execute_ok in Hexec as (args & Hheap & Htrace).
    apply IH in Hrest as (Hheap' & tr & Htrace' & Hcalled & Hcl).
    split; [congruence|]. exists (CallFn p args :: tr).
    rewrite Htrace', Htrace, <-app_assoc. simpl. by rewrite Hcalled, Hcl.
Qed.

(** A run of the loop that returns an error stopped at a node of the
    order: the nodes before it were called, no node after it was. *)
Lemma executeAll_error sorted : ∀ s s' e,
  executeAll sorted s = Done (Some e, s') →
  ∃ pre p post s1,
    sorted = pre ++ p :: post ∧
    executeAll pre s = Done (None, s1) ∧
    execute p s1 = Done (Some e, s') ∧
    boot s' = boot s1 ∧
    ∃ tr, trace s' = trace s ++ tr ∧
          (calledNodes tr = pre ∨ calledNodes tr = pre ++ [p]).
Proof.
  induction sorted as [|p sorted IH]; intros s s' e Hrun; simpl in Hrun; [done|].
  apply bind_Done in Hrun as ([[e1|] s1] & Hexec & Hrest).
  - simplify_eq. exists [], p, sorted, s. split_and!; try done.
    + by apply execute_error in Hexec as [(? & _ & _ & ->)|(? & ? & ? & _ & _ & _ & ->)].
    + apply execute_error in Hexec as [(? & _ & _ & ->)|(args & ? & ? & _ & _ & _ & ->)].
      * exists []. rewrite app_nil_r. eauto.
      * exists [CallFn p args]. eauto.
  - apply IH in Hrest as (pre & q & post & s2 & -> & Hpre & Hq & Hboot & tr & Htr & Hcalled).
    pose proof Hexec as (args & Hheap & Htrace)%execute_ok.
    exists (p :: pre), q, post, s2. split_and!; try done.
    + simpl. by rewrite Hexec.
    + exists (CallFn p args :: tr). rewrite Htr, Htrace, <-app_assoc. simpl.
      split; [done|]. destruct Hcalled as [->| ->]; eauto.
Qed.

End execution.

(** ** Cleanup *)

Section cleanup.
Context `{Runtime} `{Program}.

Lemma append_assoc (a b c : string) : (a +:+ b) +:+ c = a +:+ (b +:+ c).
Proof.
  induction a as [|x a IH]; [done|].
  change (String x ((a +:+ b) +:+ c) = String x (a +:+ (b +:+ c))). by rewrite IH.
Qed.

Lemma append_empty_r (s : string) : s +:+ "" = s.
Proof.
  induction s as [|x s IH]; [done|].
  change (String x (s +:+ "") = String x s). by rewrite IH.
Qed.

Lemma mentions_refl s : mentions s s.
Proof. exists "", "". change (s = s +:+ ""). by rewrite append_empty_r. Qed.

Lemma mentions_append pre post s sub :
  mentions s sub → mentions (pre +:+ s +:+ post) sub.
Proof.
  intros (a & b & ->). exists (pre +:+ a), (b +:+ post).
  by rewrite !append_assoc.
Qed.

(** [strings.Join] writes every part. *)
Lemma Join_mentions parts sep part :
  part ∈ parts → mentions (Join parts sep) part.
Proof.
  unfold Join. induction parts as [|x parts IH]; intros Hin.
  { by apply elem_of_nil in Hin. }
  destruct parts as [|y parts].
  - apply list_elem_of_singleton in Hin as ->. apply mentions_refl.
  - change (mentions (x +:+ sep +:+ String.concat sep (y :: parts)) part).
    apply elem_of_cons in Hin as [->|Hin].
    + exists "", (sep +:+ String.concat sep (y :: parts)). done.
    + destruct (IH Hin) as (a & b & ->).
      exists (x +:+ sep +:+ a), b. by rewrite !append_assoc.
Qed.

Lemma runCleanups_returns cs : ∀ errs w tr,
  runCleanups cs errs w tr =
  (errs ++ failures (cleanupReturns cs w).1, (cleanupReturns cs w).2,
   tr ++ (CallCleanup <$> cs)).
Proof.
  induction cs as [|c cs IH]; intros errs w tr; simpl.
  - by rewrite !app_nil_r.
  - destruct (callCleanup c w) as [r w'] eqn:Hc. rewrite IH.
    destruct (cleanupReturns cs w') as [rs w''] eqn:Hrs. simpl.
    destruct r; by rewrite <-!app_assoc.
Qed.

Lemma cleanupReturns_length cs : ∀ w, length (cleanupReturns cs w).1 = length cs.
Proof.
  induction cs as [|c cs IH]; intros w; simpl; [done|].
  destruct (callCleanup c w) as [r w']. specialize (IH w').
  destruct (cleanupReturns cs w') as [rs w'']. simpl in *. by rewrite IH.
Qed.

Lemma calledCleanups_app tr1 tr2 :
  calledCleanups (tr1 ++ tr2) = calledCleanups tr1 ++ calledCleanups tr2.
Proof. apply omap_app. Qed.

Lemma calledCleanups_cleanups cs : calledCleanups (CallCleanup <$> cs) = cs.
Proof.
  induction cs as [|c cs IH]; [done|].
  rewrite fmap_cons. unfold calledCleanups in *. simpl. by f_equal.
Qed.

Lemma calledNodes_cleanups cs : calledNodes (CallCleanup <$> cs) = [].
Proof. by induction cs. Qed.

End cleanup.

(** ** Add *)

Section registration.
Context `{Runtime} `{Program}.

Lemma analyzeOutputs_Fn outs : ∀ i n, Fn (analyzeOutputs i outs n) = Fn n.
Proof.
  induction outs as [|out outs IH]; intros i n; simpl; [done|].
  rewrite IH. by destruct (tImplementsError (rtypes out)).
Qed.

Lemma newProvider_cases fn s r s' :
  newProvider fn s = Done (r, s') →
  world s' = world s ∧ trace s' = trace s ∧
  ((∃ e, r = Some e ∧ boot s' = boot s ∧ heap s' = heap s) ∨
   (∃ node, r = None ∧ Fn node = fn ∧
      boot s' = appendProvider (fresh (dom (heap s))) (boot s) ∧
      heap s' = <[fresh (dom (heap s)) := node]> (heap s))).
Proof.
  unfold newProvider, NewNode. intros Hnew.
  apply bind_Done in Hnew as ([[e|p] hp] & Hnode & Hrest);
    apply bind_Done in Hnode as (typ & _ & Hnode); case_decide; simplify_eq; simpl.
  - split_and!; [done|done|]. left. eauto.
  - split_and!; [done|done|]. right. eexists. split_and!; try done.
    by rewrite analyzeOutputs_Fn.
Qed.

Lemma newProvider_wellFormed fn s r s' :
  newProvider fn s = Done (r, s') → wellFormed s → wellFormed s'.
Proof.
  intros (_ & _ & [(e & -> & Hb & Hh)|(node & -> & _ & Hb & Hh)])%newProvider_cases [Hnd Hall];
    unfold wellFormed; rewrite Hb, Hh; [done|]. simpl.
  assert (fresh (dom (heap s)) ∉ providers (boot s)) as Hfresh.
  { intros Hin. apply Hall, elem_of_dom in Hin. by apply is_fresh in Hin. }
  split.
  - apply NoDup_app. split_and!; [done| |apply NoDup_singleton].
    intros x Hx ->%list_elem_of_singleton. done.
  - intros p [Hp| ->%list_elem_of_singleton]%elem_of_app.
    + rewrite lookup_insert_ne; [by apply Hall|]. by intros <-.
    + rewrite lookup_insert_eq. eauto.
Qed.

Lemma registerProvider_cases fn s r s' :
  registerProvider fn s = Done (r, s') →
  (∃ e, r = Some e ∧ s' = s) ∨
  (r = None ∧ s' = s ∧ default false (functions (boot s) !! vPointer fn) = true) ∨
  (default false (functions (boot s) !! vPointer fn) = false ∧
   newProvider fn (setBoot (markFunction (vPointer fn) (boot s)) s) = Done (r, s')).
Proof.
  unfold registerProvider. intros Hreg.
  apply bind_Done in Hreg as (typ & _ & Hreg).
  destruct (checkInjectInTypes _ "input") as [e|]; [simplify_eq; eauto|].
  destruct (checkInjectInTypes _ "output") as [e|]; [simplify_eq; eauto|].
  destruct (default false _) eqn:Hfn; [simplify_eq; eauto|eauto].
Qed.

Lemma add_wellFormed fn s r s' :
  add fn s = Done (r, s') → wellFormed s → wellFormed s'.
Proof.
  unfold add. intros Hadd Hwf.
  apply bind_Done in Hadd as (typ & _ & Hadd).
  case_decide.
  { apply registerProvider_cases in Hadd as [(e & -> & ->)|[(-> & -> & _)|[_ Hnew]]];
      [done|done|]. by apply newProvider_wellFormed in Hnew. }
  case_decide; [|by simplify_eq].
  apply bind_Done in Hadd as ([|] & _ & Hadd); [by simplify_eq|].
  destruct (_ && _).
  - apply bind_Done in Hadd as (? & _ & Hadd). by apply newProvider_wellFormed in Hadd.
  - apply bind_Done in Hadd as (? & _ & Hadd). by apply newProvider_wellFormed in Hadd.
Qed.

Lemma addAll_wellFormed constructors : ∀ s s',
  addAll constructors s = Done s' → wellFormed s → wellFormed s'.
Proof.
  induction constructors as [|c cs IH]; intros s s' Hadd Hwf; simpl in Hadd.
  - by simplify_eq.
  - apply bind_Done in Hadd as ([[e|] s1] & Hc & Hrest).
    + simplify_eq. by apply add_wellFormed in Hc.
    + eapply IH; [done|]. by eapply add_wellFormed.
Qed.

(** [Add] keeps the registered nodes allocated and distinct, and [New]
    makes them so. *)
Lemma Add_wellFormed constructors s s' :
  Add constructors s = Done s' → wellFormed s → wellFormed s'.
Proof.
  unfold Add. destruct (err (boot s)); [by intros ?; simplify_eq|].
  apply addAll_wellFormed.
Qed.

Lemma New_wellFormed hp w tr s : New hp w tr = Done s → wellFormed s.
Proof.
  intros Hnew. eapply Add_wellFormed; [exact Hnew|].
  split; simpl; [constructor|]. intros p Hp. by apply elem_of_nil in Hp.
Qed.

End registration.

(** ** The errors of Resolve *)

Section resolve_errors.
Context `{Runtime}.
Variable heap : gmap NodePtr Node.

Lemma produced_lookup nodes producers k :
  mapProducers heap nodes = inr producers →
  produced heap nodes k ↔ is_Some (producers !! k).
Proof.
  intros HP. unfold produced. rewrite list_elem_of_fmap. split.
  - intros ([k' m] & -> & Hin). exists m. by apply (mapProducers_lookup heap nodes).
  - intros [m Hm]. exists (k, m). split; [done|].
    by apply (mapProducers_lookup heap nodes producers).
Qed.

Lemma produced_by nodes k :
  produced heap nodes k ↔ ∃ m, m ∈ nodes ∧ k ∈ Outputs (heap !!! m).
Proof.
  unfold produced. rewrite list_elem_of_fmap. split.
  - intros ([k' m] & -> & Hin). apply elem_of_declaredOutputs in Hin. eauto.
  - intros (m & Hm & Hk). exists (k, m). split; [done|].
    by apply elem_of_declaredOutputs.
Qed.

(** Step 2 succeeds exactly when every declared input key has a
    producer. *)
Lemma buildDeps_succeeds nodes producers :
  mapProducers heap nodes = inr producers →
  (∃ deps, buildDeps heap producers nodes = inr deps) ↔ allResolved heap nodes.
Proof.
  intros HP. rewrite buildDeps_flat. unfold allResolved. rewrite Forall_forall. split.
  - intros [deps Hdeps] [n k] Hin. apply addDependencies_ok in Hdeps as [Hall _].
    apply (produced_lookup nodes producers); [done|]. by apply (Hall n).
  - intros Hall. apply addDependencies_total. intros p Hp.
    apply (produced_lookup nodes producers); [done|]. by apply Hall.
Qed.

(** The three errors are told apart by how their messages begin. *)
Lemma duplicateProvider_not_missing out existing n in_ m :
  duplicateProvider heap out existing n ≠ missingDependency heap in_ m.
Proof. unfold duplicateProvider, missingDependency. intros Heq. discriminate Heq. Qed.

Lemma duplicateProvider_not_cycle out existing n cycleNodes :
  duplicateProvider heap out existing n ≠ cyclicDependence heap cycleNodes.
Proof. unfold duplicateProvider, cyclicDependence. intros Heq. discriminate Heq. Qed.

Lemma missingDependency_not_cycle in_ n cycleNodes :
  missingDependency heap in_ n ≠ cyclicDependence heap cycleNodes.
Proof. unfold missingDependency, cyclicDependence. intros Heq. discriminate Heq. Qed.

(** The error of step 1 is that of the first output key that is met a
    second time, with the node that declared it first. *)
Lemma mapProducers_fails nodes e :
  mapProducers heap nodes = inl e →
  ∃ pre out n post existing,
    declaredOutputs heap nodes = pre ++ (out, n) :: post ∧
    NoDup pre.*1 ∧ (out, existing) ∈ pre ∧
    e = duplicateProvider heap out existing n.
Proof.
  rewrite mapProducers_flat.
  intros (pre & out & n & post & existing & P1 & Heq & Hpre & Hex & ->)%insertProducers_fail.
  apply insertProducers_ok in Hpre as (Hnd & _ & Hlook).
  exists pre, out, n, post, existing. split_and!; try done.
  apply Hlook in Hex as [Hex|Hex]; [|done]. by rewrite lookup_empty in Hex.
Qed.

(** The error of step 2 is that of the first input key that has no
    producer. *)
Lemma buildDeps_fails nodes producers e :
  mapProducers heap nodes = inr producers →
  buildDeps heap producers nodes = inl e →
  ∃ pre n k post,
    declaredInputs heap nodes = pre ++ (n, k) :: post ∧
    Forall (fun p => produced heap nodes p.2) pre ∧
    ¬ produced heap nodes k ∧
    e = missingDependency heap k n.
Proof.
  intros HP. rewrite buildDeps_flat.
  intros (pre & n & k & post & Heq & Hpre & Hk & ->)%addDependencies_fail.
  exists pre, n, k, post. split_and!; try done.
  - apply Forall_forall. intros p Hp. apply (produced_lookup nodes producers); [done|].
    by apply Hpre.
  - rewrite (produced_lookup nodes producers) by done. rewrite Hk. by intros [??].
Qed.

(** [Resolve] succeeds exactly when no output key is declared twice, every
    input key has a producer, and no node depends on itself through the
    others. *)
Lemma Resolve_succeeds nodes :
  (∃ sorted, Resolve heap nodes = Some (inr sorted)) ↔
  uniqueProducers heap nodes ∧ allResolved heap nodes ∧
  ∀ x, ¬ tc (dependsOn heap nodes) x x.
Proof.
  split.
  - intros [sorted Hres].
    destruct (Resolve_cases heap nodes)
      as [(e & _ & He)|[(P & e & _ & _ & He)|(P & deps & HP & HD & _)]];
      [congruence|congruence|].
    split_and!.
    + apply mapProducers_succeeds. eauto.
    + apply (buildDeps_succeeds nodes P HP). eauto.
    + intros x Hcycle. apply Resolve_sorted in Hres as (_ & Hiff & Hord & _).
      apply (ordered_acyclic (dependsOn heap nodes) sorted x); [done| |done].
      apply Hiff.
      assert (∃ z, dependsOn heap nodes x z) as [z (Hx & _)] by (inversion Hcycle; eauto).
      done.
  - intros ([P HP]%mapProducers_succeeds & Hres & Hacyclic).
    apply (buildDeps_succeeds nodes P HP) in Hres as [deps HD].
    destruct (Resolve_returns heap nodes) as [[e|sorted] Hr]; [|eauto].
    exfalso.
    destruct (Resolve_cases heap nodes)
      as [(e' & ? & _)|[(P' & e' & ? & ? & _)|(P' & deps' & HP' & HD' & Hsort)]];
      [congruence|congruence|].
    rewrite Hr in Hsort. symmetry in Hsort.
    apply topologicalSort_cycle in Hsort as (y & mid & _ & Hchain).
    apply (Hacyclic y), (chain_tc _ mid).
    intros i a b Ha Hb. apply (resolved_edges heap nodes P' deps' a b HP' HD').
    by eapply Hchain.
Qed.

End resolve_errors.

(** ** The claims about Resolve *)

Section resolve_claims.
Context `{Runtime}.
Variable heap : gmap NodePtr Node.

(** C1: when [Resolve] succeeds, the sequence it returns is a topological
    order.  It holds the nodes of the list, each once; every node comes
    strictly after every node it depends on; and every input key of a node
    is an output key of a node that comes strictly before it. *)
Theorem Resolve_topological_order nodes sorted :
  Resolve heap nodes = Some (inr sorted) →
  NoDup sorted ∧ (∀ n, n ∈ sorted ↔ n ∈ nodes) ∧
  ordered (dependsOn heap nodes) sorted ∧
  ∀ i n k, sorted !! i = Some n → k ∈ Inputs (heap !!! n) →
    ∃ j m, j < i ∧ sorted !! j = Some m ∧ k ∈ Outputs (heap !!! m).
Proof.
  intros (Hnd & Hiff & Hord & _ & Hres)%Resolve_sorted.
  split_and!; try done.
  intros i n k Hi Hk.
  assert (n ∈ nodes) as Hn by (apply Hiff; by eapply list_elem_of_lookup_2).
  destruct (Hres n k Hn Hk) as (m & Hm & Hout).
  destruct (Hord i n m Hi) as (j & Hj & Hlook); [|eauto].
  split_and!; eauto.
Qed.

(** C4, as amended: when no output key is declared twice and every input
    key has a producer, a list of nodes whose dependency relation has a
    cycle makes [Resolve] fail with the error of a cycle.  The message
    is "cyclic dependence: " and the labels, joined by " -> ", of a path of
    the relation that starts at the node that was met again and ends at
    that node. *)
Theorem Resolve_reports_cycle nodes x :
  uniqueProducers heap nodes → allResolved heap nodes →
  tc (dependsOn heap nodes) x x →
  ∃ y mid,
    Resolve heap nodes = Some (inl (cyclicDependence heap (y :: mid ++ [y]))) ∧
    chain (dependsOn heap nodes) (y :: mid ++ [y]) ∧
    Error (cyclicDependence heap (y :: mid ++ [y])) =
      "cyclic dependence: " +:+ Join (nodeLabel heap <$> y :: mid ++ [y]) " -> ".
Proof.
  intros [P HP]%mapProducers_succeeds Hres Hcycle.
  apply (buildDeps_succeeds heap nodes P HP) in Hres as [deps HD].
  destruct (Resolve_cases heap nodes) as [(e & ? & _)|[(P' & e & ? & ? & _)|(P' & deps' & HP' & HD' & Hsort)]];
    [congruence|congruence|].
  assert (P' = P) as -> by congruence. assert (deps' = deps) as -> by congruence.
  assert (Hedges : ∀ a b, edge deps a b ↔ dependsOn heap nodes a b)
    by (intros a b; by apply (resolved_edges heap nodes P deps)).
  destruct (Resolve_returns heap nodes) as [[e|sorted] Hr].
  - rewrite Hr in Hsort. symmetry in Hsort.
    apply topologicalSort_cycle in Hsort as (y & mid & -> & Hchain).
    exists y, mid. split_and!; [done| |done].
    intros i a b Ha Hb. apply Hedges. by eapply Hchain.
  - exfalso. apply Resolve_sorted in Hr as (_ & Hiff & Hord & _).
    apply (ordered_acyclic (dependsOn heap nodes) sorted x); [done| |done].
    apply Hiff.
    assert (∃ z, dependsOn heap nodes x z) as [z (Hx & _)] by (inversion Hcycle; eauto).
    done.
Qed.

End resolve_claims.

Lemma Resolve_topological_order_witness :
  @Resolve sample.runtime sample.chainHeap [3; 1; 2]%positive
    = Some (inr [2; 1; 3]%positive) ∧
  NoDup [2; 1; 3]%positive ∧
  ∀ i n k, [2; 1; 3]%positive !! i = Some n →
    k ∈ Inputs (sample.chainHeap !!! n) →
    ∃ j m, j < i ∧ [2; 1; 3]%positive !! j = Some m ∧
           k ∈ Outputs (sample.chainHeap !!! m).
Proof.
  assert (Hres : @Resolve sample.runtime sample.chainHeap [3; 1; 2]%positive
                 = Some (inr [2; 1; 3]%positive)) by (vm_compute; reflexivity).
  split; [exact Hres|].
  destruct (@Resolve_topological_order sample.runtime sample.chainHeap
              [3; 1; 2]%positive [2; 1; 3]%positive Hres) as (Hnd & _ & _ & Hin).
  split; [exact Hnd|exact Hin].
Defined.

(** C4, as it was stated, fails: node 1 depends on itself, and [Resolve]
    returns the error of the input key of node 2 that no node gives. *)
Lemma cycle_behind_missing_dependency :
  tc (dependsOn sample.loopHeap [1; 2]%positive) 1%positive 1%positive ∧
  @Resolve sample.runtime sample.loopHeap [1; 2]%positive
    = Some (inl (@missingDependency sample.runtime sample.loopHeap 8 2)) ∧
  ∀ cycleNodes,
    @Resolve sample.runtime sample.loopHeap [1; 2]%positive
      ≠ Some (inl (@cyclicDependence sample.runtime sample.loopHeap cycleNodes)).
Proof.
  assert (Hres : @Resolve sample.runtime sample.loopHeap [1; 2]%positive
            = Some (inl (@missingDependency sample.runtime sample.loopHeap 8 2)))
    by (vm_compute; reflexivity).
  split_and!; [|exact Hres|].
  - apply tc_once. split_and!; [set_solver|set_solver|].
    exists 7%positive. split; vm_compute; set_solver.
  - intros cycleNodes Hcycle. rewrite Hres in Hcycle.
    apply (inj Some), (inj inl) in Hcycle.
    exact (@missingDependency_not_cycle sample.runtime sample.loopHeap 8 2
             cycleNodes Hcycle).
Qed.

Lemma Resolve_reports_cycle_witness :
  ∃ y mid,
    @Resolve sample.runtime sample.cycleHeap [1; 2]%positive
      = Some (inl (@cyclicDependence sample.runtime sample.cycleHeap (y :: mid ++ [y]))) ∧
    chain (dependsOn sample.cycleHeap [1; 2]%positive) (y :: mid ++ [y]).
Proof.
  destruct (@Resolve_reports_cycle sample.runtime sample.cycleHeap [1; 2]%positive 1%positive)
    as (y & mid & Hres & Hchain & _).
  - apply (bool_decide_unpack _). vm_compute. exact I.
  - apply (bool_decide_unpack _). vm_compute. exact I.
  - apply (tc_l _ 1%positive 2%positive 1%positive); [|apply tc_once].
    + split_and!; [set_solver|set_solver|].
      exists 2%positive. split; vm_compute; set_solver.
    + split_and!; [set_solver|set_solver|].
      exists 1%positive. split; vm_compute; set_solver.
  - exists y, mid. split; [exact Hres|exact Hchain].
Defined.

(** ** Run *)

Section run.
Context `{Runtime} `{Program}.

Lemma Run_recorded_error s e :
  err (boot s) = Some e → Run s = Done (Some e, s).
Proof. unfold Run. by intros ->. Qed.

(** An error of [Resolve] is returned before any node is executed. *)
Lemma Run_resolve_error s e :
  err (boot s) = None →
  Resolve (heap s) (providers (boot s)) = Some (inl e) →
  Run s = Done (Some e, s).
Proof. unfold Run. by intros -> ->. Qed.

Lemma Run_sorted s sorted :
  err (boot s) = None →
  Resolve (heap s) (providers (boot s)) = Some (inr sorted) →
  Run s = executeAll sorted s.
Proof. unfold Run. by intros -> ->. Qed.

(** [Run] stops at the first node a fallible return of which holds an
    error, when [IsNil] can be asked of the fallible returns: it returns
    the error, with the container as the nodes before left it. *)
Lemma Run_stops_at_error s sorted pre p post s1 args results w e :
  err (boot s) = None →
  Resolve (heap s) (providers (boot s)) = Some (inr sorted) →
  sorted = pre ++ p :: post →
  executeAll pre s = Done (None, s1) →
  gatherArgs (values (boot s1)) (Inputs (heap s1 !!! p)) = inr args →
  callFn (Fn (heap s1 !!! p)) args (world s1) = (results, w) →
  checkErrorReturns (ErrorIndices (heap s1 !!! p)) results = Done (Some e) →
  Run s = Done (Some e, {| boot := boot s1; heap := heap s1; world := w;
                           trace := trace s1 ++ [CallFn p args] |}).
Proof.
  intros Herr Hres -> Hpre Hargs Hcall Hcheck.
  rewrite (Run_sorted s _ Herr Hres), executeAll_app, Hpre. simpl.
  unfold execute. rewrite Hargs, Hcall, Hcheck. done.
Qed.

(** The registration of a cleanup asks [IsNil] of the kinds that have
    one: it does not panic. *)
Lemma registerCleanup_Done res cl : ∃ cl', registerCleanup res cl = Done cl'.
Proof.
  unfold registerCleanup, IsNil. destruct (IsValid res); [|eauto].
  destruct (ValueKind res); simpl; eauto;
    destruct (vIsNil res); simpl; eauto; destruct (vCleanable res); eauto.
Qed.

Lemma storeResults_Done p results : ∀ i outputIdx b,
  ∃ b', storeResults p i outputIdx results b = Done b'.
Proof.
  induction results as [|res results IH]; intros i outputIdx b; simpl; [eauto|].
  case_bool_decide; [apply IH|].
  destruct (Outputs p !! outputIdx); [|apply IH].
  destruct (registerCleanup_Done res (cleanups b)) as [cl ->]. simpl. apply IH.
Qed.

Lemma checkErrorReturns_returns errorIndices results :
  checkErrorReturns errorIndices results ≠ Diverged.
Proof.
  induction errorIndices as [|idx idxs IH]; simpl; [done|].
  destruct (results !! idx) as [v|]; [|done].
  unfold IsNil. destruct (nillable _); simpl; [|done].
  destruct (vIsNil v); [done|]. by destruct (vError v).
Qed.

Lemma execute_returns p s : execute p s ≠ Diverged.
Proof.
  unfold execute. destruct (gatherArgs _ _); [done|].
  destruct (callFn _ _ _) as [results w].
  pose proof (checkErrorReturns_returns (ErrorIndices (heap s !!! p)) results) as Hcheck.
  destruct (checkErrorReturns _ results) as [[e|]| |]; simpl; try done.
  match goal with
  | |- context [storeResults ?n ?i ?j ?rs ?b] =>
      destruct (storeResults_Done n rs i j b) as [b' ->]
  end.
  done.
Qed.

Lemma executeAll_returns sorted : ∀ s, executeAll sorted s ≠ Diverged.
Proof.
  induction sorted as [|p sorted IH]; intros s; simpl; [done|].
  pose proof (execute_returns p s) as Hexec.
  destruct (execute p s) as [[[e|] s']| |]; simpl; done.
Qed.

(** [Run] returns or panics: the recursion of [Resolve] is not cut. *)
Lemma Run_returns s : Run s ≠ Diverged.
Proof.
  unfold Run. destruct (err (boot s)); [done|].
  destruct (Resolve_returns (heap s) (providers (boot s))) as [[e|sorted] ->]; [done|].
  apply executeAll_returns.
Qed.

Lemma occurrences_absent (p : NodePtr) l : p ∉ l → occurrences p l = 0.
Proof.
  unfold occurrences. induction l as [|x l IH]; intros Hp; [done|].
  rewrite filter_cons. apply not_elem_of_cons in Hp as [Hne Hp].
  case_decide; [by subst|]. by apply IH.
Qed.

Lemma occurrences_NoDup (p : NodePtr) l :
  NoDup l → occurrences p l ≤ 1 ∧ (p ∈ l → occurrences p l = 1).
Proof.
  induction 1 as [|x l Hx Hnd [IHle IHin]].
  - split; [unfold occurrences; simpl; lia|]. by intros ?%elem_of_nil.
  - unfold occurrences in *. rewrite filter_cons. case_decide as Hxp; simpl.
    + subst x. pose proof (occurrences_absent p l Hx) as Hzero.
      unfold occurrences in Hzero. rewrite Hzero. split; [lia|done].
    + split; [done|]. intros [?|?]%elem_of_cons; [by subst|]. by apply IHin.
Qed.

Lemma occurrences_app (p : NodePtr) l1 l2 :
  occurrences p (l1 ++ l2) = occurrences p l1 + occurrences p l2.
Proof. unfold occurrences. by rewrite filter_app, length_app. Qed.

End run.

(** ** The claims about Run and Cleanup *)

Section container_claims.
Context `{Runtime} `{Program}.

(** C3, as amended: [Resolve] fails with the error of a duplicate provider
    exactly when, during the producer mapping, an output key is already
    mapped to a node, a different node or the node itself (a node that
    declares the key twice).  The error then names the key that is first
    met a second time, the node that declared it before, and the node that
    declares it again, and [Run] returns it and leaves the container as it
    was.  Two different nodes that declare the same output key are such a
    case. *)
Theorem duplicate_provider_error s :
  err (boot s) = None →
  ((∃ out existing n,
      Resolve (heap s) (providers (boot s))
        = Some (inl (duplicateProvider (heap s) out existing n))) ↔
   ¬ uniqueProducers (heap s) (providers (boot s))) ∧
  (¬ uniqueProducers (heap s) (providers (boot s)) →
   ∃ pre out n post existing,
     declaredOutputs (heap s) (providers (boot s)) = pre ++ (out, n) :: post ∧
     NoDup pre.*1 ∧ (out, existing) ∈ pre ∧
     Resolve (heap s) (providers (boot s))
       = Some (inl (duplicateProvider (heap s) out existing n)) ∧
     Run s = Done (Some (duplicateProvider (heap s) out existing n), s)) ∧
  (∀ a b k, a ≠ b → a ∈ providers (boot s) → b ∈ providers (boot s) →
     k ∈ Outputs (heap s !!! a) → k ∈ Outputs (heap s !!! b) →
     ¬ uniqueProducers (heap s) (providers (boot s))).
Proof.
  intros Herr. set (nodes := providers (boot s)).
  assert (Hfail : ¬ uniqueProducers (heap s) nodes →
    ∃ pre out n post existing,
      declaredOutputs (heap s) nodes = pre ++ (out, n) :: post ∧
      NoDup pre.*1 ∧ (out, existing) ∈ pre ∧
      Resolve (heap s) nodes = Some (inl (duplicateProvider (heap s) out existing n))).
  { intros Hdup.
    destruct (Resolve_cases (heap s) nodes)
      as [(e & HP & Hres)|[(P & e & HP & _)|(P & deps & HP & _)]].
    - apply mapProducers_fails in HP as (pre & out & n & post & existing & ? & ? & ? & ->).
      by exists pre, out, n, post, existing.
    - destruct Hdup. apply mapProducers_succeeds. eauto.
    - destruct Hdup. apply mapProducers_succeeds. eauto. }
  split_and!.
  - split; [|intros (? & out & n & ? & existing & _ & _ & _ & ?)%Hfail; eauto].
    intros (out & existing & n & Hres) [P HP]%mapProducers_succeeds.
    destruct (Resolve_cases (heap s) nodes)
      as [(e & HP' & _)|[(P' & e & HP' & HD & Hres')|(P' & deps & _ & _ & Hsort)]].
    + congruence.
    + apply buildDeps_fails in HD as (? & ? & ? & ? & _ & _ & _ & ->); [|done].
      rewrite Hres in Hres'. simplify_eq.
    + rewrite Hres in Hsort. symmetry in Hsort.
      apply topologicalSort_cycle in Hsort as (? & ? & Heq & _).
      by apply duplicateProvider_not_cycle in Heq.
  - intros (pre & out & n & post & existing & ? & ? & ? & Hres)%Hfail.
    exists pre, out, n, post, existing. split_and!; try done.
    by apply Run_resolve_error.
  - intros a b k Hab Ha Hb Hka Hkb Hnd. apply Hab.
    apply (declaredOutputs_functional (heap s) nodes k); [done| |];
      by apply elem_of_declaredOutputs.
Qed.

(** C6, as amended: an error of [Resolve], whichever it is, is returned by
    [Run] before any constructor is called, and the container is left as
    it was.  A node that declares an input key that no node of the list
    gives makes [Resolve] fail; when no output key is declared twice, the
    error is that of a missing dependency, and it names the first input
    key, in the order of the declarations, that no node gives, and the
    node that declares it. *)
Theorem missing_dependency_error s :
  err (boot s) = None →
  (∀ e, Resolve (heap s) (providers (boot s)) = Some (inl e) →
     Run s = Done (Some e, s)) ∧
  (∀ n k, n ∈ providers (boot s) → k ∈ Inputs (heap s !!! n) →
     ¬ produced (heap s) (providers (boot s)) k →
     ∃ e, Resolve (heap s) (providers (boot s)) = Some (inl e) ∧
          (uniqueProducers (heap s) (providers (boot s)) →
           ∃ pre n' k' post,
             declaredInputs (heap s) (providers (boot s)) = pre ++ (n', k') :: post ∧
             Forall (fun p => produced (heap s) (providers (boot s)) p.2) pre ∧
             ¬ produced (heap s) (providers (boot s)) k' ∧
             e = missingDependency (heap s) k' n')).
Proof.
  intros Herr. split; [intros e; by apply Run_resolve_error|].
  intros n k Hn Hk Hmissing. set (nodes := providers (boot s)) in *.
  destruct (Resolve_cases (heap s) nodes)
    as [(e & HP & Hres)|[(P & e & HP & HD & Hres)|(P & deps & HP & HD & _)]].
  - exists e. split; [done|]. intros [P HP']%mapProducers_succeeds. congruence.
  - exists e. split; [done|]. intros _.
    by apply (buildDeps_fails (heap s) nodes P).
  - destruct Hmissing. apply (produced_lookup (heap s) nodes P k HP).
    by apply (buildDeps_resolved (heap s) P nodes deps n).
Qed.

(** C10: a node whose execution returns an error leaves the cache and the
    cleanup list as they were.  The error is either the internal one of an
    argument that is not in the cache, and then the constructor was not
    called, or the error that a fallible return of the constructor holds,
    and then nothing that the constructor returned was stored. *)
Theorem failing_node_stores_nothing p s e s' :
  execute p s = Done (Some e, s') →
  boot s' = boot s ∧
  values (boot s') = values (boot s) ∧
  cleanups (boot s') = cleanups (boot s) ∧
  (s' = s ∨
   ∃ args results w idx errVal,
     callFn (Fn (heap s !!! p)) args (world s) = (results, w) ∧
     idx ∈ ErrorIndices (heap s !!! p) ∧
     results !! idx = Some errVal ∧ vError errVal = Some e ∧
     s' = {| boot := boot s; heap := heap s; world := w;
             trace := trace s ++ [CallFn p args] |}).
Proof.
  intros [(e' & _ & _ & ->)|(args & results & w & _ & Hcall & Hcheck & ->)]%execute_error;
    [by split_and!; try left|].
  split_and!; try done. right.
  apply checkErrorReturns_Some in Hcheck as (pre & idx & post & errVal & Heq & _ & ? & _ & ?).
  exists args, results, w, idx, errVal. split_and!; try done.
  rewrite Heq. apply elem_of_app. right. left.
Qed.

(** C5: [Cleanup] cancels the context, then calls every cleanup of the
    list once, from the last that was appended to the first, whatever the
    cleanups return.  It returns nil when none of them returned an error,
    and otherwise one error, whose message holds the message of every
    error that was returned. *)
Theorem Cleanup_calls_all_in_reverse s :
  ∃ returns w,
    cleanupReturns (reverse (cleanups (boot s))) (world s) = (returns, w) ∧
    length returns = length (cleanups (boot s)) ∧
    (Cleanup s).2 =
      {| boot := boot s; heap := heap s; world := w;
         trace := trace s ++ CallCancel (cancel (boot s))
                    :: (CallCleanup <$> reverse (cleanups (boot s))) |} ∧
    calledCleanups (CallCancel (cancel (boot s))
                      :: (CallCleanup <$> reverse (cleanups (boot s))))
      = reverse (cleanups (boot s)) ∧
    (failures returns = [] → (Cleanup s).1 = None) ∧
    (failures returns ≠ [] →
     (Cleanup s).1
       = Some (errorString ("cleanup errors: " +:+ formatErrors (failures returns))) ∧
     ∀ e, e ∈ failures returns →
       mentions ("cleanup errors: " +:+ formatErrors (failures returns)) (Error e)).
Proof.
  destruct (cleanupReturns (reverse (cleanups (boot s))) (world s))
    as [returns w] eqn:Hreturns.
  exists returns, w. unfold Cleanup. rewrite runCleanups_returns, Hreturns. simpl.
  split_and!.
  - done.
  - pose proof (cleanupReturns_length (reverse (cleanups (boot s))) (world s)) as Hlen.
    rewrite Hreturns in Hlen. simpl in Hlen. by rewrite Hlen, length_reverse.
  - rewrite <-app_assoc. simpl. by case_decide.
  - change (calledCleanups (CallCleanup <$> reverse (cleanups (boot s)))
            = reverse (cleanups (boot s))).
    apply calledCleanups_cleanups.
  - intros Hnone. rewrite Hnone. case_decide as Hlen; [simpl in Hlen; lia|done].
  - intros Hfail. case_decide as Hlen.
    + split; [done|]. intros e He.
      apply (mentions_append "cleanup errors: [" "]" (Join (Error <$> failures returns) " ")).
      apply Join_mentions. apply list_elem_of_fmap. eauto.
    + destruct (failures returns); [done|]. simpl in Hlen. lia.
Qed.

End container_claims.

(** ** The claims about Add *)

Section registration_claims.
Context `{Runtime} `{Program}.

Lemma add_err fn s r s' : add fn s = Done (r, s') → err (boot s') = err (boot s).
Proof.
  assert (Hnew : ∀ fn t r t', newProvider fn t = Done (r, t') →
            err (boot t') = err (boot t)).
  { intros fn' t r' t' (_ & _ & [(? & _ & -> & _)|(? & _ & _ & -> & _)])%newProvider_cases; done. }
  unfold add. intros Hadd.
  apply bind_Done in Hadd as (typ & _ & Hadd).
  case_decide.
  { apply registerProvider_cases in Hadd as [(e & -> & ->)|[(-> & -> & _)|[_ Hn]]];
      [done|done|]. by apply Hnew in Hn. }
  case_decide; [|by simplify_eq].
  apply bind_Done in Hadd as ([|] & _ & Hadd); [by simplify_eq|].
  destruct (_ && _); apply bind_Done in Hadd as (? & _ & Hadd); by apply Hnew in Hadd.
Qed.

Lemma addAll_app_ok cs1 cs2 : ∀ s s1,
  addAll cs1 s = Done s1 → err (boot s) = None → err (boot s1) = None →
  addAll (cs1 ++ cs2) s = addAll cs2 s1.
Proof.
  induction cs1 as [|c cs1 IH]; intros s s1 Hadd Herr Herr1; simpl in *.
  - by simplify_eq.
  - apply bind_Done in Hadd as ([[e|] s'] & Hc & Hrest); rewrite Hc; simpl.
    + by simplify_eq.
    + apply IH; [done| |done]. apply add_err in Hc. congruence.
Qed.

(** The errors of a registration: an argument that is neither a function
    nor a pointer, a nil pointer, and a function an input or an output of
    which embeds [Inject]. *)
Lemma add_not_callable fn typ s :
  vType fn = Some typ → tKind (rtypes typ) ≠ Func → tKind (rtypes typ) ≠ Ptr →
  add fn s = Done (Some (errorString "argument must be a function or pointer"), s).
Proof.
  intros Htyp Hfunc Hptr. unfold add, TypeOfValue. rewrite Htyp. simpl.
  by rewrite !decide_False.
Qed.

Lemma add_nil_target fn typ s :
  vType fn = Some typ → tKind (rtypes typ) = Ptr → vIsNil fn = true →
  add fn s = Done (Some (errorString "argument must not be nil"), s).
Proof.
  intros Htyp Hptr Hnil. unfold add, TypeOfValue, IsNil, ValueKind.
  rewrite Htyp. simpl. rewrite decide_False by congruence.
  rewrite decide_True by done. rewrite Hptr. simpl. by rewrite Hnil.
Qed.

Lemma add_prohibited_input fn typ e s :
  vType fn = Some typ → tKind (rtypes typ) = Func →
  checkInjectInTypes (tIn (rtypes typ)) "input" = Some e →
  add fn s = Done (Some e, s).
Proof.
  intros Htyp Hfunc Hcheck. unfold add, registerProvider, TypeOfValue.
  rewrite Htyp. simpl. rewrite decide_True by done. by rewrite Hcheck.
Qed.

Lemma add_prohibited_output fn typ e s :
  vType fn = Some typ → tKind (rtypes typ) = Func →
  checkInjectInTypes (tIn (rtypes typ)) "input" = None →
  checkInjectInTypes (tOut (rtypes typ)) "output" = Some e →
  add fn s = Done (Some e, s).
Proof.
  intros Htyp Hfunc Hin Hout. unfold add, registerProvider, TypeOfValue.
  rewrite Htyp. simpl. rewrite decide_True by done. by rewrite Hin, Hout.
Qed.

(** C7: when a constructor of an [Add] call fails to register, the call
    records the error and registers nothing after it; every later [Add]
    call leaves the container as it is; and [Run] returns the recorded
    error and leaves the container as it is: it resolves and executes
    nothing. *)
Theorem recorded_error_stops_Add_and_Run s cs1 c cs2 s1 s2 e :
  err (boot s) = None →
  addAll cs1 s = Done s1 → err (boot s1) = None →
  add c s1 = Done (Some e, s2) →
  ∃ s3,
    Add (cs1 ++ c :: cs2) s = Done s3 ∧
    err (boot s3) = Some e ∧
    providers (boot s3) = providers (boot s2) ∧
    (∀ more, Add more s3 = Done s3) ∧
    Run s3 = Done (Some e, s3).
Proof.
  intros Herr Hcs1 Herr1 Hc.
  exists (setBoot (setErr (Some e) (boot s2)) s2). split_and!.
  - unfold Add. rewrite Herr, (addAll_app_ok cs1 (c :: cs2) s s1) by done.
    simpl. by rewrite Hc.
  - done.
  - done.
  - intros more. by unfold Add.
  - by apply Run_recorded_error.
Qed.

Lemma add_function_again fn s s1 :
  ValueKind fn = Func → add fn s = Done (None, s1) →
  add fn s1 = Done (None, s1).
Proof.
  unfold ValueKind, add, registerProvider, TypeOfValue.
  destruct (vType fn) as [typ|] eqn:Htyp; [|done]. simpl.
  intros Hkind. rewrite !decide_True by done.
  destruct (checkInjectInTypes _ "input"); [done|].
  destruct (checkInjectInTypes _ "output"); [done|].
  destruct (default false (functions (boot s) !! vPointer fn)) eqn:Hfn.
  - intros ?; simplify_eq. by rewrite Hfn.
  - intros (_ & _ & [(? & ? & _)|(? & _ & _ & Hb & _)])%newProvider_cases; [done|].
    rewrite Hb. simpl. by rewrite lookup_insert_eq.
Qed.

(** C8: to register the same function twice is to register it once.  The
    second [Add] leaves the container as the first made it.  When the
    first [Add] registers the function, a node of this function is in the
    container once; it is once in the order that [Resolve] returns; and
    [Run] calls it at most once, and once when it returns no error. *)
Theorem Add_same_function_twice fn s s1 :
  ValueKind fn = Func → wellFormed s →
  default false (functions (boot s) !! vPointer fn) = false →
  Add [fn] s = Done s1 → err (boot s1) = None →
  Add [fn] s1 = Done s1 ∧
  ∃ p,
    Fn (heap s1 !!! p) = fn ∧
    providers (boot s1) = providers (boot s) ++ [p] ∧
    occurrences p (providers (boot s1)) = 1 ∧
    (∀ sorted, Resolve (heap s1) (providers (boot s1)) = Some (inr sorted) →
       occurrences p sorted = 1) ∧
    (∀ r s2, Run s1 = Done (r, s2) →
       ∃ tr, trace s2 = trace s1 ++ tr ∧
             occurrences p (calledNodes tr) ≤ 1 ∧
             (r = None → occurrences p (calledNodes tr) = 1)).
Proof.
  intros Hkind Hwf Hnew Hadd Herr1.
  pose proof (Add_wellFormed _ _ _ Hadd Hwf) as [Hnd1 Hall1].
  unfold Add in Hadd. destruct (err (boot s)) eqn:Herr; [by simplify_eq|].
  simpl in Hadd. apply bind_Done in Hadd as ([[e|] s'] & Hc & Hrest); simplify_eq.
  split.
  { unfold Add. rewrite Herr1. simpl. by rewrite (add_function_again fn s s1). }
  assert (Hreg : registerProvider fn s = Done (None, s1)).
  { unfold add, ValueKind, TypeOfValue in *. destruct (vType fn); [|done].
    simpl in Hc. by rewrite decide_True in Hc. }
  apply registerProvider_cases in Hreg as [(? & ? & _)|[(_ & _ & ?)|[_ Hreg]]];
    [done|congruence|].
  apply newProvider_cases in Hreg as (_ & _ & [(? & ? & _)|(node & _ & Hfn & Hb & Hh)]);
    [done|].
  set (p := fresh (dom (heap s))) in *. exists p.
  assert (Hp : p ∈ providers (boot s1)).
  { rewrite Hb. simpl. apply elem_of_app. right. left. }
  split_and!.
  - by rewrite Hh, lookup_total_insert_eq.
  - by rewrite Hb.
  - by apply occurrences_NoDup.
  - intros sorted (Hnd & Hiff & _)%Resolve_sorted.
    apply occurrences_NoDup; [done|]. by apply Hiff.
  - intros r s2 Hrun. unfold Run in Hrun. rewrite Herr1 in Hrun.
    destruct (Resolve (heap s1) (providers (boot s1))) as [[e|sorted]|] eqn:Hres; [| |done].
    { simplify_eq. exists []. rewrite app_nil_r. split_and!; [done| |done].
      unfold occurrences. simpl. lia. }
    apply Resolve_sorted in Hres as (Hnd & Hiff & _).
    destruct r as [e|].
    + apply executeAll_error in Hrun
        as (pre & q & post & s3 & -> & _ & _ & _ & tr & Htr & Hcalled).
      exists tr. split_and!; [done| |done].
      apply occurrences_NoDup.
      apply NoDup_app in Hnd as (Hpre & Hq & Hpost).
      destruct Hcalled as [-> | ->]; [done|].
      apply NoDup_app. split_and!; [done| |apply NoDup_singleton].
      intros x Hx ->%list_elem_of_singleton. apply (Hq q Hx). left.
    + apply executeAll_ok in Hrun as (_ & tr & Htr & Hcalled & _).
      exists tr. rewrite Hcalled. split_and!; [done| |intros _].
      * by apply occurrences_NoDup.
      * apply occurrences_NoDup; [done|]. by apply Hiff.
Qed.

End registration_claims.

(** ** The claims on the sample programs *)

(** C2, where the code fails: the constructor at code pointer 3 returns a
    [MyErr], a struct that implements [error].  Its return is fallible and
    holds an error, but [IsNil] panics on a struct, and so does [Run]. *)
Theorem Run_panics_on_struct_error :
  ∃ s errVal,
    sample.container [sample.function 12 3] = Done s ∧
    @Resolve sample.runtime (heap s) (providers (boot s))
      = Some (inr [1; 2]%positive) ∧
    ErrorIndices (heap s !!! 2%positive) = [0] ∧
    (@callFn sample.program (Fn (heap s !!! 2%positive)) [] (1%nat : @World sample.program)).1 !! 0
      = Some errVal ∧
    vError errVal = Some (errorString "struct error") ∧
    @ValueKind sample.runtime errVal = Struct ∧
    @Run sample.runtime sample.program s = Panicked.
Proof.
  eexists _, _. split_and!; [vm_compute; reflexivity..].
Qed.

(** The same program with a constructor whose fallible return is of the
    interface [error]: [Run] returns the error it holds. *)
Example Run_returns_interface_error :
  ∃ s s',
    sample.container [sample.function 10 1; sample.function 11 2] = Done s ∧
    @Run sample.runtime sample.program s = Done (Some (errorString "boom"), s') ∧
    calledNodes (trace s') = [1; 2; 3]%positive ∧
    cleanups (boot s') = [77%N].
Proof.
  eexists _, _. split_and!; [vm_compute; reflexivity..].
Qed.

(** C3, as it was stated, fails: the error of a duplicate provider with
    one node only, that declares key 7 twice. *)
Lemma duplicate_provider_of_one_node :
  @Resolve sample.runtime sample.twiceHeap [1]%positive
    = Some (inl (@duplicateProvider sample.runtime sample.twiceHeap 7 1 1)) ∧
  ¬ ∃ a b k, a ≠ b ∧ a ∈ [1]%positive ∧ b ∈ [1]%positive ∧
             k ∈ Outputs (sample.twiceHeap !!! a) ∧
             k ∈ Outputs (sample.twiceHeap !!! b).
Proof.
  split; [vm_compute; reflexivity|].
  intros (a & b & k & Hab & Ha & Hb & _).
  apply list_elem_of_singleton in Ha, Hb. congruence.
Qed.

Lemma duplicate_provider_error_witness :
  err (boot (sample.state sample.twiceHeap [1]%positive)) = None ∧
  ∃ out existing n,
    @Run sample.runtime sample.program (sample.state sample.twiceHeap [1]%positive)
      = Done (Some (@duplicateProvider sample.runtime sample.twiceHeap out existing n),
              sample.state sample.twiceHeap [1]%positive).
Proof.
  split; [reflexivity|].
  destruct (@duplicate_provider_error sample.runtime sample.program
              (sample.state sample.twiceHeap [1]%positive) eq_refl)
    as (_ & Hfail & _).
  destruct Hfail as (pre & out & n & post & existing & _ & _ & _ & _ & Hrun).
  - apply (bool_decide_eq_false _). vm_compute. reflexivity.
  - exists out, existing, n. exact Hrun.
Defined.

(** C6, as it was stated, fails: node 3 declares the input key 8, that no
    node gives, and [Resolve] returns the error of the output key 7, that
    nodes 1 and 2 both declare. *)
Lemma missing_dependency_behind_duplicate :
  3%positive ∈ [1; 2; 3]%positive ∧
  8%positive ∈ Inputs (sample.clashHeap !!! 3%positive) ∧
  ¬ produced sample.clashHeap [1; 2; 3]%positive 8 ∧
  @Resolve sample.runtime sample.clashHeap [1; 2; 3]%positive
    = Some (inl (@duplicateProvider sample.runtime sample.clashHeap 7 1 2)) ∧
  ∀ k n, @Resolve sample.runtime sample.clashHeap [1; 2; 3]%positive
           ≠ Some (inl (@missingDependency sample.runtime sample.clashHeap k n)).
Proof.
  assert (Hres : @Resolve sample.runtime sample.clashHeap [1; 2; 3]%positive
            = Some (inl (@duplicateProvider sample.runtime sample.clashHeap 7 1 2)))
    by (vm_compute; reflexivity).
  split_and!; [set_solver|vm_compute; set_solver| |exact Hres|].
  - apply (bool_decide_eq_false _). vm_compute. reflexivity.
  - intros k n Hmissing. rewrite Hres in Hmissing.
    apply (inj Some), (inj inl) in Hmissing.
    exact (@duplicateProvider_not_missing sample.runtime sample.clashHeap 7 1 2 k n Hmissing).
Qed.

Lemma missing_dependency_error_witness :
  err (boot (sample.state sample.loopHeap [1; 2]%positive)) = None ∧
  @Run sample.runtime sample.program (sample.state sample.loopHeap [1; 2]%positive)
    = Done (Some (@missingDependency sample.runtime sample.loopHeap 8 2),
            sample.state sample.loopHeap [1; 2]%positive).
Proof.
  split; [reflexivity|].
  destruct (@missing_dependency_error sample.runtime sample.program
              (sample.state sample.loopHeap [1; 2]%positive) eq_refl)
    as (Hrun & _).
  apply Hrun. vm_compute. reflexivity.
Defined.

Lemma recorded_error_stops_Add_and_Run_witness :
  ∃ s3,
    @Add sample.runtime sample.program
      ([] ++ sample.function 6 9 :: [sample.function 10 1]) (sample.state ∅ [])
      = Done s3 ∧
    err (boot s3) = Some (errorString "argument must be a function or pointer") ∧
    providers (boot s3) = [] ∧
    @Run sample.runtime sample.program s3
      = Done (Some (errorString "argument must be a function or pointer"), s3).
Proof.
  destruct (@recorded_error_stops_Add_and_Run sample.runtime sample.program
              (sample.state ∅ []) [] (sample.function 6 9) [sample.function 10 1]
              (sample.state ∅ []) (sample.state ∅ [])
              (errorString "argument must be a function or pointer"))
    as (s3 & Hadd & Herr & Hproviders & _ & Hrun);
    [reflexivity|reflexivity|reflexivity|vm_compute; reflexivity|].
  exists s3. split_and!; [exact Hadd|exact Herr|exact Hproviders|exact Hrun].
Defined.

Lemma failing_node_stores_nothing_witness :
  ∃ s',
    @execute sample.runtime sample.program 2%positive sample.configured
      = Done (Some (errorString "boom"), s') ∧
    values (boot s') = values (boot sample.configured) ∧
    cleanups (boot s') = cleanups (boot sample.configured).
Proof.
  assert (Hexec : ∃ s', @execute sample.runtime sample.program 2%positive sample.configured
                          = Done (Some (errorString "boom"), s'))
    by (eexists; vm_compute; reflexivity).
  destruct Hexec as [s' Hexec]. exists s'.
  destruct (@failing_node_stores_nothing sample.runtime sample.program
              2%positive sample.configured (errorString "boom") s' Hexec)
    as (_ & Hvalues & Hcleanups & _).
  split_and!; [exact Hexec|exact Hvalues|exact Hcleanups].
Defined.

Lemma Add_same_function_twice_witness :
  ∃ s1,
    @Add sample.runtime sample.program [sample.function 10 1] (sample.state ∅ [])
      = Done s1 ∧
    @Add sample.runtime sample.program [sample.function 10 1] s1 = Done s1 ∧
    ∃ p, occurrences p (providers (boot s1)) = 1.
Proof.
  assert (Hadd : ∃ s1,
            @Add sample.runtime sample.program [sample.function 10 1] (sample.state ∅ [])
              = Done s1 ∧ err (boot s1) = None)
    by (eexists; split; vm_compute; reflexivity).
  destruct Hadd as (s1 & Hadd & Herr). exists s1.
  destruct (@Add_same_function_twice sample.runtime sample.program
              (sample.function 10 1) (sample.state ∅ []) s1)
    as (Hagain & p & _ & _ & Honce & _).
  - vm_compute. reflexivity.
  - split; [constructor|]. intros q Hq. by apply elem_of_nil in Hq.
  - reflexivity.
  - exact Hadd.
  - exact Herr.
  - split_and!; [exact Hadd|exact Hagain|]. exists p. exact Honce.
Defined.

(** ** Resolve and the addresses of the nodes *)

Section relabelling.
Context `{Runtime}.
Variable σ : NodePtr → NodePtr.
Context `{!Inj (=) (=) σ}.
Variable heap : gmap NodePtr Node.

Lemma for_range_relabel {S S' X X' : Type} (f : S → S') (g : X → X')
    (body : X → S → error + S) (body' : X' → S' → error + S') xs :
  (∀ x s, x ∈ xs → body' (g x) (f s) = sum_map id f (body x s)) →
  ∀ s, for_range body' (g <$> xs) (f s) = sum_map id f (for_range body xs s).
Proof.
  induction xs as [|x xs IH]; intros Hbody s; simpl; [done|].
  rewrite Hbody by left. destruct (body x s) as [e|s1]; simpl; [done|].
  apply IH. intros y t Hy. apply Hbody. by right.
Qed.

Lemma for_range_fuel_relabel {S S' X X' : Type} (f : S → S') (g : X → X')
    (body : X → S → option (error + S)) (body' : X' → S' → option (error + S')) xs :
  (∀ x s, body' (g x) (f s) = sum_map id f <$> body x s) →
  ∀ s, for_range_fuel body' (g <$> xs) (f s)
       = sum_map id f <$> for_range_fuel body xs s.
Proof.
  intros Hbody. induction xs as [|x xs IH]; intros s; simpl; [done|].
  rewrite Hbody. destruct (body x s) as [[e|s1]|]; simpl; [done| |done]. apply IH.
Qed.

Lemma range_fuel_relabel {S S' X X' : Type} (f : S → S') (g : X → X')
    (body : X → S → option S) (body' : X' → S' → option S') xs :
  (∀ x s, body' (g x) (f s) = f <$> body x s) →
  ∀ s, range_fuel body' (g <$> xs) (f s) = f <$> range_fuel body xs s.
Proof.
  intros Hbody. induction xs as [|x xs IH]; intros s; simpl; [done|].
  rewrite Hbody. destruct (body x s) as [s1|]; simpl; [|done]. apply IH.
Qed.

Lemma relabel_lookup {A : Type} (m : gmap NodePtr A) n :
  kmap (M2 := gmap NodePtr) σ m !! σ n = m !! n.
Proof. by apply (lookup_kmap σ). Qed.

Lemma relabel_insert {A : Type} (m : gmap NodePtr A) n x :
  kmap (M2 := gmap NodePtr) σ (<[n := x]> m) = <[σ n := x]> (kmap σ m).
Proof. by apply (kmap_insert σ). Qed.

Lemma relabel_delete {A : Type} (m : gmap NodePtr A) n :
  kmap (M2 := gmap NodePtr) σ (delete n m) = delete (σ n) (kmap σ m).
Proof. by apply (kmap_delete σ). Qed.

Lemma relabelHeap_lookup n : relabelHeap σ heap !!! σ n = heap !!! n.
Proof. unfold relabelHeap. by apply (lookup_total_kmap σ). Qed.

Lemma nodeLabel_relabel n : nodeLabel (relabelHeap σ heap) (σ n) = nodeLabel heap n.
Proof. unfold nodeLabel. by rewrite relabelHeap_lookup. Qed.

Lemma cyclicDependence_relabel l :
  cyclicDependence (relabelHeap σ heap) (σ <$> l) = cyclicDependence heap l.
Proof.
  unfold cyclicDependence. do 3 f_equal. rewrite <-list_fmap_compose.
  apply list_fmap_ext. intros i x _. apply nodeLabel_relabel.
Qed.

Lemma mapProducers_relabel nodes :
  mapProducers (relabelHeap σ heap) (σ <$> nodes)
  = sum_map id (fmap σ) (mapProducers heap nodes).
Proof.
  unfold mapProducers. rewrite <-(fmap_empty σ).
  apply (for_range_relabel (fmap σ) σ). intros n P _.
  rewrite relabelHeap_lookup. rewrite <-(list_fmap_id (Outputs (heap !!! n))) at 1.
  apply (for_range_relabel (fmap σ) id). intros out P' _.
  unfold addProducer. simpl. rewrite lookup_fmap.
  destruct (P' !! out) as [existing|] eqn:Hout; simpl.
  - unfold duplicateProvider. by rewrite !nodeLabel_relabel.
  - by rewrite fmap_insert.
Qed.

Lemma depsOf_relabel deps n :
  depsOf (relabelDeps σ deps) (σ n) = σ <$> depsOf deps n.
Proof.
  unfold depsOf, relabelDeps. rewrite relabel_lookup, lookup_fmap.
  by destruct (deps !! n).
Qed.

Lemma buildDeps_relabel producers nodes :
  buildDeps (relabelHeap σ heap) (σ <$> producers) (σ <$> nodes)
  = sum_map id (relabelDeps σ) (buildDeps heap producers nodes).
Proof.
  unfold buildDeps.
  replace (∅ : gmap positive (list positive)) with (relabelDeps σ ∅) at 1
    by (unfold relabelDeps; by rewrite fmap_empty, kmap_empty).
  apply (for_range_relabel (relabelDeps σ) σ). intros n deps _.
  rewrite relabelHeap_lookup. rewrite <-(list_fmap_id (Inputs (heap !!! n))) at 1.
  apply (for_range_relabel (relabelDeps σ) id). intros in_ deps' _.
  unfold addDependency. simpl. rewrite lookup_fmap.
  destruct (producers !! in_) as [prod|] eqn:Hin; simpl.
  - rewrite depsOf_relabel. unfold relabelDeps.
    by rewrite fmap_insert, relabel_insert, fmap_app.
  - unfold missingDependency. by rewrite nodeLabel_relabel.
Qed.

Lemma elem_of_relabel (V : gset NodePtr) n : σ n ∈ (set_map σ V : gset NodePtr) ↔ n ∈ V.
Proof.
  rewrite elem_of_map. split; [|eauto].
  intros (m & Heq & Hm). by apply (inj σ) in Heq as ->.
Qed.

Lemma checkVisit_relabel deps fuel : ∀ n s,
  checkVisit (relabelHeap σ heap) (relabelDeps σ deps) fuel (σ n) (relabelCycleState σ s)
  = sum_map id (relabelCycleState σ) <$> checkVisit heap deps fuel n s.
Proof.
  induction fuel as [|fuel IH]; intros n s; simpl; [done|].
  rewrite relabel_lookup. destruct (cInStack s !! n) as [idx|]; simpl.
  { by rewrite <-fmap_drop, <-(fmap_app σ _ [n]), cyclicDependence_relabel. }
  rewrite (decide_ext _ _ _ _ (elem_of_relabel (cVisited s) n)).
  case_decide; [done|].
  rewrite depsOf_relabel, length_fmap.
  match goal with
  | |- context [for_range_fuel _ _ ?s1'] =>
      match goal with
      | |- context [for_range_fuel (checkVisit heap deps fuel) _ ?s1] =>
          change s1' with (relabelCycleState σ s1) ||
          replace s1' with (relabelCycleState σ s1)
            by (unfold relabelCycleState; simpl; by rewrite relabel_insert, fmap_app)
      end
  end.
  rewrite (for_range_fuel_relabel (relabelCycleState σ) σ
             (checkVisit heap deps fuel)) by apply IH.
  match goal with
  | |- context [for_range_fuel ?b ?ms ?s1] =>
      destruct (for_range_fuel b ms s1) as [[e|s2]|]; simpl; try done
  end.
  do 2 f_equal. unfold relabelCycleState. simpl.
  by rewrite set_map_union_L, set_map_singleton_L, relabel_delete, length_fmap, fmap_take.
Qed.

Lemma sortVisit_relabel deps fuel : ∀ n t,
  sortVisit (relabelDeps σ deps) fuel (σ n) (relabelSortState σ t)
  = relabelSortState σ <$> sortVisit deps fuel n t.
Proof.
  induction fuel as [|fuel IH]; intros n t; simpl; [done|].
  rewrite (decide_ext _ _ _ _ (elem_of_relabel (tVisited t) n)).
  case_decide; [done|].
  rewrite depsOf_relabel.
  rewrite (range_fuel_relabel (relabelSortState σ) σ (sortVisit deps fuel)) by apply IH.
  destruct (range_fuel (sortVisit deps fuel) (depsOf deps n) t) as [t1|]; simpl; [|done].
  f_equal. unfold relabelSortState. simpl.
  by rewrite set_map_union_L, set_map_singleton_L, fmap_app.
Qed.

Lemma topologicalSort_relabel deps fuel nodes :
  topologicalSort (relabelHeap σ heap) fuel (σ <$> nodes) (relabelDeps σ deps)
  = relabelResult σ (topologicalSort heap fuel nodes deps).
Proof.
  unfold topologicalSort, checkCycles.
  replace emptyCycleState with (relabelCycleState σ emptyCycleState)
    by (unfold relabelCycleState, emptyCycleState; simpl;
        by rewrite set_map_empty, kmap_empty).
  rewrite (for_range_fuel_relabel (relabelCycleState σ) σ (checkRoot heap deps fuel)).
  2:{ intros n s. unfold checkRoot. simpl.
      rewrite (decide_ext _ _ _ _ (elem_of_relabel (cVisited s) n)).
      case_decide; [done|]. apply checkVisit_relabel. }
  destruct (for_range_fuel (checkRoot heap deps fuel) nodes
              (relabelCycleState σ emptyCycleState)) as [[e|u]|] eqn:Hcheck.
  all: replace (relabelCycleState σ emptyCycleState) with emptyCycleState in Hcheck
    by (unfold relabelCycleState, emptyCycleState; simpl;
        by rewrite set_map_empty, kmap_empty).
  all: rewrite Hcheck; simpl; try done.
  replace emptySortState with (relabelSortState σ emptySortState) at 1
    by (unfold relabelSortState, emptySortState; simpl; by rewrite set_map_empty).
  rewrite (range_fuel_relabel (relabelSortState σ) σ (sortRoot deps fuel)).
  2:{ intros n t. unfold sortRoot. simpl.
      rewrite (decide_ext _ _ _ _ (elem_of_relabel (tVisited t) n)).
      case_decide; [done|]. apply sortVisit_relabel. }
  by destruct (range_fuel (sortRoot deps fuel) nodes emptySortState).
Qed.

(** C9: [Resolve] is a function of the list of nodes, in the order of the
    registration, and of nothing else: not of the fuel that the recursion
    is given, when it is enough, and not of the addresses at which the
    nodes are allocated.  Two runs on the same nodes in the same order,
    at addresses that [σ] maps to one another, return the same order of
    the same nodes, or the same error. *)
Theorem Resolve_deterministic nodes :
  Resolve (relabelHeap σ heap) (σ <$> nodes) = relabelResult σ (Resolve heap nodes) ∧
  ∀ fuel r, ResolveFuel heap fuel nodes = Some r → Resolve heap nodes = Some r.
Proof.
  split; [|intros fuel r; apply Resolve_any_fuel].
  unfold Resolve, ResolveFuel. rewrite length_fmap, mapProducers_relabel.
  destruct (mapProducers heap nodes) as [e|producers]; simpl; [done|].
  rewrite buildDeps_relabel.
  destruct (buildDeps heap producers nodes) as [e|deps]; simpl; [done|].
  apply topologicalSort_relabel.
Qed.

End relabelling.

Lemma Resolve_deterministic_witness :
  @Resolve sample.runtime (relabelHeap Pos.succ sample.chainHeap)
    (Pos.succ <$> [3; 1; 2]%positive)
  = relabelResult Pos.succ
      (@Resolve sample.runtime sample.chainHeap [3; 1; 2]%positive).
Proof.
  assert (Hinj : Inj (=) (=) Pos.succ) by (intros a b; apply Pos.succ_inj).
  exact (proj1 (@Resolve_deterministic sample.runtime Pos.succ Hinj
                  sample.chainHeap [3; 1; 2]%positive)).
Defined.

(** ** The tests of the repository, on the sample programs *)

(** Cleanup Order: the cleanups run from the last node to the first, and
    the failure of one is in the error. *)
Example test_cleanup_order :
  sample.outcome [sample.function 10 1; sample.function 15 4]
  = Done (None, [1; 2; 3]%positive,
          Some (errorString "cleanup errors: [close failed]"), [78%N; 77%N]).
Proof. vm_compute. reflexivity. Qed.

(** The order is that of the dependencies, not that of the registration. *)
Example test_order_of_dependencies :
  sample.outcome [sample.function 15 4; sample.function 10 1]
  = Done (None, [1; 3; 2]%positive,
          Some (errorString "cleanup errors: [close failed]"), [78%N; 77%N]).
Proof. vm_compute. reflexivity. Qed.

(** Duplicate Context Provider. *)
Example test_duplicate_context_provider :
  sample.outcome [sample.function 13 101]
  = Done (Some (errorString
            "duplicate provider for type context.Context: bootstrap.go:37 and main.provider101"),
          [], None, []).
Proof. vm_compute. reflexivity. Qed.

(** Duplicate Providers (Deduplication). *)
Example test_deduplication :
  sample.outcome [sample.function 10 1; sample.function 10 1]
  = Done (None, [1; 2]%positive,
          Some (errorString "cleanup errors: [close failed]"), [77%N]).
Proof. vm_compute. reflexivity. Qed.

(** Delayed Add Error. *)
Example test_delayed_add_error :
  sample.outcome [sample.function 6 9; sample.function 10 1]
  = Done (Some (errorString "argument must be a function or pointer"), [], None, []).
Proof. vm_compute. reflexivity. Qed.

(** Missing Dependency. *)
Example test_missing_dependency :
  sample.outcome [sample.function 15 4]
  = Done (Some (errorString "missing dependency for type *Config in main.provider4"),
          [], None, []).
Proof. vm_compute. reflexivity. Qed.

(** Error Position Last: the [*Config] is made, the [*Service] is not, and
    the cleanup of the [*Config] is still to be run. *)
Example test_error_return :
  sample.outcome [sample.function 10 1; sample.function 11 2]
  = Done (Some (errorString "boom"), [1; 2; 3]%positive,
          Some (errorString "cleanup errors: [close failed]"), [77%N]).
Proof. vm_compute. reflexivity. Qed.

(** Population: Basic Population, Missing Dependency, Nil Pointer. *)
Example test_population :
  sample.outcome [sample.function 10 1; sample.pointer 20 900]
  = Done (None, [1; 2; 3]%positive,
          Some (errorString "cleanup errors: [close failed]"), [77%N]).
Proof. vm_compute. reflexivity. Qed.

Example test_population_missing :
  sample.outcome [sample.pointer 20 900]
  = Done (Some (errorString "missing dependency for type *Config in reflect.makeFuncStub"),
          [], None, []).
Proof. vm_compute. reflexivity. Qed.

Example test_nil_pointer :
  sample.outcome [sample.pointer 1 0]
  = Done (Some (errorString "argument must not be nil"), [], None, []).
Proof. vm_compute. reflexivity. Qed.

(** Struct Injection: the fields of a struct that embeds [Inject] are the
    inputs of its node, but [Inject] and the fields that are not
    exported. *)
Example test_struct_injection :
  (s ← sample.container [sample.function 10 1; sample.pointer 21 901];
   mret (Inputs (heap s !!! 3%positive), Outputs (heap s !!! 3%positive)))
  = Done ([1%positive], []).
Proof. vm_compute. reflexivity. Qed.

(** Provider Returns Struct With Inject. *)
Example test_prohibited_output :
  sample.outcome [sample.function 16 5]
  = Done (Some (errorString
            "provider output type *NeedInject embeds bootstrap.Inject, which is prohibited"),
          [], None, []).
Proof. vm_compute. reflexivity. Qed.


(** * Further properties *)

(** ** Resolve: the depth of the recursion, the outcomes, the order of the list *)

Section resolve_outcomes.
Context `{Runtime}.
Variable heap : gmap NodePtr Node.

Lemma dependsOn_Permutation nodes nodes' a b :
  nodes ≡ₚ nodes' → dependsOn heap nodes a b → dependsOn heap nodes' a b.
Proof.
  intros Hperm (Ha & Hb & Hk). split_and!; [by rewrite <-Hperm|by rewrite <-Hperm|done].
Qed.

Lemma tc_dependsOn_Permutation nodes nodes' a b :
  nodes ≡ₚ nodes' → tc (dependsOn heap nodes) a b → tc (dependsOn heap nodes') a b.
Proof.
  intros Hperm Htc. induction Htc as [a b Hab|a c b Hac _ IH].
  - apply tc_once. by eapply dependsOn_Permutation.
  - eapply tc_l; [|done]. by eapply dependsOn_Permutation.
Qed.

Lemma declaredOutputs_Permutation nodes nodes' :
  nodes ≡ₚ nodes' → declaredOutputs heap nodes ≡ₚ declaredOutputs heap nodes'.
Proof. intros Hperm. unfold declaredOutputs. by rewrite Hperm. Qed.

Lemma declaredInputs_Permutation nodes nodes' :
  nodes ≡ₚ nodes' → declaredInputs heap nodes ≡ₚ declaredInputs heap nodes'.
Proof. intros Hperm. unfold declaredInputs. by rewrite Hperm. Qed.

Lemma resolvable_Permutation nodes nodes' :
  nodes ≡ₚ nodes' →
  uniqueProducers heap nodes ∧ allResolved heap nodes ∧
    (∀ x, ¬ tc (dependsOn heap nodes) x x) →
  uniqueProducers heap nodes' ∧ allResolved heap nodes' ∧
    (∀ x, ¬ tc (dependsOn heap nodes') x x).
Proof.
  intros Hperm (Huniq & Hres & Hacyclic). split_and!.
  - unfold uniqueProducers. by rewrite <-(declaredOutputs_Permutation nodes nodes').
  - unfold allResolved. rewrite <-(declaredInputs_Permutation nodes nodes') by done.
    eapply Forall_impl; [exact Hres|]. intros p. unfold produced.
    by rewrite <-(declaredOutputs_Permutation nodes nodes').
  - intros x Hx. apply (Hacyclic x). by apply (tc_dependsOn_Permutation nodes' nodes).
Qed.

(** X1: the recursion of the two passes of [Resolve] is never deeper than
    the number of nodes.  With any bound on the depth that is above the
    length of the list, both passes return, and they return what [Resolve]
    returns. *)
Theorem Resolve_depth_bounded fuel nodes :
  length nodes < fuel →
  ∃ r, ResolveFuel heap fuel nodes = Some r ∧ Resolve heap nodes = Some r.
Proof.
  intros Hfuel. destruct (Resolve_returns heap nodes) as [r Hr]. exists r.
  split; [|done]. apply (ResolveFuel_mono heap (S (length nodes))); [lia|done].
Qed.

(** X2: the outcomes of [Resolve] are four, told apart by the list alone.
    It returns an order when no output key is declared twice, every input
    key has a producer and the dependencies have no cycle; the error of a
    duplicate provider when an output key is declared twice, whatever else
    is wrong; the error of a missing dependency when no output key is
    declared twice and an input key has no producer, cycle or not; and the
    error of a cycle only when the first two hold. *)
Theorem Resolve_outcome_table nodes :
  (∃ sorted, Resolve heap nodes = Some (inr sorted) ∧
     uniqueProducers heap nodes ∧ allResolved heap nodes ∧
     ∀ x, ¬ tc (dependsOn heap nodes) x x) ∨
  (∃ out existing n,
     Resolve heap nodes = Some (inl (duplicateProvider heap out existing n)) ∧
     ¬ uniqueProducers heap nodes ∧
     existing ∈ nodes ∧ out ∈ Outputs (heap !!! existing) ∧
     n ∈ nodes ∧ out ∈ Outputs (heap !!! n)) ∨
  (∃ k n,
     Resolve heap nodes = Some (inl (missingDependency heap k n)) ∧
     uniqueProducers heap nodes ∧ ¬ allResolved heap nodes ∧
     n ∈ nodes ∧ k ∈ Inputs (heap !!! n) ∧ ¬ produced heap nodes k) ∨
  (∃ y mid,
     Resolve heap nodes = Some (inl (cyclicDependence heap (y :: mid ++ [y]))) ∧
     uniqueProducers heap nodes ∧ allResolved heap nodes ∧
     tc (dependsOn heap nodes) y y).
Proof.
  destruct (Resolve_cases heap nodes)
    as [(e & HP & He)|[(P & e & HP & HD & He)|(P & deps & HP & HD & Hsort)]].
  - right. left.
    pose proof HP as (pre & out & n & post & existing & Heq & _ & Hex & ->)%mapProducers_fails.
    exists out, existing, n. split; [done|].
    assert ((out, existing) ∈ declaredOutputs heap nodes) as [??]%elem_of_declaredOutputs
      by (rewrite Heq; apply elem_of_app; by left).
    assert ((out, n) ∈ declaredOutputs heap nodes) as [??]%elem_of_declaredOutputs
      by (rewrite Heq; apply elem_of_app; right; left).
    split_and!; try done.
    intros [P HP']%mapProducers_succeeds. congruence.
  - right. right. left.
    pose proof HD as (pre & n & k & post & Heq & _ & Hk & ->)%buildDeps_fails; [|done].
    exists k, n. split; [done|].
    assert ((n, k) ∈ declaredInputs heap nodes) as [??]%elem_of_declaredInputs
      by (rewrite Heq; apply elem_of_app; right; left).
    split_and!; try done.
    + apply mapProducers_succeeds. eauto.
    + intros [deps HD']%(buildDeps_succeeds heap nodes P HP). congruence.
  - assert (uniqueProducers heap nodes) as Huniq by (apply mapProducers_succeeds; eauto).
    assert (allResolved heap nodes) as Hres
      by (apply (buildDeps_succeeds heap nodes P HP); eauto).
    destruct (Resolve_returns heap nodes) as [[e|sorted] Hr].
    + right. right. right. rewrite Hr in Hsort. symmetry in Hsort.
      apply topologicalSort_cycle in Hsort as (y & mid & -> & Hchain).
      exists y, mid. split_and!; try done.
      apply (chain_tc _ mid). intros i a b Ha Hb.
      apply (resolved_edges heap nodes P deps a b HP HD). by eapply Hchain.
    + left. exists sorted. split; [done|].
      apply Resolve_succeeds. eauto.
Qed.

(** X3: the order in which the nodes are registered does not decide
    whether [Resolve] succeeds, and when it does, the two orders that it
    returns hold the same nodes. *)
Theorem Resolve_registration_order nodes nodes' :
  nodes ≡ₚ nodes' →
  ((∃ sorted, Resolve heap nodes = Some (inr sorted)) ↔
   (∃ sorted', Resolve heap nodes' = Some (inr sorted'))) ∧
  (∀ sorted sorted',
     Resolve heap nodes = Some (inr sorted) →
     Resolve heap nodes' = Some (inr sorted') → sorted ≡ₚ sorted').
Proof.
  intros Hperm. split.
  - rewrite !Resolve_succeeds. split; apply resolvable_Permutation; done.
  - intros sorted sorted' (Hnd & Hiff & _)%Resolve_sorted (Hnd' & Hiff' & _)%Resolve_sorted.
    apply NoDup_Permutation; [done|done|].
    intros n. by rewrite Hiff, Hiff', Hperm.
Qed.

End resolve_outcomes.

Lemma Resolve_depth_bounded_witness :
  length [3; 1; 2]%positive < 10 ∧
  ∃ r, @ResolveFuel sample.runtime sample.chainHeap 10 [3; 1; 2]%positive = Some r ∧
       @Resolve sample.runtime sample.chainHeap [3; 1; 2]%positive = Some r.
Proof.
  split; [simpl; lia|].
  apply (@Resolve_depth_bounded sample.runtime sample.chainHeap 10 [3; 1; 2]%positive).
  simpl. lia.
Defined.

Lemma Resolve_registration_order_witness :
  [3; 1; 2]%positive ≡ₚ [1; 2; 3]%positive ∧
  ((∃ sorted, @Resolve sample.runtime sample.chainHeap [3; 1; 2]%positive
                = Some (inr sorted)) ↔
   (∃ sorted', @Resolve sample.runtime sample.chainHeap [1; 2; 3]%positive
                 = Some (inr sorted'))).
Proof.
  assert ([3; 1; 2]%positive ≡ₚ [1; 2; 3]%positive) as Hperm.
  { exact (Permutation_cons_append [1; 2]%positive 3%positive). }
  split; [exact Hperm|].
  exact (proj1 (@Resolve_registration_order sample.runtime sample.chainHeap
                  [3; 1; 2]%positive [1; 2; 3]%positive Hperm)).
Defined.

(** ** execute: the arguments, the panics, what is stored *)

Section execute_steps.
Context `{Runtime} `{Program}.

Lemma registerCleanup_cleanupOf res cl :
  registerCleanup res cl = Done (cl ++ option_list (cleanupOf res)).
Proof.
  unfold registerCleanup, cleanupOf, IsNil.
  destruct (IsValid res); [|by rewrite app_nil_r].
  destruct (ValueKind res); simpl;
    destruct (vIsNil res), (vCleanable res); simpl; by rewrite ?app_nil_r.
Qed.

Lemma storeResults_stored p results : ∀ i outputIdx b,
  storeResults p i outputIdx results b =
  Done (stored (zip (drop outputIdx (Outputs p))
                    (nonErrorResults (ErrorIndices p) i results)) b).
Proof.
  induction results as [|res results IH]; intros i j b; simpl.
  { rewrite zip_with_nil_r. unfold stored, storeAll. simpl. rewrite app_nil_r. by destruct b. }
  case_bool_decide; [apply IH|].
  destruct (Outputs p !! j) as [outType|] eqn:Hout.
  - rewrite registerCleanup_cleanupOf. simpl. rewrite IH.
    rewrite (drop_S _ _ _ Hout). simpl. unfold stored. simpl. f_equal. f_equal.
    rewrite <-app_assoc. by destruct (cleanupOf res).
  - rewrite IH. apply lookup_ge_None in Hout. by rewrite !drop_ge by lia.
Qed.

Lemma storeAll_lookup pairs : ∀ vals k,
  k ∉ pairs.*1 → storeAll pairs vals !! k = vals !! k.
Proof.
  induction pairs as [|[k' v'] pairs IH]; intros vals k Hk; [done|].
  rewrite fmap_cons, not_elem_of_cons in Hk. destruct Hk as [Hne Hk].
  unfold storeAll. simpl. fold (storeAll pairs (<[k' := v']> vals)).
  rewrite IH by done. by rewrite lookup_insert_ne.
Qed.

Lemma storeAll_lookup_Some pairs : ∀ vals k v,
  NoDup pairs.*1 → (k, v) ∈ pairs → storeAll pairs vals !! k = Some v.
Proof.
  induction pairs as [|[k' v'] pairs IH]; intros vals k v Hnd Hin.
  { by apply elem_of_nil in Hin. }
  rewrite fmap_cons in Hnd. apply NoDup_cons in Hnd as [Hk' Hnd].
  unfold storeAll. simpl. fold (storeAll pairs (<[k' := v']> vals)).
  apply elem_of_cons in Hin as [Heq|Hin].
  - simplify_eq. rewrite storeAll_lookup by done. apply lookup_insert_eq.
  - by apply IH.
Qed.

Lemma storeAll_is_Some pairs : ∀ vals k,
  is_Some (storeAll pairs vals !! k) ↔ is_Some (vals !! k) ∨ k ∈ pairs.*1.
Proof.
  induction pairs as [|[k' v'] pairs IH]; intros vals k.
  { simpl. rewrite elem_of_nil. tauto. }
  unfold storeAll. simpl. fold (storeAll pairs (<[k' := v']> vals)).
  rewrite IH, lookup_insert_is_Some, elem_of_cons. simpl.
  destruct (decide (k' = k)); naive_solver.
Qed.

Lemma gatherArgs_inr vals ins : ∀ args,
  gatherArgs vals ins = inr args ↔ Forall2 (fun k v => vals !! k = Some v) ins args.
Proof.
  induction ins as [|k ins IH]; intros args; simpl.
  - split; [intros ?; simplify_eq; constructor|by intros ->%Forall2_nil_inv_l].
  - destruct (vals !! k) as [val|] eqn:Hk.
    + destruct (gatherArgs vals ins) as [e|args'] eqn:Hrest.
      * split; [done|]. intros (v & args' & _ & Hargs & ->)%Forall2_cons_inv_l.
        by apply IH in Hargs.
      * split.
        -- intros ?; simplify_eq. constructor; [done|by apply IH].
        -- intros (v & args'' & Hv & Hargs & ->)%Forall2_cons_inv_l.
           apply IH in Hargs. by simplify_eq.
    + split; [done|]. intros (v & args' & Hv & _)%Forall2_cons_inv_l. congruence.
Qed.

Lemma gatherArgs_inl vals ins e :
  gatherArgs vals ins = inl e ↔
  ∃ pre k post, ins = pre ++ k :: post ∧
    Forall (fun k' => is_Some (vals !! k')) pre ∧ vals !! k = None ∧
    e = errorString ("internal error: missing value for type " +:+ typeString k).
Proof.
  revert e. induction ins as [|k0 ins IH]; intros e; simpl.
  { split; [done|]. intros (pre & ? & ? & ? & _). by destruct pre. }
  destruct (vals !! k0) as [val|] eqn:Hk.
  - destruct (gatherArgs vals ins) as [e'|args'] eqn:Hrest.
    + split.
      * intros ?; simplify_eq.
        destruct (proj1 (IH e) eq_refl) as (pre & k & post & -> & Hpre & Hnone & ->).
        exists (k0 :: pre), k, post. split_and!; try done. constructor; eauto.
      * intros (pre & k & post & Heq & Hpre & Hnone & ->).
        destruct pre as [|k1 pre]; simpl in Heq; simplify_eq.
        apply Forall_cons in Hpre as [_ Hpre].
        assert (inl e' = inl (errorString ("internal error: missing value for type "
                  +:+ typeString k)) :> (error + list Value)) as Heq; [|by simplify_eq].
        apply IH. by exists pre, k, post.
    + split; [done|]. intros (pre & k & post & Heq & Hpre & Hnone & ->).
      destruct pre as [|k1 pre]; simpl in Heq; simplify_eq.
      apply Forall_cons in Hpre as [_ Hpre].
      assert (inr args' = inl (errorString ("internal error: missing value for type "
                +:+ typeString k)) :> (error + list Value)); [|done].
      apply IH. by exists pre, k, post.
  - split.
    + intros ?; simplify_eq. exists [], k0, ins. split_and!; try done.
    + intros (pre & k & post & Heq & Hpre & Hnone & ->).
      destruct pre as [|k1 pre]; simpl in Heq; simplify_eq; [done|].
      apply Forall_cons in Hpre as [[? ?] _]. congruence.
Qed.


(** The three ways in which [execute] returns. *)
Lemma execute_cases p s r s' :
  execute p s = Done (r, s') →
  (∃ e, gatherArgs (values (boot s)) (Inputs (heap s !!! p)) = inl e ∧
        r = Some e ∧ s' = s) ∨
  (∃ args, gatherArgs (values (boot s)) (Inputs (heap s !!! p)) = inr args ∧
     let call := callFn (Fn (heap s !!! p)) args (world s) in
     (∃ e, checkErrorReturns (ErrorIndices (heap s !!! p)) call.1 = Done (Some e) ∧
           r = Some e ∧
           s' = {| boot := boot s; heap := heap s; world := call.2;
                   trace := trace s ++ [CallFn p args] |}) ∨
     (checkErrorReturns (ErrorIndices (heap s !!! p)) call.1 = Done None ∧
      r = None ∧
      s' = {| boot := stored (storedPairs (heap s !!! p) call.1) (boot s);
              heap := heap s; world := call.2;
              trace := trace s ++ [CallFn p args] |})).
Proof.
  unfold execute. intros Hexec.
  destruct (gatherArgs _ _) as [e'|args] eqn:Hargs.
  { simplify_eq. left. eauto. }
  right. exists args. split; [done|]. simpl.
  destruct (callFn _ _ _) as [results w] eqn:Hcall. simpl.
  apply bind_Done in Hexec as ([e0|] & Hcheck & Hrest).
  - simplify_eq. left. eauto.
  - right. rewrite storeResults_stored in Hrest. simpl in Hrest. simplify_eq.
    split_and!; try done.
Qed.

End execute_steps.

Section execute_properties.
Context `{Runtime} `{Program}.

Lemma snd_zip_take {A B : Type} (l : list A) : ∀ k : list B,
  (zip l k).*2 = take (length l) k.
Proof.
  induction l as [|a l IH]; intros [|b k]; simpl; try done.
  by rewrite IH.
Qed.

Lemma elem_of_fst_zip {A B : Type} (l : list A) (k : list B) a :
  a ∈ (zip l k).*1 → a ∈ l.
Proof.
  intros ([a' b] & -> & Hin)%list_elem_of_fmap. by apply elem_of_zip_l in Hin.
Qed.

Lemma NoDup_fst_zip {A B : Type} (l : list A) : ∀ k : list B,
  NoDup l → NoDup (zip l k).*1.
Proof.
  induction l as [|a l IH]; intros [|b k] Hnd; simpl; try constructor.
  - apply NoDup_cons in Hnd as [Ha _]. intros Hin. by apply elem_of_fst_zip in Hin.
  - apply NoDup_cons in Hnd as [_ Hnd]. by apply IH.
Qed.

(** X4: a node one of whose input keys is not in the cache is not
    executed.  [execute] returns the internal error that names the first
    input key, in the order of the parameters, that the cache does not
    hold; the constructor is not called, and the container is as it
    was. *)
Theorem execute_missing_value p s pre k post :
  Inputs (heap s !!! p) = pre ++ k :: post →
  Forall (fun k' => is_Some (values (boot s) !! k')) pre →
  values (boot s) !! k = None →
  execute p s =
    Done (Some (errorString ("internal error: missing value for type "
                             +:+ typeString k)), s).
Proof.
  intros Hins Hpre Hk. unfold execute.
  assert (gatherArgs (values (boot s)) (Inputs (heap s !!! p)) =
          inl (errorString ("internal error: missing value for type " +:+ typeString k)))
    as ->; [|done].
  apply gatherArgs_inl. by exists pre, k, post.
Qed.


(** X6: what [execute] stores when the constructor returns no error.  The
    arguments are the values that the cache holds for the input keys.  Of
    the results, those at the error indices are left out; the others go,
    in their order, to the output keys of the node in their order, as far
    as there are keys.  A key that is not an output key of the node keeps
    its value; the cleanups of the results that are stored, and only of
    those that are valid, not nil and have one, are appended in the order
    of the results. *)
Theorem execute_stores_results p s s' :
  execute p s = Done (None, s') →
  ∃ args,
    Forall2 (fun k v => values (boot s) !! k = Some v) (Inputs (heap s !!! p)) args ∧
    let call := callFn (Fn (heap s !!! p)) args (world s) in
    let kept := nonErrorResults (ErrorIndices (heap s !!! p)) 0 call.1 in
    world s' = call.2 ∧ trace s' = trace s ++ [CallFn p args] ∧
    cleanups (boot s') =
      cleanups (boot s) ++ omap cleanupOf (take (length (Outputs (heap s !!! p))) kept) ∧
    (∀ k, k ∉ Outputs (heap s !!! p) →
       values (boot s') !! k = values (boot s) !! k) ∧
    (NoDup (Outputs (heap s !!! p)) →
     ∀ j k v, Outputs (heap s !!! p) !! j = Some k → kept !! j = Some v →
       values (boot s') !! k = Some v).
Proof.
  intros [(e & _ & ? & _)|(args & Hargs & [(e & _ & ? & _)|(_ & _ & ->)])]%execute_cases;
    [done|done|].
  exists args. split; [by apply gatherArgs_inr|]. simpl.
  split_and!; try done.
  - unfold storedPairs. by rewrite snd_zip_take.
  - intros k Hk. apply storeAll_lookup. intros Hin. by apply elem_of_fst_zip in Hin.
  - intros Hnd j k v Hj Hv. apply storeAll_lookup_Some.
    + by apply NoDup_fst_zip.
    + apply list_elem_of_lookup. exists j. unfold storedPairs.
      rewrite lookup_zip_with, Hj. simpl. by rewrite Hv.
Qed.

End execute_properties.

Lemma execute_missing_value_witness :
  @execute sample.runtime sample.program 2%positive
    (sample.state sample.failingHeap [1; 2]%positive)
  = Done (Some (errorString "internal error: missing value for type *Config"),
          sample.state sample.failingHeap [1; 2]%positive).
Proof.
  apply (@execute_missing_value sample.runtime sample.program 2%positive
           (sample.state sample.failingHeap [1; 2]%positive) [] 1%positive []).
  - reflexivity.
  - constructor.
  - reflexivity.
Defined.

Lemma execute_stores_results_witness :
  @execute sample.runtime sample.program 1%positive
    (sample.state sample.failingHeap [1; 2]%positive) = Done (None, sample.configured) ∧
  values (boot sample.configured) !! 1%positive = Some sample.configValue.
Proof.
  assert (Hexec : @execute sample.runtime sample.program 1%positive
                    (sample.state sample.failingHeap [1; 2]%positive)
                  = Done (None, sample.configured)) by (vm_compute; reflexivity).
  split; [exact Hexec|].
  destruct (@execute_stores_results sample.runtime sample.program 1%positive
              (sample.state sample.failingHeap [1; 2]%positive) sample.configured Hexec)
    as (args & Hargs & _ & _ & _ & _ & Hstored).
  apply Forall2_nil_inv_l in Hargs. subst args.
  apply (Hstored ltac:(vm_compute; apply NoDup_singleton) 0 1%positive sample.configValue);
    reflexivity.
Defined.

(** ** Run: what it leaves, what it passes, what it returns *)

Section run_properties.
Context `{Runtime} `{Program}.

Lemma extends_refl s : extends s s.
Proof. by split_and!. Qed.

Lemma extends_trans s1 s2 s3 : extends s1 s2 → extends s2 s3 → extends s1 s3.
Proof.
  intros (Hh & Hp & Hf & Hc & Hk & He & Hcl & Hv & Ht)
         (Hh' & Hp' & Hf' & Hc' & Hk' & He' & Hcl' & Hv' & Ht').
  split_and!; try congruence; by etrans.
Qed.

Lemma execute_extends p s r s' : execute p s = Done (r, s') → extends s s'.
Proof.
  intros [(e & _ & _ & ->)|(args & _ & [(e & _ & _ & ->)|(_ & _ & ->)])]%execute_cases.
  - apply extends_refl.
  - split_and!; simpl; try done. by apply prefix_app_r.
  - split_and!; simpl; try done.
    + by apply prefix_app_r.
    + intros k. rewrite !elem_of_dom, storeAll_is_Some. by left.
    + by apply prefix_app_r.
Qed.

Lemma executeAll_extends sorted : ∀ s r s',
  executeAll sorted s = Done (r, s') → extends s s'.
Proof.
  induction sorted as [|p sorted IH]; intros s r s' Hrun; simpl in Hrun.
  - simplify_eq. apply extends_refl.
  - apply bind_Done in Hrun as ([[e|] s1] & Hexec & Hrest).
    + simplify_eq. by eapply execute_extends.
    + eapply extends_trans; [by eapply execute_extends|by eapply IH].
Qed.

Lemma Run_cases s r s' :
  Run s = Done (r, s') →
  (∃ e, err (boot s) = Some e ∧ r = Some e ∧ s' = s) ∨
  (∃ e, err (boot s) = None ∧
        Resolve (heap s) (providers (boot s)) = Some (inl e) ∧ r = Some e ∧ s' = s) ∨
  (∃ sorted, err (boot s) = None ∧
        Resolve (heap s) (providers (boot s)) = Some (inr sorted) ∧
        executeAll sorted s = Done (r, s')).
Proof.
  unfold Run. destruct (err (boot s)) as [e|]; [intros ?; simplify_eq; eauto|].
  destruct (Resolve _ _) as [[e|sorted]|]; [intros ?; simplify_eq; eauto 10|eauto 10|done].
Qed.

Lemma execute_frame p s r s' k :
  execute p s = Done (r, s') → k ∉ Outputs (heap s !!! p) →
  values (boot s') !! k = values (boot s) !! k.
Proof.
  intros [(e & _ & _ & ->)|(args & _ & [(e & _ & _ & ->)|(_ & _ & ->)])]%execute_cases Hk;
    [done|done|].
  simpl. apply storeAll_lookup. intros Hin. by apply elem_of_fst_zip in Hin.
Qed.

Lemma executeAll_frame sorted : ∀ s r s' k,
  executeAll sorted s = Done (r, s') →
  (∀ q, q ∈ sorted → k ∉ Outputs (heap s !!! q)) →
  values (boot s') !! k = values (boot s) !! k.
Proof.
  induction sorted as [|p sorted IH]; intros s r s' k Hrun Hk; simpl in Hrun.
  - by simplify_eq.
  - apply bind_Done in Hrun as ([[e|] s1] & Hexec & Hrest).
    + simplify_eq. eapply execute_frame; [done|]. apply Hk. left.
    + pose proof (execute_extends _ _ _ _ Hexec) as (Hheap & _).
      rewrite (IH s1 r s' k Hrest).
      * eapply execute_frame; [done|]. apply Hk. left.
      * intros q Hq. rewrite Hheap. apply Hk. by right.
Qed.

Lemma Forall2_lookup_frame (vals vals' : gmap Type_ Value) ins : ∀ args,
  Forall2 (fun k v => vals !! k = Some v) ins args →
  (∀ k, k ∈ ins → vals' !! k = vals !! k) →
  Forall2 (fun k v => vals' !! k = Some v) ins args.
Proof.
  induction ins as [|k ins IH]; intros args Hargs Hsame.
  - apply Forall2_nil_inv_l in Hargs as ->. constructor.
  - apply Forall2_cons_inv_l in Hargs as (v & args' & Hv & Hargs & ->).
    constructor.
    + rewrite Hsame; [done|left].
    + apply IH; [done|]. intros k' Hk'. apply Hsame. by right.
Qed.

(** The calls of the loop of [Run], when no node of the order gives a key
    that it, or a node before it, takes. *)
Lemma executeAll_args sorted : ∀ s r s',
  executeAll sorted s = Done (r, s') →
  (∀ i j p q k, sorted !! i = Some p → sorted !! j = Some q → i ≤ j →
     k ∈ Inputs (heap s !!! p) → k ∉ Outputs (heap s !!! q)) →
  ∃ tr, trace s' = trace s ++ tr ∧
    Forall (fun ev => ∃ p args, ev = CallFn p args ∧ p ∈ sorted ∧
              Forall2 (fun k v => values (boot s') !! k = Some v)
                (Inputs (heap s !!! p)) args) tr.
Proof.
  induction sorted as [|p sorted IH]; intros s r s' Hrun Hord; simpl in Hrun.
  { simplify_eq. exists []. by rewrite app_nil_r. }
  apply bind_Done in Hrun as ([r1 s1] & Hexec & Hrest).
  pose proof Hexec as
    [(e & _ & -> & ->)|(args & Hargs & [(e & _ & -> & ->)|(_ & -> & Hs1)])]%execute_cases.
  - simplify_eq. exists []. by rewrite app_nil_r.
  - simplify_eq. exists [CallFn p args]. split; [done|].
    constructor; [|constructor]. exists p, args. split_and!; [done|left|].
    by apply gatherArgs_inr.
  - pose proof (execute_extends _ _ _ _ Hexec) as (Hheap & _).
    destruct (IH s1 r s' Hrest) as (tr & Htr & Hall).
    { intros i j a b k Ha Hb Hij. rewrite Hheap. by apply (Hord (S i) (S j)); [| |lia]. }
    exists (CallFn p args :: tr). split.
    { rewrite Htr, Hs1. simpl. by rewrite <-app_assoc. }
    constructor.
    + exists p, args. split_and!; [done|left|].
      apply gatherArgs_inr in Hargs.
      apply (Forall2_lookup_frame (values (boot s))); [done|].
      intros k Hk. rewrite (executeAll_frame sorted s1 r s' k Hrest).
      * eapply execute_frame; [done|]. by apply (Hord 0 0 p p).
      * intros q Hq. rewrite Hheap. apply list_elem_of_lookup in Hq as [j Hj].
        apply (Hord 0 (S j) p q); [done|done|lia|done].
    + eapply Forall_impl; [exact Hall|]. simpl.
      intros ev (q & args' & -> & Hq & Hargs'). exists q, args'.
      split_and!; [done|by right|]. by rewrite <-Hheap.
Qed.

(** In the order of a successful [Resolve], no node gives a key that it,
    or a node before it, takes. *)
Lemma Resolve_takes_before hp nodes sorted i j p q k :
  Resolve hp nodes = Some (inr sorted) →
  sorted !! i = Some p → sorted !! j = Some q → i ≤ j →
  k ∈ Inputs (hp !!! p) → k ∉ Outputs (hp !!! q).
Proof.
  intros (Hnd & Hiff & Hord & _)%Resolve_sorted Hp Hq Hij Hin Hout.
  destruct (Hord i p q Hp) as (j' & Hj' & Hq').
  { split_and!; [| |eauto]; apply Hiff; by eapply list_elem_of_lookup_2. }
  assert (j' = j) by (by eapply NoDup_lookup). lia.
Qed.

(** X7: what [Run] leaves as it was.  Whatever it returns, the registered
    nodes, the marks of the functions, the context, the cancel function,
    the recorded error and the nodes themselves are the same; the cleanups
    that were registered stay, in their order, before the ones it adds; a
    key that the cache holds is still held; and the calls it makes come
    after the ones made before. *)
Theorem Run_extends s r s' : Run s = Done (r, s') → extends s s'.
Proof.
  intros [(e & _ & _ & ->)|[(e & _ & _ & _ & ->)|(sorted & _ & _ & Hrun)]]%Run_cases.
  - apply extends_refl.
  - apply extends_refl.
  - by eapply executeAll_extends.
Qed.

(** X8: the values that [Run] passes.  Every call that [Run] makes is the
    call of the constructor of a registered node, and the arguments of the
    call are the values that the cache holds for the input keys of the
    node when [Run] returns: the constructors that take a key are all
    given the same value, and no value they are given is replaced
    later. *)
Theorem Run_passes_cached_values s r s' :
  Run s = Done (r, s') →
  ∃ tr, trace s' = trace s ++ tr ∧
    Forall (fun ev => ∃ p args, ev = CallFn p args ∧ p ∈ providers (boot s) ∧
              Forall2 (fun k v => values (boot s') !! k = Some v)
                (Inputs (heap s !!! p)) args) tr.
Proof.
  intros [(e & _ & _ & ->)|[(e & _ & _ & _ & ->)|(sorted & _ & Hres & Hrun)]]%Run_cases.
  - exists []. by rewrite app_nil_r.
  - exists []. by rewrite app_nil_r.
  - apply executeAll_args in Hrun as (tr & Htr & Hall).
    + exists tr. split; [done|]. eapply Forall_impl; [exact Hall|]. simpl.
      intros ev (p & args & -> & Hp & Hargs). exists p, args. split_and!; [done| |done].
      apply Resolve_sorted in Hres as (_ & Hiff & _). by apply Hiff.
    + intros i j p q k. by apply (Resolve_takes_before _ (providers (boot s))).
Qed.

End run_properties.

Lemma Run_extends_witness :
  ∃ r s',
    @Run sample.runtime sample.program (sample.state sample.failingHeap [1; 2]%positive)
      = Done (r, s') ∧
    extends (sample.state sample.failingHeap [1; 2]%positive) s'.
Proof.
  assert (Hrun : ∃ r s',
            @Run sample.runtime sample.program
              (sample.state sample.failingHeap [1; 2]%positive) = Done (r, s'))
    by (eexists; eexists; vm_compute; reflexivity).
  destruct Hrun as (r & s' & Hrun). exists r, s'. split; [exact Hrun|].
  exact (@Run_extends sample.runtime sample.program _ r s' Hrun).
Defined.

Lemma Run_passes_cached_values_witness :
  ∃ r s' tr,
    @Run sample.runtime sample.program (sample.state sample.failingHeap [2; 1]%positive)
      = Done (r, s') ∧
    trace s' = trace (sample.state sample.failingHeap [2; 1]%positive) ++ tr.
Proof.
  assert (Hrun : ∃ r s',
            @Run sample.runtime sample.program
              (sample.state sample.failingHeap [2; 1]%positive) = Done (r, s'))
    by (eexists; eexists; vm_compute; reflexivity).
  destruct Hrun as (r & s' & Hrun).
  destruct (@Run_passes_cached_values sample.runtime sample.program _ r s' Hrun)
    as (tr & Htr & _).
  exists r, s', tr. split; [exact Hrun|exact Htr].
Defined.

Section run_cache.
Context `{Runtime} `{Program}.

Lemma returnsEnough_extends s s' : extends s s' → returnsEnough s → returnsEnough s'.
Proof.
  intros (Hheap & Hprov & _) Henough p args w. rewrite Hheap, Hprov. apply Henough.
Qed.

Lemma gatherArgs_total vals ins :
  Forall (fun k => is_Some (vals !! k)) ins → ∃ args, gatherArgs vals ins = inr args.
Proof.
  induction 1 as [|k ins [v Hv] _ [args IH]]; simpl; [eauto|].
  rewrite Hv, IH. eauto.
Qed.

Lemma execute_outputs_cached p s s' k :
  execute p s = Done (None, s') → p ∈ providers (boot s) → returnsEnough s →
  k ∈ Outputs (heap s !!! p) → is_Some (values (boot s') !! k).
Proof.
  intros [(e & _ & ? & _)|(args & _ & [(e & _ & ? & _)|(_ & _ & ->)])]%execute_cases
    Hp Henough Hk; [done|done|].
  simpl. apply storeAll_is_Some. right. unfold storedPairs.
  rewrite fst_zip; [done|]. apply Henough, Hp.
Qed.

Lemma extends_cached s s' k :
  extends s s' → is_Some (values (boot s) !! k) → is_Some (values (boot s') !! k).
Proof.
  intros (_ & _ & _ & _ & _ & _ & _ & Hdom & _). rewrite <-!elem_of_dom. apply Hdom.
Qed.

Lemma executeAll_populates sorted : ∀ s s',
  executeAll sorted s = Done (None, s') →
  (∀ p, p ∈ sorted → p ∈ providers (boot s)) → returnsEnough s →
  ∀ p k, p ∈ sorted → k ∈ Outputs (heap s !!! p) → is_Some (values (boot s') !! k).
Proof.
  induction sorted as [|q sorted IH]; intros s s' Hrun Hsub Henough p k Hp Hk.
  { by apply elem_of_nil in Hp. }
  simpl in Hrun. apply bind_Done in Hrun as ([[e|] s1] & Hexec & Hrest); [done|].
  pose proof (execute_extends _ _ _ _ Hexec) as Hext.
  pose proof Hext as (Hheap & Hprov & _).
  apply elem_of_cons in Hp as [->|Hp].
  - apply (extends_cached s1); [by eapply executeAll_extends|].
    eapply execute_outputs_cached; [done| |done|done]. apply Hsub. left.
  - apply (IH s1 s' Hrest) with p; [| |done|by rewrite Hheap].
    + intros p' Hp'. rewrite Hprov. apply Hsub. by right.
    + by apply (returnsEnough_extends s).
Qed.

Lemma executeAll_sources sorted : ∀ s e s',
  executeAll sorted s = Done (Some e, s') →
  (∀ p, p ∈ sorted → p ∈ providers (boot s)) → returnsEnough s →
  (∀ i p k, sorted !! i = Some p → k ∈ Inputs (heap s !!! p) →
     is_Some (values (boot s) !! k) ∨
     ∃ j q, j < i ∧ sorted !! j = Some q ∧ k ∈ Outputs (heap s !!! q)) →
  ∃ p args w, p ∈ sorted ∧
    checkErrorReturns (ErrorIndices (heap s !!! p))
      (callFn (Fn (heap s !!! p)) args w).1 = Done (Some e) ∧
    last (trace s') = Some (CallFn p args).
Proof.
  induction sorted as [|q sorted IH]; intros s e s' Hrun Hsub Henough Hready;
    simpl in Hrun; [done|].
  apply bind_Done in Hrun as ([r1 s1] & Hexec & Hrest).
  pose proof Hexec as
    [(e1 & Hmiss & -> & ->)|(args & Hargs & [(e1 & Hcheck & -> & ->)|(_ & -> & Hs1)])]%execute_cases.
  - exfalso.
    destruct (gatherArgs_total (values (boot s)) (Inputs (heap s !!! q))) as [args Hargs];
      [|congruence].
    apply Forall_forall. intros k Hk.
    destruct (Hready 0 q k eq_refl Hk) as [?|(j & ? & ? & _)]; [done|lia].
  - simplify_eq. exists q, args, (world s). split_and!; [left|done|].
    simpl. apply last_snoc.
  - pose proof (execute_extends _ _ _ _ Hexec) as Hext.
    pose proof Hext as (Hheap & Hprov & _).
    destruct (IH s1 e s' Hrest) as (p & args' & w & Hp & Hcheck & Hlast).
    + intros p' Hp'. rewrite Hprov. apply Hsub. by right.
    + by apply (returnsEnough_extends s).
    + intros i p' k Hi Hk. rewrite Hheap in Hk.
      destruct (Hready (S i) p' k Hi Hk) as [Hcached|(j & q' & Hj & Hq' & Hout)].
      * left. by apply (extends_cached s).
      * destruct j as [|j]; simpl in Hq'.
        -- simplify_eq. left. eapply execute_outputs_cached; [done| |done|done].
           apply Hsub. left.
        -- right. exists j, q'. rewrite Hheap. split_and!; [lia|done|done].
    + exists p, args', w. rewrite Hheap in Hcheck. split_and!; [by right|done|done].
Qed.

(** X9: where the errors of [Run] come from.  When every constructor
    returns at least as many results that are not errors as its node has
    output keys, an error of [Run] is the error that [Add] recorded, or an
    error of [Resolve], both with nothing called and the container as it
    was, or the error that the constructor called last returned at one of
    its error indices.  The internal error of a value that is missing is
    not among them: the order of [Resolve] puts every key in the cache
    before a node takes it. *)
Theorem Run_error_sources s e s' :
  returnsEnough s → Run s = Done (Some e, s') →
  (err (boot s) = Some e ∧ s' = s) ∨
  (Resolve (heap s) (providers (boot s)) = Some (inl e) ∧ s' = s) ∨
  (∃ p args w, p ∈ providers (boot s) ∧
     checkErrorReturns (ErrorIndices (heap s !!! p))
       (callFn (Fn (heap s !!! p)) args w).1 = Done (Some e) ∧
     last (trace s') = Some (CallFn p args)).
Proof.
  intros Henough
    [(e' & Herr & ? & ->)|[(e' & _ & Hres & ? & ->)|(sorted & _ & Hres & Hrun)]]%Run_cases.
  - left. by simplify_eq.
  - right. left. by simplify_eq.
  - right. right.
    pose proof Hres as (_ & Hiff & Hord & _ & Hprod)%Resolve_sorted.
    destruct (executeAll_sources sorted s e s' Hrun) as (p & args & w & Hp & Hcheck & Hlast).
    + intros p Hp. by apply Hiff.
    + done.
    + intros i p k Hi Hk. right.
      assert (p ∈ providers (boot s)) as Hp
        by (apply Hiff; by eapply list_elem_of_lookup_2).
      destruct (Hprod p k Hp Hk) as (m & Hm & Hout).
      destruct (Hord i p m Hi) as (j & Hj & Hlook); [|eauto].
      split_and!; eauto.
    + exists p, args, w. split_and!; [by apply Hiff|done|done].
Qed.

(** X10: the cache after a [Run] that returns no error.  When every
    constructor returns at least as many results that are not errors as
    its node has output keys, the cache holds a value for every output key
    of every registered node. *)
Theorem Run_populates_cache s s' :
  returnsEnough s → Run s = Done (None, s') →
  ∀ p k, p ∈ providers (boot s) → k ∈ Outputs (heap s !!! p) →
    is_Some (values (boot s') !! k).
Proof.
  intros Henough
    [(e' & _ & ? & _)|[(e' & _ & _ & ? & _)|(sorted & _ & Hres & Hrun)]]%Run_cases p k Hp Hk;
    [done|done|].
  apply Resolve_sorted in Hres as (_ & Hiff & _).
  apply (executeAll_populates sorted s s' Hrun) with p; try done.
  - intros q Hq. by apply Hiff.
  - by apply Hiff.
Qed.

(** X11: [Run] keeps no record of having run.  After a [Run] that returns
    no error, a second [Run] resolves the same order and executes it
    again: the constructors are called a second time, in the same order,
    and the cleanups that the first [Run] registered are kept before those
    that the second registers. *)
Theorem Run_again s s1 :
  Run s = Done (None, s1) →
  ∃ sorted,
    Resolve (heap s) (providers (boot s)) = Some (inr sorted) ∧
    calledNodes (drop (length (trace s)) (trace s1)) = sorted ∧
    Run s1 = executeAll sorted s1 ∧
    ∀ r2 s2, Run s1 = Done (r2, s2) →
      cleanups (boot s1) `prefix_of` cleanups (boot s2) ∧
      (r2 = None → calledNodes (drop (length (trace s1)) (trace s2)) = sorted).
Proof.
  intros [(e' & _ & ? & _)|[(e' & _ & _ & ? & _)|(sorted & Hnone & Hres & Hrun)]]%Run_cases;
    [done|done|].
  pose proof (executeAll_extends _ _ _ _ Hrun) as (Hheap & Hprov & _ & _ & _ & Herr & _).
  exists sorted.
  assert (Run s1 = executeAll sorted s1) as Hrun1.
  { apply Run_sorted; [congruence|]. by rewrite Hheap, Hprov. }
  split_and!; [done| |done|].
  - apply executeAll_ok in Hrun as (_ & tr & -> & Hcalled & _).
    by rewrite drop_app_length.
  - intros r2 s2 Hrun2. split.
    + rewrite Hrun1 in Hrun2.
      by apply executeAll_extends in Hrun2 as (_ & _ & _ & _ & _ & _ & ? & _).
    + intros ->. rewrite Hrun1 in Hrun2.
      apply executeAll_ok in Hrun2 as (_ & tr & -> & Hcalled & _).
      by rewrite drop_app_length.
Qed.

End run_cache.

Lemma Run_error_sources_witness :
  ∃ s',
    @Run sample.runtime sample.program (sample.state sample.failingHeap [2; 1]%positive)
      = Done (Some (errorString "boom"), s') ∧
    ∃ p args, last (trace s') = Some (CallFn p args).
Proof.
  assert (Hrun : ∃ s',
            @Run sample.runtime sample.program
              (sample.state sample.failingHeap [2; 1]%positive)
            = Done (Some (errorString "boom"), s'))
    by (eexists; vm_compute; reflexivity).
  destruct Hrun as (s' & Hrun). exists s'. split; [exact Hrun|].
  destruct (@Run_error_sources sample.runtime sample.program
              (sample.state sample.failingHeap [2; 1]%positive) (errorString "boom") s')
    as [[Herr _]|[[Hres _]|(p & args & w & _ & _ & Hlast)]].
  - intros p args w Hp.
    apply elem_of_cons in Hp as [->|Hp];
      [|apply elem_of_cons in Hp as [->|Hp]; [|by apply elem_of_nil in Hp]];
      vm_compute; lia.
  - exact Hrun.
  - discriminate Herr.
  - vm_compute in Hres. discriminate Hres.
  - exists p, args. exact Hlast.
Defined.

Lemma Run_populates_cache_witness :
  ∃ s',
    @Run sample.runtime sample.program (sample.state sample.chainHeap [3; 1; 2]%positive)
      = Done (None, s') ∧
    is_Some (values (boot s') !! 3%positive).
Proof.
  assert (Hrun : ∃ s',
            @Run sample.runtime sample.program
              (sample.state sample.chainHeap [3; 1; 2]%positive) = Done (None, s'))
    by (eexists; vm_compute; reflexivity).
  destruct Hrun as (s' & Hrun). exists s'. split; [exact Hrun|].
  apply (@Run_populates_cache sample.runtime sample.program
           (sample.state sample.chainHeap [3; 1; 2]%positive) s') with 3%positive.
  - intros p args w Hp.
    apply elem_of_cons in Hp as [->|Hp];
      [|apply elem_of_cons in Hp as [->|Hp];
        [|apply elem_of_cons in Hp as [->|Hp]; [|by apply elem_of_nil in Hp]]];
      vm_compute; lia.
  - exact Hrun.
  - left.
  - vm_compute. left.
Defined.

Lemma Run_again_witness :
  ∃ s1 sorted,
    @Run sample.runtime sample.program (sample.state sample.chainHeap [3; 1; 2]%positive)
      = Done (None, s1) ∧
    calledNodes (drop 0 (trace s1)) = sorted ∧
    @Run sample.runtime sample.program s1
      = @executeAll sample.runtime sample.program sorted s1.
Proof.
  assert (Hrun : ∃ s1,
            @Run sample.runtime sample.program
              (sample.state sample.chainHeap [3; 1; 2]%positive) = Done (None, s1))
    by (eexists; vm_compute; reflexivity).
  destruct Hrun as (s1 & Hrun).
  destruct (@Run_again sample.runtime sample.program
              (sample.state sample.chainHeap [3; 1; 2]%positive) s1 Hrun)
    as (sorted & _ & Hcalled & Hagain & _).
  exists s1, sorted. split_and!; [exact Hrun|exact Hcalled|exact Hagain].
Defined.

(** ** Cleanup and WithContext *)

Section cleanup_properties.
Context `{Runtime} `{Program}.

Lemma Cleanup_state s :
  (Cleanup s).2 =
    {| boot := boot s; heap := heap s;
       world := (cleanupReturns (reverse (cleanups (boot s))) (world s)).2;
       trace := trace s ++ CallCancel (cancel (boot s))
                  :: (CallCleanup <$> reverse (cleanups (boot s))) |}.
Proof.
  unfold Cleanup. rewrite runCleanups_returns. simpl.
  rewrite <-app_assoc. simpl. by case_decide.
Qed.

Lemma newProvider_WithContext c fn s :
  newProvider fn (WithContext c s) =
  r ← newProvider fn s; mret (r.1, WithContext c r.2).
Proof.
  unfold newProvider. simpl.
  destruct (NewNode fn (heap s)) as [[[e|p] hp]| |]; done.
Qed.

Lemma add_WithContext c fn s :
  add fn (WithContext c s) = r ← add fn s; mret (r.1, WithContext c r.2).
Proof.
  unfold add. destruct (TypeOfValue fn) as [typ| |]; simpl; [|done|done].
  case_decide.
  { unfold registerProvider. destruct (TypeOfValue fn) as [typ'| |]; simpl; [|done|done].
    destruct (checkInjectInTypes _ "input"); [done|].
    destruct (checkInjectInTypes _ "output"); [done|].
    destruct (default false _); [done|].
    apply (newProvider_WithContext c fn (setBoot (markFunction (vPointer fn) (boot s)) s)). }
  case_decide; [|done].
  destruct (IsNil fn) as [[|]| |]; simpl; try done.
  destruct (_ && _).
  - unfold registerStructInjector. destruct (TypeOfValue fn); simpl; try done.
    apply newProvider_WithContext.
  - unfold registerTargetPopulator. destruct (TypeOfValue fn); simpl; try done.
    apply newProvider_WithContext.
Qed.

Lemma addAll_WithContext c constructors : ∀ s,
  addAll constructors (WithContext c s) =
  s' ← addAll constructors s; mret (WithContext c s').
Proof.
  induction constructors as [|fn constructors IH]; intros s; simpl; [done|].
  rewrite add_WithContext.
  destruct (add fn s) as [[[e|] s1]| |]; simpl; [done|apply IH|done|done].
Qed.

(** X12: [Cleanup] does not empty the list of the cleanups.  It leaves the
    container as it was, and a second [Cleanup] cancels the context again
    and calls every cleanup again, in the same order. *)
Theorem Cleanup_again s :
  boot (Cleanup s).2 = boot s ∧
  trace (Cleanup (Cleanup s).2).2 =
    trace s
    ++ (CallCancel (cancel (boot s)) :: (CallCleanup <$> reverse (cleanups (boot s))))
    ++ (CallCancel (cancel (boot s)) :: (CallCleanup <$> reverse (cleanups (boot s)))).
Proof.
  split; [by rewrite Cleanup_state|].
  rewrite (Cleanup_state (Cleanup s).2), !Cleanup_state. simpl.
  by rewrite <-app_assoc.
Qed.

(** X13: [WithContext] replaces the context and its cancel function and
    nothing else.  A [Cleanup] that follows cancels the child of the
    context that was given, and not the context that the container had;
    and to set the context before an [Add] or after it gives the same
    container. *)
Theorem WithContext_replaces_cancel c s :
  ctx (boot (WithContext c s)) = WithCancel c ∧
  trace (Cleanup (WithContext c s)).2 =
    trace s ++ CallCancel (WithCancel c)
      :: (CallCleanup <$> reverse (cleanups (boot s))) ∧
  (cancel (boot s) ≠ WithCancel c →
   CallCancel (cancel (boot s)) ∉
     drop (length (trace s)) (trace (Cleanup (WithContext c s)).2)) ∧
  (∀ constructors,
     Add constructors (WithContext c s) =
     s' ← Add constructors s; mret (WithContext c s')).
Proof.
  split_and!.
  - done.
  - by rewrite Cleanup_state.
  - intros Hother. rewrite Cleanup_state. simpl. rewrite drop_app_length.
    intros [Heq|Hin]%elem_of_cons; [by simplify_eq|].
    by apply list_elem_of_fmap in Hin as (? & ? & _).
  - intros constructors. unfold Add. simpl.
    destruct (err (boot s)); [done|]. apply addAll_WithContext.
Qed.

End cleanup_properties.

(** ** NewNode: the returns that are errors and those that are not *)

Section node_properties.
Context `{Runtime} `{Program}.

Lemma analyzeOutputs_fields outs : ∀ i n,
  Inputs (analyzeOutputs i outs n) = Inputs n ∧
  Outputs (analyzeOutputs i outs n) = Outputs n ++ valueSlots outs ∧
  ErrorIndices (analyzeOutputs i outs n) = ErrorIndices n ++ errorSlots i outs.
Proof.
  unfold valueSlots.
  induction outs as [|out outs IH]; intros i n; simpl.
  { by rewrite !app_nil_r. }
  destruct (IH (S i)
    (if tImplementsError (rtypes out)
     then {| Fn := Fn n; Inputs := Inputs n; Outputs := Outputs n;
             ErrorIndices := ErrorIndices n ++ [i] |}
     else {| Fn := Fn n; Inputs := Inputs n; Outputs := Outputs n ++ [out];
             ErrorIndices := ErrorIndices n |})) as (-> & -> & ->).
  rewrite filter_cons.
  destruct (tImplementsError (rtypes out)) eqn:Hout; simpl.
  - rewrite ?decide_False by done. by rewrite <-app_assoc.
  - rewrite ?decide_True by done. by rewrite <-app_assoc.
Qed.

Lemma elem_of_errorSlots outs : ∀ i j,
  j ∈ errorSlots i outs ↔
  i ≤ j ∧ ∃ t, outs !! (j - i) = Some t ∧ tImplementsError (rtypes t) = true.
Proof.
  induction outs as [|out outs IH]; intros i j; simpl.
  { rewrite elem_of_nil. split; [done|]. by intros (_ & t & ? & _). }
  assert (Hrest : j ∈ errorSlots (S i) outs ↔
            S i ≤ j ∧ ∃ t, (out :: outs) !! (j - i) = Some t
                           ∧ tImplementsError (rtypes t) = true).
  { rewrite IH. split.
    - intros (Hle & t & Ht & Herr). split; [done|]. exists t. split; [|done].
      by replace (j - i) with (S (j - S i)) by lia.
    - intros (Hle & t & Ht & Herr). split; [done|]. exists t. split; [|done].
      by replace (j - i) with (S (j - S i)) in Ht by lia. }
  destruct (tImplementsError (rtypes out)) eqn:Hout.
  - rewrite elem_of_cons, Hrest. split.
    + intros [->|(Hle & Ht)]; [|split; [lia|done]].
      split; [done|]. exists out. by rewrite Nat.sub_diag.
    + intros (Hle & t & Ht & Herr).
      destruct (decide (j = i)) as [->|Hne]; [by left|]. right. split; [lia|eauto].
  - rewrite Hrest. split.
    + intros (Hle & Ht). split; [lia|done].
    + intros (Hle & t & Ht & Herr). split; [|eauto].
      destruct (decide (j = i)) as [->|Hne]; [|lia].
      rewrite Nat.sub_diag in Ht. simpl in Ht. simplify_eq. congruence.
Qed.

Lemma NoDup_errorSlots outs : ∀ i, NoDup (errorSlots i outs).
Proof.
  induction outs as [|out outs IH]; intros i; simpl; [constructor|].
  destruct (tImplementsError (rtypes out)); [|apply IH].
  constructor; [|apply IH]. intros [Hle _]%elem_of_errorSlots. lia.
Qed.

Lemma length_slots outs : ∀ i,
  length (valueSlots outs) + length (errorSlots i outs) = length outs.
Proof.
  unfold valueSlots.
  induction outs as [|out outs IH]; intros i; simpl; [done|].
  rewrite filter_cons. specialize (IH (S i)).
  destruct (tImplementsError (rtypes out)) eqn:Hout; simpl.
  - rewrite ?decide_False by done. simpl. lia.
  - rewrite ?decide_True by done. simpl. lia.
Qed.

Lemma nonErrorResults_ext E E' results : ∀ i,
  (∀ j, i ≤ j → j ∈ E ↔ j ∈ E') →
  nonErrorResults E i results = nonErrorResults E' i results.
Proof.
  induction results as [|res results IH]; intros i Hsame; simpl; [done|].
  rewrite (bool_decide_ext _ _ (Hsame i (le_n i))).
  rewrite (IH (S i)); [done|]. intros j Hj. apply Hsame. lia.
Qed.

(** The pairs that [execute] stores for a node that [NewNode] made: the
    results and their types, but those of the types that implement
    [error]. *)
Lemma storedPairs_slots outs : ∀ i results,
  length results = length outs →
  zip (valueSlots outs) (nonErrorResults (errorSlots i outs) i results) =
  filter (fun pair => tImplementsError (rtypes pair.1) = false) (zip outs results).
Proof.
  unfold valueSlots.
  induction outs as [|out outs IH]; intros i [|res results] Hlen; simpl in *; try done.
  rewrite !filter_cons. simpl.
  destruct (tImplementsError (rtypes out)) eqn:Hout; simpl.
  - rewrite bool_decide_eq_true_2 by left. rewrite ?decide_False by done.
    rewrite <-(IH (S i)) by lia. f_equal.
    apply nonErrorResults_ext. intros j Hj. rewrite elem_of_cons.
    split; [intros [->|?]; [lia|done]|by right].
  - rewrite bool_decide_eq_false_2 by (intros [Hle _]%elem_of_errorSlots; lia).
    rewrite ?decide_True by done. simpl. f_equal. apply IH. lia.
Qed.

(** X14: the node that [NewNode] makes of a function.  It is allocated at
    a fresh address and holds the function, the parameter types as inputs,
    the result types that do not implement [error] as outputs, in their
    order, and the indices of those that do as error indices, each once.
    Hence, of the results of a call that returns as many values as the
    type of the function has results, [execute] stores under each output
    key the result that was returned at the position of that type, and
    stores no result whose type implements [error].  An argument that is
    not a function gives the error that names its type, and no node. *)
Theorem NewNode_splits_results fn typ hp :
  vType fn = Some typ →
  (tKind (rtypes typ) ≠ Func ∧
   NewNode fn hp =
     Done (inl (errorString ("runner: argument must be a function, got "
                             +:+ typeString typ)), hp)) ∨
  (tKind (rtypes typ) = Func ∧
   ∃ node,
     NewNode fn hp = Done (inr (fresh (dom hp)), <[fresh (dom hp) := node]> hp) ∧
     hp !! fresh (dom hp) = None ∧
     Fn node = fn ∧ Inputs node = tIn (rtypes typ) ∧
     Outputs node = valueSlots (tOut (rtypes typ)) ∧
     NoDup (ErrorIndices node) ∧
     (∀ i, i ∈ ErrorIndices node ↔
           ∃ t, tOut (rtypes typ) !! i = Some t ∧ tImplementsError (rtypes t) = true) ∧
     length (Outputs node) + length (ErrorIndices node) = length (tOut (rtypes typ)) ∧
     ∀ results, length results = length (tOut (rtypes typ)) →
       storedPairs node results =
       filter (fun pair => tImplementsError (rtypes pair.1) = false)
         (zip (tOut (rtypes typ)) results)).
Proof.
  intros Htyp. unfold NewNode, TypeOfValue. rewrite Htyp. simpl.
  case_decide as Hkind; [left; by split|]. right.
  split; [by destruct (decide (tKind (rtypes typ) = Func))|].
  eexists. split; [done|].
  destruct (analyzeOutputs_fields (tOut (rtypes typ)) 0
              {| Fn := fn; Inputs := tIn (rtypes typ); Outputs := [];
                 ErrorIndices := [] |}) as (HI & HO & HE).
  simpl in HI, HO, HE.
  split_and!.
  - apply not_elem_of_dom, is_fresh.
  - apply analyzeOutputs_Fn.
  - done.
  - done.
  - rewrite HE. apply NoDup_errorSlots.
  - intros i. rewrite HE, elem_of_errorSlots, Nat.sub_0_r. split; [by intros [_ ?]|].
    intros ?. split; [lia|done].
  - rewrite HO, HE. apply length_slots.
  - intros results Hlen. unfold storedPairs. rewrite HO, HE. by apply storedPairs_slots.
Qed.

End node_properties.

Lemma NewNode_splits_results_witness :
  ∃ node,
    @NewNode sample.runtime (sample.function 11 2) ∅
      = Done (inr (fresh (dom (∅ : gmap positive Node))),
              <[fresh (dom (∅ : gmap positive Node)) := node]> ∅) ∧
    Outputs node = [4%positive] ∧
    (1 ∈ ErrorIndices node).
Proof.
  destruct (@NewNode_splits_results sample.runtime (sample.function 11 2) 11%positive ∅
              eq_refl)
    as [[Hkind _]|(_ & node & Hnew & _ & _ & _ & Hout & _ & Herr & _)].
  - exfalso. apply Hkind. reflexivity.
  - exists node. split_and!; [exact Hnew|exact Hout|].
    apply Herr. exists 2%positive. split; reflexivity.
Defined.

(** ** Add: what is registered, what is refused *)

Section registration_properties.
Context `{Runtime} `{Program}.

Lemma NewNode_Func fn typ hp :
  vType fn = Some typ → tKind (rtypes typ) = Func →
  NewNode fn hp = Done (inr (fresh (dom hp)), <[fresh (dom hp) := nodeOf fn typ]> hp).
Proof.
  intros Htyp Hkind. unfold NewNode, TypeOfValue. rewrite Htyp. simpl.
  rewrite decide_False by (by intros ?). do 3 f_equal.
  destruct (analyzeOutputs_fields (tOut (rtypes typ)) 0
              {| Fn := fn; Inputs := tIn (rtypes typ); Outputs := [];
                 ErrorIndices := [] |}) as (HI & HO & HE).
  pose proof (analyzeOutputs_Fn (tOut (rtypes typ)) 0
              {| Fn := fn; Inputs := tIn (rtypes typ); Outputs := [];
                 ErrorIndices := [] |}) as HF.
  destruct (analyzeOutputs _ _ _). simpl in *. unfold nodeOf. congruence.
Qed.

Lemma newProvider_Func fn typ s :
  vType fn = Some typ → tKind (rtypes typ) = Func →
  newProvider fn s = Done (None, registered fn typ s).
Proof.
  intros Htyp Hkind. unfold newProvider. by rewrite (NewNode_Func fn typ).
Qed.

Lemma checkInjectInTypes_None types kindStr :
  checkInjectInTypes types kindStr = None ↔
  Forall (fun t => embedsInject t = false) types.
Proof.
  induction types as [|t types IH]; simpl.
  { split; [constructor|done]. }
  rewrite Forall_cons. fold (embedsInject t).
  destruct (embedsInject t); [|rewrite IH]; naive_solver.
Qed.

Lemma checkInjectInTypes_Some types kindStr e :
  checkInjectInTypes types kindStr = Some e ↔
  ∃ pre t post, types = pre ++ t :: post ∧
    Forall (fun t' => embedsInject t' = false) pre ∧ embedsInject t = true ∧
    e = prohibitedType kindStr t.
Proof.
  induction types as [|t0 types IH]; simpl.
  { split; [done|]. intros (pre & ? & ? & ? & _). by destruct pre. }
  fold (embedsInject t0). fold (prohibitedType kindStr t0).
  destruct (embedsInject t0) eqn:Ht0.
  - split.
    + intros ?; simplify_eq. by exists [], t0, types.
    + intros (pre & t & post & Heq & Hpre & Ht & ->).
      destruct pre as [|t1 pre]; simpl in Heq; simplify_eq; [done|].
      apply Forall_cons in Hpre as [? _]. congruence.
  - rewrite IH. split.
    + intros (pre & t & post & -> & Hpre & Ht & ->).
      exists (t0 :: pre), t, post. split_and!; try done. by constructor.
    + intros (pre & t & post & Heq & Hpre & Ht & ->).
      destruct pre as [|t1 pre]; simpl in Heq; simplify_eq; [congruence|].
      apply Forall_cons in Hpre as [_ Hpre]. by exists pre, t, post.
Qed.

Lemma injectedFieldTypes_exported fields :
  injectedFieldTypes fields = exportedFieldTypes fields.
Proof.
  unfold exportedFieldTypes.
  induction fields as [|field fields IH]; simpl; [done|].
  rewrite filter_cons, IH.
  case_bool_decide as Hpkg.
  { rewrite decide_False; [done|]. by intros [? _]. }
  case_bool_decide as Hinj.
  { rewrite decide_False; [done|]. by intros [_ ?]. }
  by rewrite decide_True.
Qed.

End registration_properties.

Section registration_outcomes.
Context `{Runtime} `{Program}.

Lemma default_false_true (m : gmap N bool) k :
  default false (m !! k) = true ↔ m !! k = Some true.
Proof. destruct (m !! k) as [[|]|]; naive_solver. Qed.

Lemma default_false_false (m : gmap N bool) k :
  default false (m !! k) = false ↔ m !! k ≠ Some true.
Proof. destruct (m !! k) as [[|]|]; naive_solver. Qed.

(** [add] on a function. *)
Lemma add_function fn typ s :
  vType fn = Some typ → tKind (rtypes typ) = Func →
  add fn s =
  match checkInjectInTypes (tIn (rtypes typ)) "input" with
  | Some e => Done (Some e, s)
  | None =>
      match checkInjectInTypes (tOut (rtypes typ)) "output" with
      | Some e => Done (Some e, s)
      | None =>
          if default false (functions (boot s) !! vPointer fn)
          then Done (None, s)
          else Done (None, registered fn typ
                             (setBoot (markFunction (vPointer fn) (boot s)) s))
      end
  end.
Proof.
  intros Htyp Hkind. unfold add, registerProvider, TypeOfValue. rewrite Htyp. simpl.
  rewrite decide_True by done.
  destruct (checkInjectInTypes _ "input"); [done|].
  destruct (checkInjectInTypes _ "output"); [done|].
  destruct (default false _); [done|]. by apply newProvider_Func.
Qed.

(** [add] on a pointer that is not nil. *)
Lemma add_pointer fn typ s :
  vType fn = Some typ → tKind (rtypes typ) = Ptr → vIsNil fn = false →
  add fn s = newProvider (MakeFunc (FuncOf (targetInputs typ)) fn) s.
Proof.
  intros Htyp Hkind Hnil.
  unfold add, registerStructInjector, registerTargetPopulator, TypeOfValue, IsNil, ValueKind.
  rewrite Htyp. simpl. rewrite decide_False by congruence.
  rewrite decide_True by done. rewrite Hkind. simpl. rewrite Hnil.
  unfold targetInputs. destruct (_ && _); [|done].
  by rewrite injectedFieldTypes_exported.
Qed.

(** X15: what [Add] does with a function.  It refuses it, and leaves the
    container as it is, exactly when the type of a parameter or of a
    result, or the type that this type points to, is a struct that embeds
    [Inject]; the error names the first such type, the parameters before
    the results.  Else, when the code pointer of the function is marked,
    it registers nothing and returns no error; and when it is not, it
    marks the code pointer and appends one node, at a fresh address. *)
Theorem add_function_outcomes fn typ s :
  vType fn = Some typ → tKind (rtypes typ) = Func →
  (∃ pre t post, tIn (rtypes typ) = pre ++ t :: post ∧
     Forall (fun t' => embedsInject t' = false) pre ∧ embedsInject t = true ∧
     add fn s = Done (Some (prohibitedType "input" t), s)) ∨
  (Forall (fun t => embedsInject t = false) (tIn (rtypes typ)) ∧
   ∃ pre t post, tOut (rtypes typ) = pre ++ t :: post ∧
     Forall (fun t' => embedsInject t' = false) pre ∧ embedsInject t = true ∧
     add fn s = Done (Some (prohibitedType "output" t), s)) ∨
  (Forall (fun t => embedsInject t = false) (tIn (rtypes typ)) ∧
   Forall (fun t => embedsInject t = false) (tOut (rtypes typ)) ∧
   ((functions (boot s) !! vPointer fn = Some true ∧ add fn s = Done (None, s)) ∨
    (functions (boot s) !! vPointer fn ≠ Some true ∧
     add fn s = Done (None, registered fn typ
                              (setBoot (markFunction (vPointer fn) (boot s)) s))))).
Proof.
  intros Htyp Hkind. rewrite (add_function fn typ) by done.
  destruct (checkInjectInTypes _ "input") as [e|] eqn:Hin.
  { left. apply checkInjectInTypes_Some in Hin as (pre & t & post & ? & ? & ? & ->).
    by exists pre, t, post. }
  apply checkInjectInTypes_None in Hin. right.
  destruct (checkInjectInTypes _ "output") as [e|] eqn:Hout.
  { left. split; [done|].
    apply checkInjectInTypes_Some in Hout as (pre & t & post & ? & ? & ? & ->).
    by exists pre, t, post. }
  apply checkInjectInTypes_None in Hout. right. split_and!; [done|done|].
  destruct (default false _) eqn:Hfn.
  - left. by apply default_false_true in Hfn.
  - right. by apply default_false_false in Hfn.
Qed.

(** X16: [Add] tells the functions apart by their code pointer alone.
    When a function is added with no error, a function with the same code
    pointer that is added after it, such as another closure of the same
    function literal, is not registered, and no error is returned. *)
Theorem add_same_code_pointer fn1 fn2 typ2 s s1 :
  ValueKind fn1 = Func →
  vType fn2 = Some typ2 → tKind (rtypes typ2) = Func →
  Forall (fun t => embedsInject t = false) (tIn (rtypes typ2) ++ tOut (rtypes typ2)) →
  vPointer fn2 = vPointer fn1 →
  add fn1 s = Done (None, s1) →
  add fn2 s1 = Done (None, s1).
Proof.
  unfold ValueKind. destruct (vType fn1) as [typ1|] eqn:Htyp1; [|done].
  intros Hkind1 Htyp2 Hkind2 [Hin Hout]%Forall_app Hptr Hadd.
  assert (functions (boot s1) !! vPointer fn1 = Some true) as Hmarked.
  { rewrite (add_function fn1 typ1) in Hadd by done.
    destruct (checkInjectInTypes _ "input"); [done|].
    destruct (checkInjectInTypes _ "output"); [done|].
    destruct (default false _) eqn:Hfn; simplify_eq.
    - by apply default_false_true.
    - simpl. apply lookup_insert_eq. }
  rewrite (add_function fn2 typ2) by done.
  rewrite (proj2 (checkInjectInTypes_None _ "input") Hin).
  rewrite (proj2 (checkInjectInTypes_None _ "output") Hout).
  rewrite Hptr. by apply default_false_true in Hmarked as ->.
Qed.

(** X17: what [Add] does with a pointer.  A nil pointer is refused.  For a
    pointer that is not nil it appends, each time it is given, one new
    node whose function is made by [reflect.MakeFunc]: the node has no
    outputs and no error indices, and its inputs are the type that the
    pointer points to, or, when that is a struct that embeds [Inject], the
    types of its fields that are exported and are not [Inject], in their
    order.  The marks of the functions are not read and not written. *)
Theorem add_pointer_registers_setter fn typ s :
  vType fn = Some typ → tKind (rtypes typ) = Ptr →
  tKind (rtypes (FuncOf (targetInputs typ))) = Func →
  tIn (rtypes (FuncOf (targetInputs typ))) = targetInputs typ →
  tOut (rtypes (FuncOf (targetInputs typ))) = [] →
  (vIsNil fn = true ∧
   add fn s = Done (Some (errorString "argument must not be nil"), s)) ∨
  (vIsNil fn = false ∧
   ∃ node,
     add fn s =
       Done (None, {| boot := appendProvider (fresh (dom (heap s))) (boot s);
                      heap := <[fresh (dom (heap s)) := node]> (heap s);
                      world := world s; trace := trace s |}) ∧
     Inputs node = targetInputs typ ∧ Outputs node = [] ∧ ErrorIndices node = [] ∧
     vPointer (Fn node) = makeFuncStub ∧ vData (Fn node) = vData fn).
Proof.
  intros Htyp Hkind HFunc HIn HOut.
  destruct (vIsNil fn) eqn:Hnil.
  { left. split; [done|]. by apply (add_nil_target fn typ). }
  right. split; [done|].
  exists (nodeOf (MakeFunc (FuncOf (targetInputs typ)) fn) (FuncOf (targetInputs typ))).
  split.
  - rewrite (add_pointer fn typ) by done. by apply newProvider_Func.
  - unfold nodeOf. simpl. rewrite HIn, HOut. done.
Qed.

End registration_outcomes.

Lemma add_function_outcomes_witness :
  ∃ t, @embedsInject sample.runtime t = true ∧
    @add sample.runtime sample.program (sample.function 16 5) (sample.state ∅ [])
      = Done (Some (@prohibitedType sample.runtime "output" t), sample.state ∅ []).
Proof.
  destruct (@add_function_outcomes sample.runtime sample.program
              (sample.function 16 5) 16%positive (sample.state ∅ []) eq_refl eq_refl)
    as [(pre & t & post & Heq & _)|[(_ & pre & t & post & _ & _ & Ht & Hadd)|(_ & Hout & _)]].
  - destruct pre; discriminate Heq.
  - exists t. split; [exact Ht|exact Hadd].
  - exfalso. apply Forall_cons in Hout as [Hout _]. vm_compute in Hout. discriminate Hout.
Defined.

Lemma add_same_code_pointer_witness :
  ∃ s1,
    @add sample.runtime sample.program (sample.function 10 1) (sample.state ∅ [])
      = Done (None, s1) ∧
    @add sample.runtime sample.program
      {| vType := Some 10%positive; vData := 999; vPointer := 1; vIsNil := false;
         vError := None; vCleanable := None |} s1 = Done (None, s1).
Proof.
  assert (Hadd : ∃ s1,
            @add sample.runtime sample.program (sample.function 10 1) (sample.state ∅ [])
              = Done (None, s1)) by (eexists; vm_compute; reflexivity).
  destruct Hadd as (s1 & Hadd). exists s1. split; [exact Hadd|].
  apply (@add_same_code_pointer sample.runtime sample.program
           (sample.function 10 1) _ 10%positive (sample.state ∅ []) s1).
  - reflexivity.
  - reflexivity.
  - reflexivity.
  - apply Forall_cons. split; [reflexivity|constructor].
  - reflexivity.
  - exact Hadd.
Defined.

Lemma add_pointer_registers_setter_witness :
  ∃ node,
    @add sample.runtime sample.program (sample.pointer 20 800) (sample.state ∅ [])
      = Done (None,
              {| boot := appendProvider (fresh (dom (∅ : gmap positive Node)))
                           (boot (sample.state ∅ []));
                 heap := <[fresh (dom (∅ : gmap positive Node)) := node]> ∅;
                 world := (0%nat : @World sample.program); trace := [] |}) ∧
    Inputs node = [1%positive] ∧ Outputs node = [].
Proof.
  destruct (@add_pointer_registers_setter sample.runtime sample.program
              (sample.pointer 20 800) 20%positive (sample.state ∅ [])
              eq_refl eq_refl eq_refl eq_refl eq_refl)
    as [[Hnil _]|(_ & node & Hadd & Hin & Hout & _)].
  - vm_compute in Hnil. discriminate Hnil.
  - exists node. split_and!; [exact Hadd|exact Hin|exact Hout].
Defined.

(** ** The registry of the functions *)

Section registry_properties.
Context `{Runtime} `{Program}.

Lemma grows_refl s : grows s s.
Proof. by split. Qed.

Lemma grows_trans s1 s2 s3 : grows s1 s2 → grows s2 s3 → grows s1 s3.
Proof.
  intros [Hpre Hheap] [Hpre' Hheap']. split; [by etrans|].
  intros p Hp. rewrite Hheap', Hheap; [done|done|].
  destruct Hpre as [k ->]. apply elem_of_app. by left.
Qed.

Lemma newProvider_grows fn s r s' :
  newProvider fn s = Done (r, s') → wellFormed s → grows s s'.
Proof.
  intros (_ & _ & [(e & _ & Hb & Hh)|(node & _ & _ & Hb & Hh)])%newProvider_cases [_ Hall];
    unfold grows; rewrite Hb, Hh; [done|]. simpl. split; [by apply prefix_app_r|].
  intros p Hp. apply lookup_total_insert_ne. intros <-.
  apply Hall, elem_of_dom in Hp. by apply is_fresh in Hp.
Qed.

Lemma registry_mark ptr s : registry s → registry (setBoot (markFunction ptr (boot s)) s).
Proof.
  intros (Hwf & Hmarked & Hdistinct). split_and!; [exact Hwf| |exact Hdistinct].
  intros p Hp Hstub. simpl. rewrite lookup_insert. case_decide; [done|].
  by apply Hmarked.
Qed.

(** The registry when a node is appended: its function is made by
    [reflect.MakeFunc], or its code pointer is marked and is that of no
    node. *)
Lemma registry_newProvider fn s r s' :
  newProvider fn s = Done (r, s') → registry s →
  vPointer fn = makeFuncStub ∨
  (functions (boot s) !! vPointer fn = Some true ∧
   ∀ p, p ∈ providers (boot s) → codePointer (heap s) p ≠ vPointer fn) →
  registry s'.
Proof.
  intros Hnew (Hwf & Hmarked & Hdistinct) Hfn.
  pose proof (newProvider_wellFormed _ _ _ _ Hnew Hwf) as Hwf'.
  pose proof (newProvider_grows _ _ _ _ Hnew Hwf) as [_ Hsame].
  apply newProvider_cases in Hnew as (_ & _ & [(e & _ & Hb & Hh)|(node & _ & Hnode & Hb & Hh)]).
  { split_and!; [done|rewrite Hb, Hh; apply Hmarked|rewrite Hb, Hh; apply Hdistinct]. }
  assert (Hold : ∀ p, p ∈ providers (boot s) → codePointer (heap s') p = codePointer (heap s) p).
  { intros p Hp. unfold codePointer. by rewrite Hsame. }
  assert (Hnew : codePointer (heap s') (fresh (dom (heap s))) = vPointer fn).
  { unfold codePointer. by rewrite Hh, lookup_total_insert_eq, Hnode. }
  split_and!; [done| |].
  - rewrite Hb. simpl. intros p [Hp| ->%list_elem_of_singleton]%elem_of_app.
    + rewrite Hold by done. by apply Hmarked.
    + rewrite Hnew. intros Hstub. by destruct Hfn as [?|[? _]].
  - rewrite Hb. simpl. intros i j p q Hi Hj Heq Hstub.
    apply lookup_app_Some in Hi as [Hi|[Hlen Hi]];
      apply lookup_app_Some in Hj as [Hj|[Hlen' Hj]].
    + pose proof (list_elem_of_lookup_2 _ _ _ Hi) as Hp.
      pose proof (list_elem_of_lookup_2 _ _ _ Hj) as Hq.
      rewrite (Hold p Hp), (Hold q Hq) in Heq. rewrite (Hold p Hp) in Hstub.
      by apply (Hdistinct i j p q).
    + exfalso. apply list_lookup_singleton_Some in Hj as [_ <-].
      pose proof (list_elem_of_lookup_2 _ _ _ Hi) as Hp.
      rewrite Hnew, (Hold p Hp) in Heq. rewrite (Hold p Hp) in Hstub.
      destruct Hfn as [Hfn|[_ Hfn]]; [congruence|]. by apply (Hfn p).
    + exfalso. apply list_lookup_singleton_Some in Hi as [_ <-].
      pose proof (list_elem_of_lookup_2 _ _ _ Hj) as Hq.
      rewrite Hnew in Heq, Hstub. rewrite (Hold q Hq) in Heq.
      destruct Hfn as [Hfn|[_ Hfn]]; [congruence|]. by apply (Hfn q).
    + apply list_lookup_singleton_Some in Hi as [Hi _].
      apply list_lookup_singleton_Some in Hj as [Hj _]. lia.
Qed.

Lemma add_registry fn s r s' :
  add fn s = Done (r, s') → registry s → registry s' ∧ grows s s'.
Proof.
  unfold add. intros Hadd Hreg.
  apply bind_Done in Hadd as (typ & _ & Hadd).
  case_decide.
  { apply registerProvider_cases in Hadd as [(e & -> & ->)|[(-> & -> & _)|[Hfn Hnew]]];
      [by split; [|apply grows_refl]..|].
    apply default_false_false in Hfn. split.
    - eapply registry_newProvider; [exact Hnew|by apply registry_mark|].
      destruct (decide (vPointer fn = makeFuncStub)) as [?|Hstub]; [by left|right].
      simpl. split; [apply lookup_insert_eq|].
      intros p Hp Heq. apply Hfn. rewrite <-Heq.
      destruct Hreg as (_ & Hmarked & _). apply Hmarked; [done|congruence].
    - apply newProvider_grows in Hnew; [done|]. by destruct Hreg as [? _]. }
  case_decide; [|simplify_eq; by split; [|apply grows_refl]].
  apply bind_Done in Hadd as ([|] & _ & Hadd);
    [simplify_eq; by split; [|apply grows_refl]|].
  assert (∃ fn', vPointer fn' = makeFuncStub ∧ newProvider fn' s = Done (r, s'))
    as (fn' & Hstub & Hnew).
  { destruct (_ && _); apply bind_Done in Hadd as (? & _ & Hadd);
      (eexists; split; [|exact Hadd]; done). }
  split.
  - eapply registry_newProvider; [exact Hnew|done|by left].
  - apply newProvider_grows in Hnew; [done|]. by destruct Hreg as [? _].
Qed.

Lemma setErr_registry e s :
  registry s → registry (setBoot (setErr e (boot s)) s).
Proof. done. Qed.

Lemma addAll_registry constructors : ∀ s s',
  addAll constructors s = Done s' → registry s → registry s' ∧ grows s s'.
Proof.
  induction constructors as [|c cs IH]; intros s s' Hadd Hreg; simpl in Hadd.
  - simplify_eq. split; [done|apply grows_refl].
  - apply bind_Done in Hadd as ([[e|] s1] & Hc & Hrest).
    + simplify_eq. by apply add_registry in Hc as [??].
    + apply add_registry in Hc as [Hreg1 Hgrows1]; [|done].
      apply IH in Hrest as [??]; [|done]. split; [done|]. by eapply grows_trans.
Qed.

Lemma Add_registry constructors s s' :
  Add constructors s = Done s' → registry s → registry s' ∧ grows s s'.
Proof.
  unfold Add. destruct (err (boot s)).
  - intros ?; simplify_eq. split; [done|apply grows_refl].
  - apply addAll_registry.
Qed.

Lemma registry_empty (b : Bootstrap) hp w tr :
  providers b = [] → registry {| boot := b; heap := hp; world := w; trace := tr |}.
Proof.
  intros Hnone. unfold registry, wellFormed. simpl. rewrite Hnone. split_and!.
  - constructor.
  - intros p Hp. by apply elem_of_nil in Hp.
  - intros p Hp. by apply elem_of_nil in Hp.
  - intros i j p q Hi. by rewrite lookup_nil in Hi.
Qed.

(** X18: the registry of the functions.  [Add] only appends to the nodes
    that are registered and leaves those as they are.  And through every
    [Add] the registered nodes stay allocated and distinct, the code
    pointer of every node whose function is not made by [reflect.MakeFunc]
    stays marked, and no two such nodes have the same code pointer: a
    function is never registered as two nodes. *)
Theorem Add_keeps_registry constructors s s' :
  registry s → Add constructors s = Done s' →
  registry s' ∧
  providers (boot s) `prefix_of` providers (boot s') ∧
  ∀ p, p ∈ providers (boot s) → heap s' !!! p = heap s !!! p.
Proof.
  intros Hreg. unfold Add. destruct (err (boot s)).
  - intros ?; simplify_eq. split_and!; [done|done|done].
  - intros Hadd. by apply addAll_registry in Hadd as [? [??]].
Qed.

(** X19: the context is the container's to provide.  When the function
    literal of [New] is a function of no parameter and one result, the
    context, [New] registers it as the one node of the container, with the
    context type as its output.  And whatever is added after, when a node
    other than this one has the context type as an output, [Run] calls
    nothing and returns the error of a duplicate provider. *)
Theorem New_provides_context hp w tr typ ctxT :
  vType contextProvider = Some typ → tKind (rtypes typ) = Func →
  tIn (rtypes typ) = [] → tOut (rtypes typ) = [ctxT] →
  tImplementsError (rtypes ctxT) = false → embedsInject ctxT = false →
  ∃ s0,
    New hp w tr = Done s0 ∧
    providers (boot s0) = [fresh (dom hp)] ∧
    Inputs (heap s0 !!! fresh (dom hp)) = [] ∧
    Outputs (heap s0 !!! fresh (dom hp)) = [ctxT] ∧
    registry s0 ∧
    ∀ constructors s p,
      Add constructors s0 = Done s → err (boot s) = None →
      p ∈ providers (boot s) → p ≠ fresh (dom hp) → ctxT ∈ Outputs (heap s !!! p) →
      ∃ out existing n,
        Run s = Done (Some (duplicateProvider (heap s) out existing n), s).
Proof.
  intros Htyp Hkind HIn HOut Herr Hinj.
  set (r := {| providers := []; values := ∅; cleanups := []; functions := ∅;
               ctx := WithCancel Background; cancel := WithCancel Background;
               err := None |}).
  set (s := {| boot := r; heap := hp; world := w; trace := tr |}).
  assert (Hnew : New hp w tr =
            Done (registered contextProvider typ
                    (setBoot (markFunction (vPointer contextProvider) r) s))).
  { unfold New, Add. simpl. rewrite (add_function contextProvider typ) by done.
    rewrite HIn, HOut. simpl. fold (embedsInject ctxT). rewrite Hinj. simpl.
    by rewrite lookup_empty. }
  eexists. split; [exact Hnew|].
  assert (Houtputs : Outputs (nodeOf contextProvider typ) = [ctxT]).
  { unfold nodeOf, valueSlots. simpl. rewrite HOut, filter_cons.
    by rewrite decide_True by done. }
  split_and!.
  - done.
  - simpl. rewrite lookup_total_insert_eq. simpl. done.
  - simpl. by rewrite lookup_total_insert_eq.
  - eapply Add_registry; [exact Hnew|]. by apply registry_empty.
  - intros constructors s1 p Hadd Hnone Hp Hne Hout.
    apply Add_registry in Hadd as [_ [Hprefix Hsame]].
    2:{ eapply Add_registry; [exact Hnew|]. by apply registry_empty. }
    simpl in Hprefix, Hsame.
    assert (fresh (dom hp) ∈ providers (boot s1)) as Hp0.
    { destruct Hprefix as [k ->]. left. }
    assert (ctxT ∈ Outputs (heap s1 !!! fresh (dom hp))) as Hout0.
    { rewrite Hsame by left. rewrite lookup_total_insert_eq, Houtputs. left. }
    destruct (mapProducers (heap s1) (providers (boot s1))) as [e|P] eqn:HP.
    + pose proof HP as (pre & out & n & post & existing & _ & _ & _ & ->)%mapProducers_fails.
      exists out, existing, n. apply Run_resolve_error; [done|].
      unfold Resolve, ResolveFuel. by rewrite HP.
    + exfalso. apply Hne.
      apply (declaredOutputs_functional (heap s1) (providers (boot s1)) ctxT).
      * apply mapProducers_succeeds. eauto.
      * by apply elem_of_declaredOutputs.
      * by apply elem_of_declaredOutputs.
Qed.

End registry_properties.

Lemma Add_keeps_registry_witness :
  ∃ s',
    @Add sample.runtime sample.program [sample.function 10 1; sample.pointer 20 800]
      (sample.state ∅ []) = Done s' ∧
    @registry sample.runtime sample.program s'.
Proof.
  assert (Hadd : ∃ s',
            @Add sample.runtime sample.program
              [sample.function 10 1; sample.pointer 20 800] (sample.state ∅ []) = Done s')
    by (eexists; vm_compute; reflexivity).
  destruct Hadd as (s' & Hadd). exists s'. split; [exact Hadd|].
  destruct (@Add_keeps_registry sample.runtime sample.program
              [sample.function 10 1; sample.pointer 20 800] (sample.state ∅ []) s')
    as (Hreg & _); [|exact Hadd|exact Hreg].
  apply registry_empty. reflexivity.
Defined.

Lemma New_provides_context_witness :
  ∃ s0,
    @New sample.runtime sample.program ∅ (0%nat : @World sample.program) [] = Done s0 ∧
    Outputs (heap s0 !!! fresh (dom (∅ : gmap positive Node))) = [5%positive].
Proof.
  destruct (@New_provides_context sample.runtime sample.program ∅
              (0%nat : @World sample.program) [] 13%positive 5%positive
              eq_refl eq_refl eq_refl eq_refl eq_refl eq_refl)
    as (s0 & Hnew & _ & _ & Hout & _).
  exists s0. split; [exact Hnew|exact Hout].
Defined.

(** ** Resolve on a list that is in order *)

Section resolve_stable.
Context `{Runtime}.
Variable heap : gmap NodePtr Node.

Lemma range_fuel_same {S X : Type} (body : X → S → option S) xs s :
  (∀ x, x ∈ xs → body x s = Some s) → range_fuel body xs s = Some s.
Proof.
  induction xs as [|x xs IH]; intros Hbody; simpl; [done|].
  rewrite Hbody by left. apply IH. intros y Hy. apply Hbody. by right.
Qed.

(** The second pass on a node whose dependencies are all visited. *)
Lemma sortVisit_ready deps fuel n t :
  2 ≤ fuel → n ∉ tVisited t → (∀ m, m ∈ depsOf deps n → m ∈ tVisited t) →
  sortVisit deps fuel n t =
    Some {| tVisited := {[n]} ∪ tVisited t; tSorted := tSorted t ++ [n] |}.
Proof.
  intros Hfuel Hn Hdeps. destruct fuel as [|[|fuel]]; [lia|lia|].
  change (sortVisit deps (S (S fuel)) n t) with
    (if decide (n ∈ tVisited t) then Some t
     else match range_fuel (sortVisit deps (S fuel)) (depsOf deps n) t with
          | None => None
          | Some s1 => Some {| tVisited := {[n]} ∪ tVisited s1;
                               tSorted := (tSorted s1 ++ [n])%list |}
          end).
  rewrite decide_False by done.
  rewrite range_fuel_same; [done|].
  intros m Hm. simpl. by rewrite decide_True by (by apply Hdeps).
Qed.

Lemma sortRoots_ready deps fuel : 2 ≤ fuel → ∀ post pre t,
  tVisited t = list_to_set pre → tSorted t = pre → NoDup (pre ++ post) →
  (∀ i n m, (pre ++ post) !! i = Some n → m ∈ depsOf deps n →
     ∃ j, j < i ∧ (pre ++ post) !! j = Some m) →
  ∃ t', range_fuel (sortRoot deps fuel) post t = Some t' ∧ tSorted t' = pre ++ post.
Proof.
  intros Hfuel. induction post as [|n post IH]; intros pre t HV HS Hnd Hord; simpl.
  { exists t. by rewrite app_nil_r. }
  assert (n ∉ tVisited t) as Hn.
  { rewrite HV, elem_of_list_to_set. apply NoDup_app in Hnd as (_ & Hdisj & _).
    intros Hin. apply (Hdisj n Hin). left. }
  unfold sortRoot at 1. rewrite decide_False by done.
  rewrite sortVisit_ready; [|done|done|].
  2:{ intros m Hm. rewrite HV, elem_of_list_to_set.
      destruct (Hord (length pre) n m) as (j & Hj & Hlook); [|done|].
      - by rewrite lookup_app_r, Nat.sub_diag by lia.
      - rewrite lookup_app_l in Hlook by done. by eapply list_elem_of_lookup_2. }
  destruct (IH (pre ++ [n])
              {| tVisited := {[n]} ∪ tVisited t; tSorted := tSorted t ++ [n] |})
    as (t' & Hloop & Hsorted); simpl.
  - rewrite HV, list_to_set_app_L. simpl. set_solver.
  - by rewrite HS.
  - by rewrite <-app_assoc.
  - intros i a m. rewrite <-app_assoc. apply Hord.
  - exists t'. split; [done|]. by rewrite Hsorted, <-app_assoc.
Qed.

Lemma ordered_no_cycle nodes x :
  ordered (dependsOn heap nodes) nodes → ¬ tc (dependsOn heap nodes) x x.
Proof.
  intros Hord Hcycle.
  assert (∃ z, dependsOn heap nodes x z) as [z (Hx & _)] by (inversion Hcycle; eauto).
  by apply (ordered_acyclic (dependsOn heap nodes) nodes x).
Qed.

(** When [Resolve] succeeds on a list that is in order, the order it
    returns is the list. *)
Lemma Resolve_same_order nodes sorted :
  NoDup nodes → ordered (dependsOn heap nodes) nodes →
  Resolve heap nodes = Some (inr sorted) → sorted = nodes.
Proof.
  intros Hnd Hord Hsorted.
  destruct (Resolve_cases heap nodes)
    as [(e & _ & He)|[(P & e & _ & _ & He)|(P & deps & HP & HD & Hsort)]];
    [congruence|congruence|].
  rewrite Hsorted in Hsort. symmetry in Hsort. unfold topologicalSort in Hsort.
  destruct (checkCycles heap _ nodes deps) as [[e|u]|]; [done| |done].
  destruct nodes as [|n nodes]; [simpl in Hsort; by simplify_eq|].
  destruct (sortRoots_ready deps (S (length (n :: nodes))) ltac:(simpl; lia)
              (n :: nodes) [] emptySortState) as (t' & Hloop & Ht'); try done.
  - intros i a m Ha Hm. apply (Hord i a m Ha).
    by apply (resolved_edges heap (n :: nodes) P deps).
  - rewrite Hloop in Hsort. by simplify_eq.
Qed.

(** X20: [Resolve] keeps an order that is one already.  When no node is
    twice in the list, no output key is declared twice, every input key
    has a producer, and every node comes in the list after the nodes it
    depends on, [Resolve] returns the list as it is: constructors that are
    registered after the ones they depend on run in the order of their
    registration. *)
Theorem Resolve_keeps_order nodes :
  NoDup nodes → uniqueProducers heap nodes → allResolved heap nodes →
  ordered (dependsOn heap nodes) nodes →
  Resolve heap nodes = Some (inr nodes).
Proof.
  intros Hnd Huniq Hres Hord.
  destruct (proj2 (Resolve_succeeds heap nodes)) as [sorted Hsorted].
  { split_and!; [done|done|]. intros x. by apply ordered_no_cycle. }
  by rewrite Hsorted, (Resolve_same_order nodes sorted).
Qed.

(** X21: [Resolve] on its own result.  The order that [Resolve] returns
    is resolved to itself. *)
Theorem Resolve_idempotent nodes sorted :
  Resolve heap nodes = Some (inr sorted) →
  Resolve heap sorted = Some (inr sorted).
Proof.
  intros (Hnd & Hiff & Hord & Huniq & Hres)%Resolve_sorted.
  assert (sorted ⊆+ nodes) as Hsub.
  { apply NoDup_submseteq; [done|]. intros n. apply Hiff. }
  assert (ordered (dependsOn heap sorted) sorted) as Hord'.
  { intros i a b Ha (Ha' & Hb' & Hk). apply (Hord i a b Ha).
    split_and!; [by apply Hiff|by apply Hiff|done]. }
  destruct (proj2 (Resolve_succeeds heap sorted)) as [again Hagain].
  { split_and!.
    - unfold uniqueProducers.
      assert ((declaredOutputs heap sorted).*1 ⊆+ (declaredOutputs heap nodes).*1) as Hsub'.
      { unfold declaredOutputs. by rewrite Hsub. }
      apply submseteq_Permutation in Hsub' as [k Hk]. rewrite Hk in Huniq.
      by apply NoDup_app in Huniq as [? _].
    - unfold allResolved. apply Forall_forall.
      intros [n k] [Hn Hk]%elem_of_declaredInputs.
      simpl. apply produced_by. apply Hiff in Hn.
      destruct (Hres n k Hn Hk) as (m & Hm & Hout). exists m. split; [by apply Hiff|done].
    - intros x. by apply ordered_no_cycle. }
  by rewrite Hagain, (Resolve_same_order sorted again).
Qed.

End resolve_stable.

Lemma Resolve_keeps_order_witness :
  @Resolve sample.runtime sample.chainHeap [2; 1; 3]%positive
    = Some (inr [2; 1; 3]%positive).
Proof.
  apply (@Resolve_keeps_order sample.runtime sample.chainHeap [2; 1; 3]%positive).
  - apply (bool_decide_unpack _). vm_compute. exact I.
  - apply (bool_decide_unpack _). vm_compute. exact I.
  - apply (bool_decide_unpack _). vm_compute. exact I.
  - intros i a b Ha (_ & Hb & k & Hin & Hout).
    apply elem_of_cons in Hb as [->|Hb];
      [|apply elem_of_cons in Hb as [->|Hb]; [|apply list_elem_of_singleton in Hb as ->]];
      destruct i as [|[|[|i]]]; simpl in Ha; simplify_eq;
      vm_compute in Hin; vm_compute in Hout;
      first [ by exists 0; split; [lia|]
            | by exists 1; split; [lia|]
            | exfalso; set_solver ].
Defined.

Lemma Resolve_idempotent_witness :
  @Resolve sample.runtime sample.chainHeap [2; 1; 3]%positive
    = Some (inr [2; 1; 3]%positive).
Proof.
  apply (@Resolve_idempotent sample.runtime sample.chainHeap [3; 1; 2]%positive).
  vm_compute. reflexivity.
Defined.

(** ** Add: what it leaves, when it panics *)

Section registration_frame.
Context `{Runtime} `{Program}.

Lemma sameRun_trans s1 s2 s3 : sameRun s1 s2 → sameRun s2 s3 → sameRun s1 s3.
Proof. unfold sameRun. intros (?&?&?&?&?&?) (?&?&?&?&?&?). split_and!; congruence. Qed.

Lemma newProvider_sameRun fn s r s' : newProvider fn s = Done (r, s') → sameRun s s'.
Proof.
  intros (Hw & Ht & [(e & _ & Hb & _)|(node & _ & _ & Hb & _)])%newProvider_cases;
    unfold sameRun; rewrite Hb; by split_and!.
Qed.

Lemma add_sameRun fn s r s' : add fn s = Done (r, s') → sameRun s s'.
Proof.
  unfold add. intros Hadd.
  apply bind_Done in Hadd as (typ & _ & Hadd).
  case_decide.
  { apply registerProvider_cases in Hadd as [(e & -> & ->)|[(-> & -> & _)|[_ Hnew]]];
      [by split_and!..|].
    by apply newProvider_sameRun in Hnew. }
  case_decide; [|simplify_eq; by split_and!].
  apply bind_Done in Hadd as ([|] & _ & Hadd); [simplify_eq; by split_and!|].
  destruct (_ && _); apply bind_Done in Hadd as (? & _ & Hadd);
    by apply newProvider_sameRun in Hadd.
Qed.

Lemma addAll_sameRun constructors : ∀ s s',
  addAll constructors s = Done s' → sameRun s s'.
Proof.
  induction constructors as [|c cs IH]; intros s s' Hadd; simpl in Hadd.
  - simplify_eq. by split_and!.
  - apply bind_Done in Hadd as ([[e|] s1] & Hc & Hrest).
    + simplify_eq. by apply add_sameRun in Hc.
    + eapply sameRun_trans; [by eapply add_sameRun|by apply IH].
Qed.





(** X22: [Add] calls nothing.  It calls no constructor and no cleanup, and
    leaves the cache, the cleanups, the context and its cancel function as
    they are: the constructors it is given run in [Run], not before. *)
Theorem Add_calls_nothing constructors s s' :
  Add constructors s = Done s' →
  world s' = world s ∧ trace s' = trace s ∧
  values (boot s') = values (boot s) ∧ cleanups (boot s') = cleanups (boot s) ∧
  ctx (boot s') = ctx (boot s) ∧ cancel (boot s') = cancel (boot s).
Proof.
  unfold Add. destruct (err (boot s)); [by intros ?; simplify_eq|].
  apply addAll_sameRun.
Qed.


End registration_frame.

Lemma Add_calls_nothing_witness :
  ∃ s',
    @Add sample.runtime sample.program [sample.function 10 1; sample.pointer 20 800]
      (sample.state ∅ []) = Done s' ∧
    trace s' = [] ∧ values (boot s') = ∅.
Proof.
  assert (Hadd : ∃ s',
            @Add sample.runtime sample.program
              [sample.function 10 1; sample.pointer 20 800] (sample.state ∅ []) = Done s')
    by (eexists; vm_compute; reflexivity).
  destruct Hadd as (s' & Hadd). exists s'.
  destruct (@Add_calls_nothing sample.runtime sample.program
              [sample.function 10 1; sample.pointer 20 800] (sample.state ∅ []) s' Hadd)
    as (_ & Htrace & Hvalues & _).
  split_and!; [exact Hadd|exact Htrace|exact Hvalues].
Defined.

(** ** Run: the calls it makes, and when it cannot panic *)

Section run_calls.
Context `{Runtime} `{Program}.





Lemma ordered_prefix (R : relation NodePtr) called sorted :
  called `prefix_of` sorted → ordered R sorted → ordered R called.
Proof.
  intros [rest ->] Hord i a b Ha Hab.
  destruct (Hord i a b) as (j & Hj & Hb); [by apply lookup_app_l_Some|done|].
  exists j. split; [done|].
  apply lookup_lt_Some in Ha. by rewrite lookup_app_l in Hb by lia.
Qed.

Lemma calledCleanups_calls tr :
  Forall (fun ev => ∃ p args, ev = CallFn p args) tr → calledCleanups tr = [].
Proof.
  induction 1 as [|ev tr (p & args & ->) _ IH]; [done|]. by simpl.
Qed.

(** X24: the calls of [Run].  [Run] calls constructors and nothing else:
    no cleanup, and not the cancel function.  It calls the constructors of
    registered nodes only, none twice, and each after those of the nodes
    it depends on; and when it returns no error it has called the
    constructor of every registered node. *)
Theorem Run_calls_in_order s r s' :
  Run s = Done (r, s') →
  ∃ tr, trace s' = trace s ++ tr ∧
    Forall (fun ev => ∃ p args, ev = CallFn p args) tr ∧
    NoDup (calledNodes tr) ∧
    (∀ p, p ∈ calledNodes tr → p ∈ providers (boot s)) ∧
    ordered (dependsOn (heap s) (providers (boot s))) (calledNodes tr) ∧
    (r = None → ∀ p, p ∈ providers (boot s) → p ∈ calledNodes tr).
Proof.
  intros [(e & _ & -> & ->)|[(e & _ & _ & -> & ->)|(sorted & _ & Hres & Hrun)]]%Run_cases.
  - exists []. rewrite app_nil_r. split_and!; try done; [apply NoDup_nil_2|].
    intros p Hp. by apply elem_of_nil in Hp.
  - exists []. rewrite app_nil_r. split_and!; try done; [apply NoDup_nil_2|].
    intros p Hp. by apply elem_of_nil in Hp.
  - pose proof Hres as (Hnd & Hiff & Hord & _)%Resolve_sorted.
    destruct (executeAll_args sorted s r s' Hrun) as (tr & Htr & Hall).
    { intros i j p q k. by apply (Resolve_takes_before _ (providers (boot s))). }
    exists tr. split; [done|].
    assert (calledNodes tr `prefix_of` sorted ∧ (r = None → calledNodes tr = sorted))
      as [Hprefix Hall'].
    { destruct r as [e|].
      - apply executeAll_error in Hrun
          as (pre & p & post & s1 & -> & _ & _ & _ & tr' & Htr' & Hcalled).
        rewrite Htr in Htr'. apply app_inv_head in Htr' as <-. split; [|done].
        destruct Hcalled as [-> | ->].
        + by apply prefix_app_r.
        + rewrite (cons_middle p pre post), app_assoc. by apply prefix_app_r.
      - apply executeAll_ok in Hrun as (_ & tr' & Htr' & Hcalled & _).
        rewrite Htr in Htr'. apply app_inv_head in Htr' as <-. by rewrite Hcalled. }
    split_and!.
    + eapply Forall_impl; [exact Hall|]. simpl. intros ev (p & args & -> & _). eauto.
    + destruct Hprefix as [rest Heq]. rewrite Heq in Hnd. by apply NoDup_app in Hnd as [? _].
    + intros p Hp. apply Hiff. destruct Hprefix as [rest ->]. apply elem_of_app. by left.
    + by apply (ordered_prefix _ _ sorted).
    + intros -> p Hp. rewrite Hall' by done. by apply Hiff.
Qed.


End run_calls.

Lemma Run_calls_in_order_witness :
  ∃ s' tr,
    @Run sample.runtime sample.program (sample.state sample.chainHeap [3; 1; 2]%positive)
      = Done (None, s') ∧
    trace s' = trace (sample.state sample.chainHeap [3; 1; 2]%positive) ++ tr ∧
    NoDup (calledNodes tr) ∧ 3%positive ∈ calledNodes tr.
Proof.
  assert (Hrun : ∃ s',
            @Run sample.runtime sample.program
              (sample.state sample.chainHeap [3; 1; 2]%positive) = Done (None, s'))
    by (eexists; vm_compute; reflexivity).
  destruct Hrun as (s' & Hrun).
  destruct (@Run_calls_in_order sample.runtime sample.program
              (sample.state sample.chainHeap [3; 1; 2]%positive) None s' Hrun)
    as (tr & Htr & _ & Hnd & _ & _ & Hall).
  exists s', tr. split_and!; [exact Hrun|exact Htr|exact Hnd|].
  apply Hall; [reflexivity|left].
Defined.

